(** * Mancala / Kalah engine and alpha-beta advisor: a shallow embedding

    The development follows the modules of the program.

    - [engine.js]: rules, game states, [isTerminal], [finalizeIfTerminal],
      [getValidMoves], [sowPath], [playMove].
    - [ai.js]: [evalCost], [orderMoves], [alphabeta], [bestMove],
      [scoreMoves].
    - [ui.js]: the controller of the page, in module [Ui]: move strings,
      the history and undo, the animation of a move, the log of finished
      games.

    Modelling conventions.

    - JavaScript numbers that hold seed counts, indices and scores are
      integers in every run of the engine; they are modelled as [Z]
      (exact integer arithmetic, i.e. below 2^53 in the source).
    - An array is a [list]; [a[i]] is a lookup and [a[i] = v] an update by
      index.  For a state whose two pit arrays have length [pitsPerSide]
      (the only states the factories and [playMove] build, see
      [wf_initStandard] and [wf_playMove]) every index used by the engine is
      in range.  Out of range the source would read [undefined] and a write
      would extend the array; the model reads [0] and leaves the list
      unchanged there, and the laws of the program are stated for states
      with arrays of that length.
    - A side is [0] or [1]; both factories coerce their argument to one of
      the two, so the type [Side] has exactly these two values.
    - The objects are mutable in the source; the functional model below is
      justified by the store model of module [Alias] at the end of the
      definitions, where states live at addresses and [playMove] writes only
      to the copy it allocates. *)

From Stdlib Require Import ZArith QArith Lia Sorted.
From stdpp Require Import numbers base strings list.

Local Open Scope Z_scope.

(** ** engine.js: data *)

Inductive CaptureRule := KALAH | NONE.

Definition CaptureRule_eqb (a b : CaptureRule) : bool :=
  match a, b with
  | KALAH, KALAH | NONE, NONE => true
  | _, _ => false
  end.

Record Rules := mkRules {
  pitsPerSide : Z;
  seedsPerPit : Z;
  extraTurnOnStore : bool;
  sweepOnGameEnd : bool;
  captureRule : CaptureRule;
  allowMoveFromEmpty : bool;
}.

(** [makeRules]: the two numeric options are validated, the others are
    stored as given.  [Number.isInteger] holds by typing. *)
Definition makeRules (pitsPerSide seedsPerPit : Z)
    (extraTurnOnStore sweepOnGameEnd : bool) (captureRule : CaptureRule)
    (allowMoveFromEmpty : bool) : string + Rules :=
  if pitsPerSide <=? 0 then inl "pitsPerSide must be positive int"%string
  else if seedsPerPit <? 0 then inl "seedsPerPit must be nonnegative int"%string
  else inr (mkRules pitsPerSide seedsPerPit extraTurnOnStore sweepOnGameEnd
              captureRule allowMoveFromEmpty).

Inductive Side := Side0 | Side1.

(** [1 - side] *)
Definition other (p : Side) : Side :=
  match p with Side0 => Side1 | Side1 => Side0 end.

Definition Side_eqb (a b : Side) : bool :=
  match a, b with
  | Side0, Side0 | Side1, Side1 => true
  | _, _ => false
  end.

(** A state object [{ pits: [a0, a1], store: [s0, s1], toMove }].  The cell
    type is a parameter because [initFromArrays] copies the cells it is given
    without looking at them; the engine works at [Z].  The presentation
    layer attaches one more property, [terminal], to the state object it
    holds; [terminal_prop] is that optional property ([None]: absent). *)
Record GameStateOf (A : Type) := mkState {
  pits0 : list A;
  pits1 : list A;
  store0 : Z;
  store1 : Z;
  toMove : Side;
  terminal_prop : option bool;
}.
Arguments mkState {A}.
Arguments pits0 {A}.
Arguments pits1 {A}.
Arguments store0 {A}.
Arguments store1 {A}.
Arguments toMove {A}.
Arguments terminal_prop {A}.

Abbreviation GameState := (GameStateOf Z).

Section Access.
Context {A : Type}.

(** [st.pits[side]] *)
Definition pits (st : GameStateOf A) (side : Side) : list A :=
  match side with Side0 => pits0 st | Side1 => pits1 st end.

(** [st.store[side]] *)
Definition store (st : GameStateOf A) (side : Side) : Z :=
  match side with Side0 => store0 st | Side1 => store1 st end.

Definition set_pits (side : Side) (l : list A) (st : GameStateOf A) : GameStateOf A :=
  match side with
  | Side0 => mkState l (pits1 st) (store0 st) (store1 st) (toMove st) (terminal_prop st)
  | Side1 => mkState (pits0 st) l (store0 st) (store1 st) (toMove st) (terminal_prop st)
  end.

(** [st.store[side] = v] *)
Definition set_store (side : Side) (v : Z) (st : GameStateOf A) : GameStateOf A :=
  match side with
  | Side0 => mkState (pits0 st) (pits1 st) v (store1 st) (toMove st) (terminal_prop st)
  | Side1 => mkState (pits0 st) (pits1 st) (store0 st) v (toMove st) (terminal_prop st)
  end.

(** [st.toMove = p] *)
Definition set_toMove (p : Side) (st : GameStateOf A) : GameStateOf A :=
  mkState (pits0 st) (pits1 st) (store0 st) (store1 st) p (terminal_prop st).

(** [cloneState]: a new object with the three engine properties; any other
    property of the original is not copied. *)
Definition cloneState (st : GameStateOf A) : GameStateOf A :=
  mkState (pits0 st) (pits1 st) (store0 st) (store1 st) (toMove st) None.
End Access.

(** [st.pits[side][i]] *)
Definition pit (st : GameState) (side : Side) (i : Z) : Z :=
  default 0 (pits st side !! Z.to_nat i).

(** [st.pits[side][i] = v] *)
Definition set_pit (side : Side) (i : Z) (v : Z) (st : GameState) : GameState :=
  set_pits side (<[Z.to_nat i := v]> (pits st side)) st.

(** The indices of [for (let i = 0; i < n; i++)]. *)
Definition range (n : Z) : list Z := Z.of_nat <$> seq 0 (Z.to_nat n).

(** ** engine.js: state factories *)

Definition initStandard (rules : Rules) (toMove : Z) : GameState :=
  let n := pitsPerSide rules in
  mkState (replicate (Z.to_nat n) (seedsPerPit rules))
          (replicate (Z.to_nat n) (seedsPerPit rules))
          0 0
          (if toMove =? 1 then Side1 else Side0)
          None.

(** [x | 0] on a finite number: truncate toward zero, reduce modulo 2^32,
    read as a signed 32-bit integer (ECMAScript ToInt32). *)
Definition toInt32 (x : Q) : Z :=
  let int := Z.quot (Qnum x) (Z.pos (Qden x)) in
  let int32bit := int mod 2 ^ 32 in
  if int32bit >=? 2 ^ 31 then int32bit - 2 ^ 32 else int32bit.

(** [initFromArrays]: only the two lengths are checked ([Array.isArray]
    holds by typing). *)
Definition initFromArrays {A : Type} (rules : Rules) (pits0 pits1 : list A)
    (store0 store1 : Q) (toMove : Z) : string + GameStateOf A :=
  let n := pitsPerSide rules in
  if negb (Z.of_nat (length pits0) =? n) then inl "pits0 wrong length"%string
  else if negb (Z.of_nat (length pits1) =? n) then inl "pits1 wrong length"%string
  else inr (mkState pits0 pits1 (toInt32 store0) (toInt32 store1)
              (if toMove =? 1 then Side1 else Side0) None).

(** ** engine.js: terminal test and sweep *)

Definition isTerminal (st : GameState) (rules : Rules) : bool :=
  let n := pitsPerSide rules in
  let '(z0, z1) :=
    foldl (fun '(z0, z1) i =>
             (if negb (pit st Side0 i =? 0) then false else z0,
              if negb (pit st Side1 i =? 0) then false else z1))
          (true, true) (range n) in
  z0 || z1.

(** The inner loop of [finalizeIfTerminal] for one side, then the store
    update. *)
Definition sweepSide (n : Z) (ns : GameState) (side : Side) : GameState :=
  let '(ns', sweep) :=
    foldl (fun '(ns, sweep) i => (set_pit side i 0 ns, sweep + pit ns side i))
          (ns, 0) (range n) in
  set_store side (store ns' side + sweep) ns'.

Definition finalizeIfTerminal (st : GameState) (rules : Rules) : GameState :=
  if negb (isTerminal st rules) then st
  else if negb (sweepOnGameEnd rules) then st
  else
    let ns := cloneState st in
    let n := pitsPerSide rules in
    foldl (sweepSide n) ns [Side0; Side1].

(** ** engine.js: legal moves *)

Definition getValidMoves (st : GameState) (rules : Rules) : list Z :=
  let p := toMove st in
  let n := pitsPerSide rules in
  List.filter (fun i => negb (negb (allowMoveFromEmpty rules) && (pit st p i =? 0)))
    (range n).

(** ** engine.js: sowing path *)

Inductive Loc :=
| LocPit (side : Side) (index : Z)
| LocStore (side : Side).

(** The body of [while (hand > 0)]: one entry per seed in hand. *)
Fixpoint sowLoop (n : Z) (mover : Side) (hand : nat) (ringPos : Z) : list Loc :=
  match hand with
  | O => []
  | S hand' =>
      let loc :=
        if ringPos <? n then LocPit mover ringPos
        else if ringPos =? n then LocStore mover
        else LocPit (other mover) (ringPos - (n + 1)) in
      loc :: sowLoop n mover hand' (Z.rem (ringPos + 1) (2 * n + 1))
  end.

Definition sowPath (st : GameState) (rules : Rules) (mover : Side) (pitIndex : Z)
    : list Loc :=
  let n := pitsPerSide rules in
  let hand := pit st mover pitIndex in
  if hand <=? 0 then []
  else
    let ringLen := 2 * n + 1 in
    let ringPos := Z.rem (pitIndex + 1) ringLen in
    sowLoop n mover (Z.to_nat hand) ringPos.

(** ** engine.js: applying a move *)

Inductive CaptureInfo :=
| NoCapture
| Captured (pit oppPit captured : Z).

Definition happened (c : CaptureInfo) : bool :=
  match c with NoCapture => false | Captured _ _ _ => true end.

(** The result object of [playMove].  [S] is what [state] holds: a state
    value here, the address of a state object in module [Alias]. *)
Record MoveResultOf (S : Type) := mkResult {
  state : S;
  path : list Loc;
  mover : Side;
  pitIndex : Z;
  extraTurn : bool;
  capture : CaptureInfo;
  terminal : bool;
}.
Arguments mkResult {S}.
Arguments state {S}.
Arguments path {S}.
Arguments mover {S}.
Arguments pitIndex {S}.
Arguments extraTurn {S}.
Arguments capture {S}.
Arguments terminal {S}.

(** [{ ok: false, error }] or [{ ok: true, ... }] *)
Inductive PlayResultOf (S : Type) :=
| PlayError (error : string)
| PlayOk (res : MoveResultOf S).
Arguments PlayError {S}.
Arguments PlayOk {S}.

Abbreviation MoveResult := (MoveResultOf GameState).
Abbreviation PlayResult := (PlayResultOf GameState).

(** One iteration of [for (const loc of path)]. *)
Definition dropSeed (ns : GameState) (loc : Loc) : GameState :=
  match loc with
  | LocStore side => set_store side (store ns side + 1) ns
  | LocPit side index => set_pit side index (pit ns side index + 1) ns
  end.

Definition sow (ns : GameState) (path : list Loc) : GameState :=
  foldl dropSeed ns path.

(** The copy with the source pit emptied. *)
Definition emptied (st : GameState) (mover : Side) (pitIndex : Z) : GameState :=
  set_pit mover pitIndex 0 (cloneState st).

(** [wasEmptyBefore], an array of [n] booleans. *)
Definition wasEmptyBefore (st : GameState) (n : Z) (mover : Side) : list bool :=
  (fun i => pit st mover i =? 0) <$> range n.

(** The capture block.  [last] is the last location of the path, if any. *)
Definition captureStep (st : GameState) (rules : Rules) (mover : Side)
    (ns : GameState) (last : option Loc) : GameState * CaptureInfo :=
  let n := pitsPerSide rules in
  let opp := other mover in
  match last with
  | Some (LocPit side i) =>
      if CaptureRule_eqb (captureRule rules) KALAH && Side_eqb side mover then
        if default false (wasEmptyBefore st n mover !! Z.to_nat i)
           && (pit ns mover i =? 1) then
          let oppI := (n - 1) - i in
          let oppSeeds := pit ns opp oppI in
          if oppSeeds >? 0 then
            let ns1 := set_pit opp oppI 0 ns in
            let ns2 := set_pit mover i 0 ns1 in
            let ns3 := set_store mover (store ns2 mover + (oppSeeds + 1)) ns2 in
            (ns3, Captured i oppI (oppSeeds + 1))
          else (ns, NoCapture)
        else (ns, NoCapture)
      else (ns, NoCapture)
  | _ => (ns, NoCapture)
  end.

(** [!!(rules.extraTurnOnStore && last && last.kind === "store" && last.side === mover)] *)
Definition extraTurnOf (rules : Rules) (mover : Side) (last : option Loc) : bool :=
  extraTurnOnStore rules &&
  match last with
  | Some (LocStore side) => Side_eqb side mover
  | _ => false
  end.

Definition playMove (st : GameState) (rules : Rules) (pitIndex : Z) : PlayResult :=
  let n := pitsPerSide rules in
  let mover := toMove st in
  let opp := other mover in
  if (pitIndex <? 0) || (pitIndex >=? n) then PlayError "pitIndex out of range"
  else if negb (allowMoveFromEmpty rules) && (pit st mover pitIndex =? 0)
  then PlayError "empty pit"
  else
    let path := sowPath st rules mover pitIndex in
    let ns := emptied st mover pitIndex in
    let ns := sow ns path in
    let last := last path in
    let '(ns, captureInfo) := captureStep st rules mover ns last in
    let extraTurn := extraTurnOf rules mover last in
    let ns := set_toMove (if extraTurn then mover else opp) ns in
    let terminalBeforeSweep := isTerminal ns rules in
    let nsFinal := finalizeIfTerminal ns rules in
    let terminal := isTerminal nsFinal rules in
    PlayOk (mkResult nsFinal path mover pitIndex extraTurn captureInfo
              (terminalBeforeSweep || terminal)).

Definition pit1Index (rules : Rules) : Z := pitsPerSide rules - 1.

(** ** ai.js: evaluation and move ordering *)

(** A JavaScript number that is an integer or one of the two infinities. *)
Inductive Score := NegInf | Fin (z : Z) | PosInf.

(** [a <= b] *)
Definition Score_leb (a b : Score) : bool :=
  match a, b with
  | NegInf, _ => true
  | _, PosInf => true
  | Fin x, Fin y => x <=? y
  | _, _ => false
  end.

(** [Math.max(a, b)] and [Math.min(a, b)] *)
Definition Score_max (a b : Score) : Score := if Score_leb a b then b else a.
Definition Score_min (a b : Score) : Score := if Score_leb a b then a else b.

Definition evalCost (st : GameState) (rules : Rules) (rootP : Side)
    (startStoreP startStoreO repRoot : Z) : Z :=
  let o := other rootP in
  let dp := store st rootP - startStoreP in
  let do_ := store st o - startStoreO in
  let i1 := pit1Index rules in
  let pit1Empty := if pit st rootP i1 =? 0 then 1 else 0 in
  10 * (dp - do_) + repRoot + 5 * pit1Empty.

(** The score [orderMoves] gives to one candidate. *)
Definition orderScore (st : GameState) (rules : Rules) (mv : Z) : Z :=
  let p := toMove st in
  match playMove st rules mv with
  | PlayError _ => - 10 ^ 18
  | PlayOk res =>
      let extra := if extraTurn res then 1000 else 0 in
      let cap := if happened (capture res) then 200 else 0 in
      let storeGain := store (state res) p - store st p in
      extra + cap + storeGain
  end.

(** [scored.sort((a, b) => b.score - a.score)]: [Array.prototype.sort] is
    stable, so the result is the stable arrangement by descending score,
    whatever algorithm the host uses.  It is computed here by insertion from
    the right, an entry going in front of the entries that do not beat it. *)
Fixpoint insertDesc (x : Z * Z) (l : list (Z * Z)) : list (Z * Z) :=
  match l with
  | [] => [x]
  | y :: l' => if snd y >? snd x then y :: insertDesc x l' else x :: y :: l'
  end.

Definition sortDesc (l : list (Z * Z)) : list (Z * Z) := foldr insertDesc [] l.

Definition orderMoves (st : GameState) (rules : Rules) (moves : list Z) : list Z :=
  let scored := (fun mv => (mv, orderScore st rules mv)) <$> moves in
  fst <$> sortDesc scored.

(** ** ai.js: alpha-beta *)

(** [st.terminal] read as a condition: an absent property is [undefined]. *)
Definition terminal_truthy (st : GameState) : bool :=
  default false (terminal_prop st).

(** [rep2] of both loops, and [repRoot] of [bestMove] (with [repRoot = 0]). *)
Definition countRep (rootP : Side) (res : MoveResult) (repRoot : Z) : Z :=
  if Side_eqb (mover res) rootP && extraTurn res then repRoot + 1 else repRoot.

(** The [for (const mv of ordered)] loop of a maximizing node; [child] is the
    recursive call at [depth - 1]. *)
Fixpoint maxLoop (child : GameState → Score → Score → Z → Score)
    (st : GameState) (rules : Rules) (rootP : Side) (repRoot : Z)
    (ordered : list Z) (best alpha beta : Score) : Score :=
  match ordered with
  | [] => best
  | mv :: ordered' =>
      match playMove st rules mv with
      | PlayError _ => maxLoop child st rules rootP repRoot ordered' best alpha beta
      | PlayOk res =>
          let rep2 := countRep rootP res repRoot in
          let val := child (state res) alpha beta rep2 in
          let best := Score_max best val in
          let alpha := Score_max alpha best in
          if Score_leb beta alpha then best
          else maxLoop child st rules rootP repRoot ordered' best alpha beta
      end
  end.

(** The loop of a minimizing node. *)
Fixpoint minLoop (child : GameState → Score → Score → Z → Score)
    (st : GameState) (rules : Rules) (rootP : Side) (repRoot : Z)
    (ordered : list Z) (best alpha beta : Score) : Score :=
  match ordered with
  | [] => best
  | mv :: ordered' =>
      match playMove st rules mv with
      | PlayError _ => minLoop child st rules rootP repRoot ordered' best alpha beta
      | PlayOk res =>
          let rep2 := countRep rootP res repRoot in
          let val := child (state res) alpha beta rep2 in
          let best := Score_min best val in
          let beta := Score_min beta best in
          if Score_leb beta alpha then best
          else minLoop child st rules rootP repRoot ordered' best alpha beta
      end
  end.

(** [alphabeta] by recursion on the number of plies left: [depth] is
    [Z.of_nat d], and [depth <= 0] is [d = 0]. *)
Fixpoint alphabeta_plies (d : nat) (st : GameState) (rules : Rules)
    (alpha beta : Score) (rootP : Side) (startStoreP startStoreO repRoot : Z)
    : Score :=
  match d with
  | O => Fin (evalCost st rules rootP startStoreP startStoreO repRoot)
  | S d' =>
      if terminal_truthy st
      then Fin (evalCost st rules rootP startStoreP startStoreO repRoot)
      else
        let moves := getValidMoves st rules in
        if (length moves =? 0)%nat
        then Fin (evalCost st rules rootP startStoreP startStoreO repRoot)
        else
          let maximizing := Side_eqb (toMove st) rootP in
          let ordered := orderMoves st rules moves in
          let child := fun st' alpha' beta' rep2 =>
            alphabeta_plies d' st' rules alpha' beta' rootP startStoreP startStoreO rep2 in
          if maximizing
          then maxLoop child st rules rootP repRoot ordered NegInf alpha beta
          else minLoop child st rules rootP repRoot ordered PosInf alpha beta
  end.

Definition alphabeta (st : GameState) (rules : Rules) (depth : Z)
    (alpha beta : Score) (rootP : Side) (startStoreP startStoreO repRoot : Z)
    : Score :=
  alphabeta_plies (Z.to_nat depth) st rules alpha beta rootP
    startStoreP startStoreO repRoot.

(** ** ai.js: the recommendation *)

Record BestMove := mkBest {
  hasMove : bool;
  move : Z;
  score : Score;
}.

(** One recursive call made by the root loop: the candidate, the window and
    [repRoot] it was called with, and the value it returned. *)
Record RootCall := mkCall {
  call_move : Z;
  call_alpha : Score;
  call_beta : Score;
  call_repRoot : Z;
  call_val : Score;
}.

(** The root loop of [bestMove].  It returns [bestMv] and [bestScore], and
    the calls of [alphabeta] in the order they were made. *)
Fixpoint rootLoop (st : GameState) (rules : Rules) (searchDepth : Z)
    (rootP : Side) (startStoreP startStoreO : Z) (beta : Score)
    (ordered : list Z) (bestMv : Z) (bestScore alpha : Score)
    : Z * Score * list RootCall :=
  match ordered with
  | [] => (bestMv, bestScore, [])
  | mv :: ordered' =>
      match playMove st rules mv with
      | PlayError _ =>
          rootLoop st rules searchDepth rootP startStoreP startStoreO beta
            ordered' bestMv bestScore alpha
      | PlayOk res =>
          let repRoot := countRep rootP res 0 in
          let val := alphabeta (state res) rules (searchDepth - 1) alpha beta
                       rootP startStoreP startStoreO repRoot in
          let bestMv' := if Score_leb val bestScore then bestMv else mv in
          let bestScore' := if Score_leb val bestScore then bestScore else val in
          let alpha' := Score_max alpha bestScore' in
          let '(mvF, scoreF, calls) :=
            rootLoop st rules searchDepth rootP startStoreP startStoreO beta
              ordered' bestMv' bestScore' alpha' in
          (mvF, scoreF, mkCall mv alpha beta repRoot val :: calls)
      end
  end.

(** [bestMove] together with the calls of its loop. *)
Definition bestMoveRun (st : GameState) (rules : Rules) (depth : Z)
    : BestMove * list RootCall :=
  let moves := getValidMoves st rules in
  match moves with
  | [] => (mkBest false (-1) NegInf, [])
  | mv0 :: _ =>
      let rootP := toMove st in
      let startStoreP := store st rootP in
      let startStoreO := store st (other rootP) in
      let searchDepth := if depth <=? 0 then 1 else depth in
      let ordered := orderMoves st rules moves in
      let '(bestMv, bestScore, calls) :=
        rootLoop st rules searchDepth rootP startStoreP startStoreO PosInf
          ordered mv0 NegInf NegInf in
      (mkBest true bestMv bestScore, calls)
  end.

Definition bestMove (st : GameState) (rules : Rules) (depth : Z) : BestMove :=
  fst (bestMoveRun st rules depth).

(** The windows of the recursive calls made by [bestMove]. *)
Definition bestMoveCalls (st : GameState) (rules : Rules) (depth : Z)
    : list RootCall :=
  snd (bestMoveRun st rules depth).

(** ** ai.js: the score of every move *)

(** The body of the loop of [scoreMoves]: the score of one root move,
    searched with the full window. *)
Definition rootScore (st : GameState) (rules : Rules) (depth : Z) (mv : Z)
    : option Score :=
  let rootP := toMove st in
  let startStoreP := store st rootP in
  let startStoreO := store st (other rootP) in
  let searchDepth := if depth <=? 0 then 1 else depth in
  match playMove st rules mv with
  | PlayError _ => None
  | PlayOk res =>
      let repRoot := countRep rootP res 0 in
      Some (alphabeta (state res) rules (searchDepth - 1) NegInf PosInf
              rootP startStoreP startStoreO repRoot)
  end.

(** [out.sort((a, b) => b.score - a.score)], stable as in [orderMoves]. *)
Fixpoint insertDescScore (x : Z * Score) (l : list (Z * Score)) : list (Z * Score) :=
  match l with
  | [] => [x]
  | y :: l' =>
      if negb (Score_leb (snd y) (snd x)) then y :: insertDescScore x l'
      else x :: y :: l'
  end.

Definition scoreMoves (st : GameState) (rules : Rules) (depth : Z)
    : list (Z * Score) :=
  let moves := getValidMoves st rules in
  let out :=
    omap (λ mv, (λ score, (mv, score)) <$> rootScore st rules depth mv) moves in
  foldr insertDescScore [] out.

(** ** The engine on a store of state objects

    In the source a state is an object that [playMove] and
    [finalizeIfTerminal] receive by reference.  Here state objects live at
    addresses of a store and the engine functions are computations on that
    store.  A state object owns its three arrays: both factories and
    [cloneState] copy ([slice]) the arrays they are given, so no array is
    shared between two state objects, and a cell of the store holds the
    object with its arrays. *)
Module Alias.

Abbreviation Ref := nat.
Abbreviation Heap := (list GameState).

(** A computation that may read and write the store. *)
Definition M (A : Type) : Type := Heap → A * Heap.

#[global] Instance M_ret : MRet M := λ A (a : A) (h : Heap), (a, h).
#[global] Instance M_bind : MBind M :=
  λ A B (k : A → M B) (m : M A) (h : Heap), let '(a, h') := m h in k a h'.

(** A new object: the next free address. *)
Definition alloc (st : GameState) : M Ref := λ h, (length h, h ++ [st]).

(** The object at an address.  Every address the engine follows was given
    to it by the caller or returned by [alloc]; at a dangling address the
    model reads an empty object. *)
Definition read (r : Ref) : M GameState :=
  λ h, (default (mkState [] [] 0 0 Side0 None) (h !! r), h).

(** An assignment to a property or an array cell of the object at [r]. *)
Definition write (r : Ref) (f : GameState → GameState) : M unit :=
  λ h, (tt, alter f r h).

(** [for (const x of l) body(x)] *)
Fixpoint forEach {A} (l : list A) (body : A → M unit) : M unit :=
  match l with
  | [] => mret tt
  | x :: l' => _ ← body x; forEach l' body
  end.

Definition cloneState (st : Ref) : M Ref :=
  s ← read st; alloc (cloneState s).

Definition isTerminal (st : Ref) (rules : Rules) : M bool :=
  s ← read st; mret (isTerminal s rules).

(** Returns [st] itself, not a copy, unless it sweeps. *)
Definition finalizeIfTerminal (st : Ref) (rules : Rules) : M Ref :=
  t ← isTerminal st rules;
  if negb t then mret st
  else if negb (sweepOnGameEnd rules) then mret st
  else
    ns ← cloneState st;
    let n := pitsPerSide rules in
    _ ← forEach [Side0; Side1] (λ side, write ns (λ s, sweepSide n s side));
    mret ns.

Definition sowPath (st : Ref) (rules : Rules) (mover : Side) (pitIndex : Z)
    : M (list Loc) :=
  s ← read st; mret (sowPath s rules mover pitIndex).

Definition playMove (st : Ref) (rules : Rules) (pitIndex : Z)
    : M (PlayResultOf Ref) :=
  let n := pitsPerSide rules in
  s ← read st;
  let mover := toMove s in
  let opp := other mover in
  if (pitIndex <? 0) || (pitIndex >=? n)
  then mret (PlayError "pitIndex out of range")
  else if negb (allowMoveFromEmpty rules) && (pit s mover pitIndex =? 0)
  then mret (PlayError "empty pit")
  else
    path ← sowPath st rules mover pitIndex;
    ns ← cloneState st;
    _ ← write ns (set_pit mover pitIndex 0);
    orig ← read st;
    _ ← forEach path (λ loc, write ns (λ s, dropSeed s loc));
    let last := last path in
    sown ← read ns;
    let captureInfo := snd (captureStep orig rules mover sown last) in
    _ ← write ns (λ s, fst (captureStep orig rules mover s last));
    let extraTurn := extraTurnOf rules mover last in
    _ ← write ns (set_toMove (if extraTurn then mover else opp));
    terminalBeforeSweep ← isTerminal ns rules;
    nsFinal ← finalizeIfTerminal ns rules;
    terminal ← isTerminal nsFinal rules;
    mret (PlayOk (mkResult nsFinal path mover pitIndex extraTurn captureInfo
                    (terminalBeforeSweep || terminal))).

End Alias.

(** ** Vocabulary of the properties *)

Definition sumZ (l : list Z) : Z := foldr Z.add 0 l.

(** All seeds on the board. *)
Definition total (st : GameState) : Z :=
  sumZ (pits0 st) + sumZ (pits1 st) + store0 st + store1 st.

(** What [makeRules] accepts. *)
Definition rules_ok (rules : Rules) : Prop :=
  0 < pitsPerSide rules ∧ 0 ≤ seedsPerPit rules.

(** The data model of a state for given rules: two arrays of [pitsPerSide]
    non-negative counts. *)
Definition sized (rules : Rules) (st : GameState) : Prop :=
  ∀ s, Z.of_nat (length (pits st s)) = pitsPerSide rules.

Definition nonneg (st : GameState) : Prop :=
  ∀ s, Forall (λ x, 0 ≤ x) (pits st s).

Definition wf (rules : Rules) (st : GameState) : Prop :=
  sized rules st ∧ nonneg st.

(** One successful move. *)
Definition step (rules : Rules) (st st' : GameState) : Prop :=
  ∃ pitIndex res, playMove st rules pitIndex = PlayOk res ∧ state res = st'.

(** A play line: each state but the first is the result of a successful
    move on the one before. *)
Inductive play_line (rules : Rules) : list GameState → Prop :=
| line_one st : play_line rules [st]
| line_cons st st' l :
    step rules st st' → play_line rules (st' :: l) → play_line rules (st :: st' :: l).

(** The ring of the specification: position [0..n-1] is the mover's pit of
    that index, position [n] the mover's store, position [n+1..2n] the
    opponent's pit of index [pos - (n+1)]. *)
Definition ringLoc (n : Z) (mover : Side) (pos : Z) : Loc :=
  if pos <? n then LocPit mover pos
  else if pos =? n then LocStore mover
  else LocPit (other mover) (pos - (n + 1)).

(** The number of seeds a path puts into the store of [side]. *)
Definition storeDrops (side : Side) (path : list Loc) : Z :=
  Z.of_nat (length (List.filter
    (λ loc, match loc with LocStore s => Side_eqb s side | _ => false end) path)).

(** Seeds in the two stores, and the pit seeds weighted by their index. *)
Definition inStores (st : GameState) : Z := store0 st + store1 st.

Fixpoint weighted (i : Z) (l : list Z) : Z :=
  match l with
  | [] => 0
  | x :: l' => i * x + weighted (i + 1) l'
  end.

Definition advance (st : GameState) : Z :=
  weighted 0 (pits0 st) + weighted 0 (pits1 st).

(** A location a move of [mover] may write to on a board of [n] pits. *)
Definition loc_ok (n : Z) (mover : Side) (loc : Loc) : Prop :=
  match loc with
  | LocPit _ i => 0 ≤ i < n
  | LocStore s => s = mover
  end.

(** Every pit of side [s] reads zero. *)
Definition sideEmpty (rules : Rules) (st : GameState) (s : Side) : Prop :=
  ∀ i, 0 ≤ i < pitsPerSide rules → pit st s i = 0.

(** The state [finalizeIfTerminal] builds when it sweeps. *)
Definition swept (rules : Rules) (st : GameState) : GameState :=
  let n := pitsPerSide rules in
  mkState (replicate (Z.to_nat n) 0) (replicate (Z.to_nat n) 0)
    (store0 st + sumZ (pits0 st)) (store1 st + sumZ (pits1 st))
    (toMove st) None.

(** What a sweep adds to the store of side [s]. *)
Definition sweptInto (rules : Rules) (st : GameState) (s : Side) : Z :=
  if isTerminal st rules && sweepOnGameEnd rules then sumZ (pits st s) else 0.

(** The state and the descriptor the capture block produces when it fires at
    the mover's pit [i]. *)
Definition captureAt (rules : Rules) (mover : Side) (ns : GameState) (i : Z)
    : GameState * CaptureInfo :=
  let n := pitsPerSide rules in
  let oppI := (n - 1) - i in
  let oppSeeds := pit ns (other mover) oppI in
  (set_store mover (store ns mover + (oppSeeds + 1))
     (set_pit mover i 0 (set_pit (other mover) oppI 0 ns)),
   Captured i oppI (oppSeeds + 1)).

(** The condition under which the capture block fires: [st] is the state
    before the move, [ns] the copy after sowing. *)
Definition captureCond (rules : Rules) (st : GameState) (mover : Side)
    (ns : GameState) (last : option Loc) (i : Z) : Prop :=
  captureRule rules = KALAH ∧ last = Some (LocPit mover i) ∧
  pit st mover i = 0 ∧ pit ns mover i = 1
  ∧ 0 < pit ns (other mover) (pitsPerSide rules - 1 - i).

(** The copy after the sowing loop. *)
Definition sown (rules : Rules) (st : GameState) (p : Z) : GameState :=
  sow (emptied st (toMove st) p) (sowPath st rules (toMove st) p).

(** The copy after the capture block. *)
Definition afterCapture (rules : Rules) (st : GameState) (p : Z) : GameState :=
  (captureStep st rules (toMove st) (sown rules st p)
     (last (sowPath st rules (toMove st) p))).1.

(** The copy with [toMove] assigned, as it is handed to
    [finalizeIfTerminal]. *)
Definition beforeSweep (rules : Rules) (st : GameState) (p : Z) : GameState :=
  set_toMove
    (if extraTurnOf rules (toMove st) (last (sowPath st rules (toMove st) p))
     then toMove st else other (toMove st))
    (afterCapture rules st p).

(** A move passes the two checks of [playMove]. *)
Definition accepted (rules : Rules) (st : GameState) (p : Z) : Prop :=
  0 ≤ p < pitsPerSide rules
  ∧ (allowMoveFromEmpty rules = true ∨ pit st (toMove st) p ≠ 0).

(** The order on states along a play line: more seeds in the stores, or as
    many and the pit seeds further along their rows. *)
Definition ahead (st st' : GameState) : Prop :=
  inStores st < inStores st'
  ∨ (inStores st = inStores st' ∧ advance st < advance st').

(** Two states agree on what the engine keeps in a state: both pit arrays,
    both stores and the side to move. *)
Definition sameState (a b : GameState) : Prop :=
  pits0 a = pits0 b ∧ pits1 a = pits1 b
  ∧ store0 a = store0 b ∧ store1 a = store1 b ∧ toMove a = toMove b.

(** A score that is a number. *)
Definition finite (s : Score) : Prop := ∃ z, s = Fin z.

(** What the root loop of [bestMove] records for one candidate searched with
    the window [(alpha, beta)] at [d - 1] plies. *)
Definition call_ok (st : GameState) (rules : Rules) (d : Z) (sP sO : Z)
    (beta alpha : Score) (c : RootCall) : Prop :=
  call_beta c = beta ∧ call_alpha c = alpha
  ∧ ∃ res, playMove st rules (call_move c) = PlayOk res
      ∧ call_repRoot c = (if extraTurn res then 1 else 0)
      ∧ call_val c = alphabeta (state res) rules (d - 1) alpha beta
                       (toMove st) sP sO (call_repRoot c).

(** The best call of a list: none before it reaches its value, none at all
    exceeds it. *)
Definition first_best (calls : list RootCall) (k : nat) (c : RootCall) : Prop :=
  calls !! k = Some c
  ∧ (∀ j c', calls !! j = Some c' → Score_leb (call_val c') (call_val c) = true)
  ∧ (∀ j c', (j < k)%nat → calls !! j = Some c' →
       Score_leb (call_val c) (call_val c') = false).

(** The order of scores, as propositions. *)
Definition sle (a b : Score) : Prop := Score_leb a b = true.
Definition slt (a b : Score) : Prop := Score_leb b a = false.

(** What a value [v] returned for the window [(alpha, beta)] says about the
    value [t] of the same search without a window: at or below [alpha] it is
    an upper bound, at or above [beta] a lower bound, strictly inside the
    window it is [t]. *)
Definition bracket (alpha beta v t : Score) : Prop :=
  (sle v alpha → sle t v) ∧ (sle beta v → sle v t)
  ∧ (slt alpha v → slt v beta → v = t).

(** The values of the children of a node, in the order of the loop, for a
    search [child] that takes no window. *)
Fixpoint childValues (child : GameState → Z → Score) (st : GameState)
    (rules : Rules) (rootP : Side) (repRoot : Z) (ordered : list Z) : list Score :=
  match ordered with
  | [] => []
  | mv :: ordered' =>
      match playMove st rules mv with
      | PlayError _ => childValues child st rules rootP repRoot ordered'
      | PlayOk res =>
          child (state res) (countRep rootP res repRoot)
          :: childValues child st rules rootP repRoot ordered'
      end
  end.

(** The reference for [alphabeta]: the same recursion with no window and no
    cutoff, every child of every expanded node searched. *)
Fixpoint minimax_plies (d : nat) (st : GameState) (rules : Rules)
    (rootP : Side) (startStoreP startStoreO repRoot : Z) : Score :=
  match d with
  | O => Fin (evalCost st rules rootP startStoreP startStoreO repRoot)
  | S d' =>
      if terminal_truthy st
      then Fin (evalCost st rules rootP startStoreP startStoreO repRoot)
      else
        let moves := getValidMoves st rules in
        if (length moves =? 0)%nat
        then Fin (evalCost st rules rootP startStoreP startStoreO repRoot)
        else
          let ordered := orderMoves st rules moves in
          let vals :=
            childValues
              (λ st' rep2, minimax_plies d' st' rules rootP startStoreP startStoreO rep2)
              st rules rootP repRoot ordered in
          if Side_eqb (toMove st) rootP
          then foldl Score_max NegInf vals
          else foldl Score_min PosInf vals
  end.

(** The score of a root candidate under the full window, with the
    parameters of the root loop. *)
Definition fullOf (st : GameState) (rules : Rules) (d : Z) (sP sO : Z) (mv : Z)
    : option Score :=
  match playMove st rules mv with
  | PlayError _ => None
  | PlayOk res =>
      Some (alphabeta (state res) rules (d - 1) NegInf PosInf (toMove st) sP sO
              (if extraTurn res then 1 else 0))
  end.

(** The number of seeds a path puts into pit [i] of [side]. *)
Definition pitDrops (side : Side) (i : Z) (path : list Loc) : Z :=
  Z.of_nat (length (List.filter
    (λ loc, match loc with
            | LocPit s j => Side_eqb s side && (j =? i)
            | LocStore _ => false
            end) path)).

(** The seeds in the pits of a position. *)
Definition pitSeeds (st : GameState) : Z :=
  sumZ (pits st Side0) + sumZ (pits st Side1).

(** A side as the number the source holds in [toMove]. *)
Definition sideNumber (s : Side) : Z :=
  match s with Side0 => 0 | Side1 => 1 end.

(** The search of [alphabeta] with no window, no cutoff and no move
    ordering: the children are taken in the order of [getValidMoves]. *)
Fixpoint minimax_unordered (d : nat) (st : GameState) (rules : Rules)
    (rootP : Side) (startStoreP startStoreO repRoot : Z) : Score :=
  match d with
  | O => Fin (evalCost st rules rootP startStoreP startStoreO repRoot)
  | S d' =>
      if terminal_truthy st
      then Fin (evalCost st rules rootP startStoreP startStoreO repRoot)
      else
        let moves := getValidMoves st rules in
        if (length moves =? 0)%nat
        then Fin (evalCost st rules rootP startStoreP startStoreO repRoot)
        else
          let vals :=
            childValues
              (λ st' rep2, minimax_unordered d' st' rules rootP startStoreP startStoreO rep2)
              st rules rootP repRoot moves in
          if Side_eqb (toMove st) rootP
          then foldl Score_max NegInf vals
          else foldl Score_min PosInf vals
  end.

(** Two scores are the same number. *)
Definition Score_eqb (a b : Score) : bool := Score_leb a b && Score_leb b a.

(** ** ui.js: the controller

    The page script keeps the game in module-level variables and changes
    them in event handlers.  The model follows it handler by handler.

    - A JavaScript string is the list of its UTF-16 code units.
    - The variables [mode], [state], [vis], [anim], [moves],
      [nextAutoTime], [gameLogged] and [hoverPit] are the fields of
      [UiState]; the requests issued by [logCompletedGameOnce] are
      collected in [ui_sent].  [structuredClone] copies every property of
      a state object, the [terminal] property included, so a clone is the
      same value.  No object is reachable from two variables: [state] and
      the states of [anim] are always clones or results of [playMove].
    - What a handler reads from the page (input fields, the two clocks,
      the pit under the pointer) is an argument: the fields of [Env] and
      the arguments of [Event].  Drawing reads the variables and changes
      none; it is not modelled, and neither are the handlers of the help
      dialog and of the copy button, which change none either.
    - A variable [x] of the script is the field [ui_x]; the properties of
      the objects in [moves], of a parsed step, of [anim] and of a payload
      carry the prefixes [mv_], [step_], [anim_] and [pl_] where the plain
      name is taken by the engine.
    - Time stamps are JavaScript floating-point numbers; the controller
      only compares and adds them, and the model is parametric in a
      [Clock] that provides these operations. *)
Module Ui.

Abbreviation JsString := (list Z).

(** An ASCII string literal. *)
Definition lit (s : string) : JsString :=
  (λ a, Z.of_nat (Ascii.nat_of_ascii a)) <$> String.list_ascii_of_string s.

Inductive Mode := HvAI | AIvH | HvH | AIvAI.

Definition Mode_eqb (a b : Mode) : bool :=
  match a, b with
  | HvAI, HvAI | AIvH, AIvH | HvH, HvH | AIvAI, AIvAI => true
  | _, _ => false
  end.

Definition nextMode (m : Mode) : Mode :=
  match m with
  | HvAI => AIvH
  | AIvH => HvH
  | HvH => AIvAI
  | AIvAI => HvAI
  end.

(** [makeRules({ pitsPerSide: 6, seedsPerPit: 4 })], the other options at
    their defaults. *)
Definition rules : Rules := mkRules 6 4 true true KALAH false.

(** An entry [{ mover, pitIndex }] of [moves]. *)
Record Move := mkMove {
  mv_mover : Side;
  mv_pitIndex : Z;
}.

(** An entry [{ side, pitIndex }] of a parsed move string. *)
Record Step := mkStep {
  step_side : Side;
  step_pitIndex : Z;
}.

(** *** Move strings *)

(** [String.fromCharCode] keeps the low 16 bits of its argument. *)
Definition letterForMove (mover : Side) (pitIndex : Z) : JsString :=
  [((match mover with Side0 => 97 | Side1 => 65 end) + pitIndex) mod 65536].

(** [movesArr.map(...).join("")] *)
Definition movesToString (movesArr : list Move) : JsString :=
  concat ((λ m, letterForMove (mv_mover m) (mv_pitIndex m)) <$> movesArr).

(** The code units matched by [\s], which are also those removed by
    [trim]: white space and line terminators. *)
Definition isSpace (u : Z) : bool :=
  ((9 <=? u) && (u <=? 13)) || (u =? 32) || (u =? 160) || (u =? 5760)
  || ((8192 <=? u) && (u <=? 8202)) || (u =? 8232) || (u =? 8233)
  || (u =? 8239) || (u =? 8287) || (u =? 12288) || (u =? 65279).

Fixpoint trimStart (s : JsString) : JsString :=
  match s with
  | [] => []
  | u :: s' => if isSpace u then trimStart s' else s
  end.

Definition trim (s : JsString) : JsString :=
  rev (trimStart (rev (trimStart s))).

Definition isHighSurrogate (u : Z) : bool := (55296 <=? u) && (u <=? 56319).
Definition isLowSurrogate (u : Z) : bool := (56320 <=? u) && (u <=? 57343).

(** The strings a [for (const ch of s)] loop visits: one per code point, a
    surrogate pair being one string of two code units. *)
Fixpoint codePoints (s : JsString) : list JsString :=
  match s with
  | [] => []
  | u :: s' =>
      match s' with
      | l :: s'' =>
          if isHighSurrogate u && isLowSurrogate l
          then [u; l] :: codePoints s''
          else [u] :: codePoints s'
      | [] => [[u]]
      end
  end.

(** [a < b] on strings: the order of the code units, a proper prefix being
    smaller. *)
Fixpoint str_ltb (a b : JsString) : bool :=
  match a, b with
  | _, [] => false
  | [], _ :: _ => true
  | x :: a', y :: b' =>
      if x <? y then true else if y <? x then false else str_ltb a' b'
  end.

(** [a <= b] and [a >= b] on strings *)
Definition str_leb (a b : JsString) : bool := negb (str_ltb b a).
Definition str_geb (a b : JsString) : bool := negb (str_ltb a b).

(** [ch.charCodeAt(0)] of a non-empty string *)
Definition charCodeAt0 (ch : JsString) : Z := default 0 (head ch).

(** The loop of [parseMoveString] over the characters still to read. *)
Fixpoint parseLoop (chars : list JsString) (out : list Step)
    : JsString + list Step :=
  match chars with
  | [] => inr out
  | ch :: chars' =>
      if str_geb ch (lit "a") && str_leb ch (lit "z")
      then parseLoop chars' (out ++ [mkStep Side0 (charCodeAt0 ch - 97)])
      else if str_geb ch (lit "A") && str_leb ch (lit "Z")
      then parseLoop chars' (out ++ [mkStep Side1 (charCodeAt0 ch - 65)])
      else if negb (existsb isSpace ch)
      then inl (lit "Invalid character: '" ++ ch ++ lit "'")
      else parseLoop chars' out
  end.

(** [parseMoveString]; [None] is an argument that is [null] or
    [undefined]. *)
Definition parseMoveString (s : option JsString) : JsString + list Step :=
  parseLoop (codePoints (trim (default [] s))) [].

(** *** The variables of the page *)

Class Clock := mkClock {
  Time : Type;
  time_zero : Time;
  time_ltb : Time → Time → bool;
  time_geb : Time → Time → bool;
  time_add : Time → Time → Time;
}.

(** A clock of whole milliseconds. *)
Definition msClock : Clock := mkClock Z 0 Z.ltb Z.geb Z.add.

Section Controller.
Context {clock : Clock}.

(** The object held by [anim] while a move is shown. *)
Record Anim := mkAnim {
  anim_mover : Side;
  anim_pitIndex : Z;
  startState : GameState;
  endState : GameState;
  anim_path : list Loc;
  idx : nat;
  stepDelayMs : Time;
  nextTime : Time;
  lastDrop : option Loc;
}.

(** The object built by [currentGamePayload]. *)
Record Payload := mkPayload {
  pl_mode : Mode;
  pl_depth : option Z;
  pl_moves : JsString;
  pl_plies : Z;
  pl_finalStore0 : Z;
  pl_finalStore1 : Z;
  pl_ts : Z;
}.

Record UiState := mkUi {
  ui_mode : Mode;
  ui_state : GameState;
  ui_vis : GameState;
  ui_anim : option Anim;
  ui_moves : list Move;
  ui_nextAutoTime : Time;
  ui_gameLogged : bool;
  ui_hoverPit : option (Side * Z);
  ui_sent : list Payload;
}.

(** What the handlers read from the page: [performance.now()],
    [Date.now()], the value of [parseInt(el.value, 10) || 6] for the three
    depth fields, the step delay in milliseconds computed from the
    animation-delay field, the auto-play check box and its delay in
    milliseconds. *)
Record Env := mkEnv {
  perfNow : Time;
  dateNow : Z;
  depthValue : Z;
  depthP0Value : Z;
  depthP1Value : Z;
  animDelayMs : Time;
  autoAiChecked : bool;
  autoDelayMs : Time;
}.

Definition set_mode (m : Mode) (ui : UiState) : UiState :=
  mkUi m (ui_state ui) (ui_vis ui) (ui_anim ui) (ui_moves ui)
    (ui_nextAutoTime ui) (ui_gameLogged ui) (ui_hoverPit ui) (ui_sent ui).

Definition set_state (st : GameState) (ui : UiState) : UiState :=
  mkUi (ui_mode ui) st (ui_vis ui) (ui_anim ui) (ui_moves ui)
    (ui_nextAutoTime ui) (ui_gameLogged ui) (ui_hoverPit ui) (ui_sent ui).

Definition set_vis (st : GameState) (ui : UiState) : UiState :=
  mkUi (ui_mode ui) (ui_state ui) st (ui_anim ui) (ui_moves ui)
    (ui_nextAutoTime ui) (ui_gameLogged ui) (ui_hoverPit ui) (ui_sent ui).

Definition set_anim (a : option Anim) (ui : UiState) : UiState :=
  mkUi (ui_mode ui) (ui_state ui) (ui_vis ui) a (ui_moves ui)
    (ui_nextAutoTime ui) (ui_gameLogged ui) (ui_hoverPit ui) (ui_sent ui).

Definition set_moves (ms : list Move) (ui : UiState) : UiState :=
  mkUi (ui_mode ui) (ui_state ui) (ui_vis ui) (ui_anim ui) ms
    (ui_nextAutoTime ui) (ui_gameLogged ui) (ui_hoverPit ui) (ui_sent ui).

Definition set_nextAutoTime (t : Time) (ui : UiState) : UiState :=
  mkUi (ui_mode ui) (ui_state ui) (ui_vis ui) (ui_anim ui) (ui_moves ui)
    t (ui_gameLogged ui) (ui_hoverPit ui) (ui_sent ui).

Definition set_gameLogged (b : bool) (ui : UiState) : UiState :=
  mkUi (ui_mode ui) (ui_state ui) (ui_vis ui) (ui_anim ui) (ui_moves ui)
    (ui_nextAutoTime ui) b (ui_hoverPit ui) (ui_sent ui).

Definition set_hoverPit (h : option (Side * Z)) (ui : UiState) : UiState :=
  mkUi (ui_mode ui) (ui_state ui) (ui_vis ui) (ui_anim ui) (ui_moves ui)
    (ui_nextAutoTime ui) (ui_gameLogged ui) h (ui_sent ui).

Definition send (p : Payload) (ui : UiState) : UiState :=
  mkUi (ui_mode ui) (ui_state ui) (ui_vis ui) (ui_anim ui) (ui_moves ui)
    (ui_nextAutoTime ui) (ui_gameLogged ui) (ui_hoverPit ui) (ui_sent ui ++ [p]).

(** [st.terminal = b] *)
Definition set_terminal (b : bool) (st : GameState) : GameState :=
  mkState (pits0 st) (pits1 st) (store0 st) (store1 st) (toMove st) (Some b).

(** *** Helpers *)

(** [anim] read as a condition *)
Definition animating (ui : UiState) : bool :=
  match ui_anim ui with Some _ => true | None => false end.

Definition isAiGame (ui : UiState) : bool :=
  Mode_eqb (ui_mode ui) HvAI || Mode_eqb (ui_mode ui) AIvH.

Definition aiSide (ui : UiState) : Z :=
  if Mode_eqb (ui_mode ui) HvAI then 1
  else if Mode_eqb (ui_mode ui) AIvH then 0
  else -1.

Definition isHumansTurn (ui : UiState) : bool :=
  if Mode_eqb (ui_mode ui) HvH then true
  else if Mode_eqb (ui_mode ui) AIvAI then false
  else negb (sideNumber (toMove (ui_state ui)) =? aiSide ui).

Definition currentAiDepth (env : Env) (ui : UiState) : Z :=
  if negb (Mode_eqb (ui_mode ui) AIvAI) then depthValue env
  else if sideNumber (toMove (ui_state ui)) =? 0 then depthP0Value env
  else depthP1Value env.

(** *** Rendering and logging *)

Definition updateTerminalFlag (ui : UiState) : UiState :=
  let anyMoves := (0 <? length (getValidMoves (ui_state ui) rules))%nat in
  let ui := set_state (set_terminal (negb anyMoves) (ui_state ui)) ui in
  set_vis (set_terminal (terminal_truthy (ui_state ui)) (ui_vis ui)) ui.

Definition currentGamePayload (env : Env) (ui : UiState) : option Payload :=
  let moveString := movesToString (ui_moves ui) in
  let m := ui_mode ui in
  if Mode_eqb m AIvAI then None
  else if (length moveString =? 0)%nat then None
  else
    let depth :=
      if Mode_eqb m HvAI || Mode_eqb m AIvH then Some (depthValue env) else None in
    Some (mkPayload m depth moveString (Z.of_nat (length (ui_moves ui)))
            (store (ui_state ui) Side0) (store (ui_state ui) Side1) (dateNow env)).

(** [logCompletedGameOnce], up to the request it issues ([sendBeacon], or
    [fetch] where that is missing). *)
Definition logCompletedGameOnce (env : Env) (ui : UiState) : UiState :=
  if ui_gameLogged ui then ui
  else if negb (terminal_truthy (ui_state ui)) then ui
  else
    match currentGamePayload env ui with
    | None => ui
    | Some payload => send payload (set_gameLogged true ui)
    end.

Definition renderAll (env : Env) (ui : UiState) : UiState :=
  logCompletedGameOnce env (updateTerminalFlag ui).

(** *** New game, replay and undo *)

Definition resetGame (env : Env) (ui : UiState) : UiState :=
  let ui := set_gameLogged false ui in
  let ui := set_state (initStandard rules 0) ui in
  let ui := set_vis (ui_state ui) ui in
  let ui := set_anim None ui in
  let ui := set_moves [] ui in
  let ui := set_nextAutoTime (perfNow env) ui in
  renderAll env ui.

(** The loop of [replayFromStart]. *)
Fixpoint replayLoop (st : GameState) (ms : list Move) : GameState :=
  match ms with
  | [] => st
  | m :: ms' =>
      match playMove st rules (mv_pitIndex m) with
      | PlayError _ => st
      | PlayOk res => replayLoop (state res) ms'
      end
  end.

Definition replayFromStart (ui : UiState) : UiState :=
  let st := replayLoop (initStandard rules 0) (ui_moves ui) in
  let ui := set_state st ui in
  let ui := set_vis (ui_state ui) ui in
  set_anim None ui.

(** [moves.pop()] *)
Definition popMove (ui : UiState) : UiState :=
  set_moves (removelast (ui_moves ui)) ui.

Definition undoOne (env : Env) (ui : UiState) : UiState :=
  if animating ui then ui
  else if (length (ui_moves ui) =? 0)%nat then ui
  else
    let ui := replayFromStart (popMove ui) in
    let ui := if negb (terminal_truthy (ui_state ui))
              then set_gameLogged false ui else ui in
    renderAll env ui.

(** The [while] loop of [undoToHumanTurn]; every round removes a move, so
    [length moves] rounds are enough. *)
Fixpoint undoWhileAi (rounds : nat) (ui : UiState) : UiState :=
  match rounds with
  | O => ui
  | S rounds' =>
      if (0 <? length (ui_moves ui))%nat
         && (sideNumber (toMove (ui_state ui)) =? aiSide ui)
      then undoWhileAi rounds' (replayFromStart (popMove ui))
      else ui
  end.

Definition undoToHumanTurn (env : Env) (ui : UiState) : UiState :=
  if animating ui then ui
  else if negb (isAiGame ui) then undoOne env ui
  else if (length (ui_moves ui) =? 0)%nat then ui
  else
    let ui := replayFromStart (popMove ui) in
    let ui := undoWhileAi (length (ui_moves ui)) ui in
    renderAll env ui.

(** *** Showing a move *)

Definition startAnimationForMove (env : Env) (pitIndex : Z) (ui : UiState)
    : bool * UiState :=
  let mover := toMove (ui_state ui) in
  match playMove (ui_state ui) rules pitIndex with
  | PlayError _ => (false, ui)
  | PlayOk res =>
      let a := mkAnim mover pitIndex (ui_state ui) (state res) (path res) 0
                 (animDelayMs env) (perfNow env) None in
      let ui := set_anim (Some a) ui in
      let ui := set_vis (set_pit mover pitIndex 0 (ui_state ui)) ui in
      let ui := set_moves (ui_moves ui ++ [mkMove mover pitIndex]) ui in
      (true, ui)
  end.

Definition tickAnimation (env : Env) (now : Time) (ui : UiState) : UiState :=
  match ui_anim ui with
  | None => ui
  | Some a =>
      if time_ltb now (nextTime a) then ui
      else
        match anim_path a !! idx a with
        | Some loc =>
            let ui := set_vis (dropSeed (ui_vis ui) loc) ui in
            let a := mkAnim (anim_mover a) (anim_pitIndex a) (startState a)
                       (endState a) (anim_path a) (S (idx a)) (stepDelayMs a)
                       (time_add now (stepDelayMs a)) (Some loc) in
            renderAll env (set_anim (Some a) ui)
        | None =>
            let ui := set_state (endState a) ui in
            let ui := set_vis (ui_state ui) ui in
            let ui := set_anim None ui in
            renderAll env ui
        end
  end.

Definition doAiMove (env : Env) (ui : UiState) : UiState :=
  if animating ui then ui
  else if terminal_truthy (ui_state ui) then ui
  else
    let depth := currentAiDepth env ui in
    let r := bestMove (ui_state ui) rules depth in
    if negb (hasMove r) then ui
    else renderAll env (snd (startAnimationForMove env (move r) ui)).

(** *** Loading a move string *)

(** The [for (const step of parsed.moves)] loop of [loadMovesFromString],
    with what follows it. *)
Fixpoint loadLoop (env : Env) (steps : list Step) (ui : UiState)
    : (JsString + unit) * UiState :=
  match steps with
  | [] => (inr tt, renderAll env ui)
  | step :: steps' =>
      let letter := letterForMove (step_side step) (step_pitIndex step) in
      if negb (Side_eqb (toMove (ui_state ui)) (step_side step))
      then (inl (lit "Turn mismatch at '" ++ letter ++ lit "' (expected P"
                 ++ (match toMove (ui_state ui) with
                     | Side0 => lit "0"
                     | Side1 => lit "1"
                     end) ++ lit ")"), ui)
      else if (step_pitIndex step <? 0) || (step_pitIndex step >=? pitsPerSide rules)
      then (inl (lit "Pit out of range in move '" ++ letter ++ lit "'"), ui)
      else
        match playMove (ui_state ui) rules (step_pitIndex step) with
        | PlayError _ => (inl (lit "Illegal move '" ++ letter ++ lit "'"), ui)
        | PlayOk res =>
            let ui :=
              set_moves (ui_moves ui ++ [mkMove (step_side step) (step_pitIndex step)])
                ui in
            let ui := set_state (state res) ui in
            let ui := set_vis (ui_state ui) ui in
            if terminal_truthy (ui_state ui) then (inr tt, renderAll env ui)
            else loadLoop env steps' ui
        end
  end.

Definition loadMovesFromString (env : Env) (s : JsString) (ui : UiState)
    : (JsString + unit) * UiState :=
  if animating ui then (inl (lit "Cannot load while animating"), ui)
  else
    let ui := set_gameLogged false ui in
    match parseMoveString (Some s) with
    | inl error => (inl error, ui)
    | inr steps =>
        let ui := set_state (initStandard rules 0) ui in
        let ui := set_vis (ui_state ui) ui in
        let ui := set_anim None ui in
        let ui := set_moves [] ui in
        loadLoop env steps ui
    end.

(** *** Event handlers *)

(** The events of the page.  [hit] is the result of [pickPitFromPoint],
    [answer] that of [prompt], [now] the time stamp of the frame. *)
Inductive Event :=
| CanvasClick (hit : option (Side * Z))
| MouseMove (hit : option (Side * Z))
| MouseLeave
| NewGameClick
| ModeClick
| UndoMoveClick
| UndoTurnClick
| AiMoveClick
| StepAiClick
| LoadMovesClick (answer : option JsString)
| Resize
| Frame (now : Time).

Definition pickPitFromClick (hit : option (Side * Z)) (ui : UiState) : option Z :=
  match hit with
  | None => None
  | Some (side, i) =>
      if negb (Side_eqb side (toMove (ui_state ui))) then None else Some i
  end.

Definition onCanvasClick (env : Env) (hit : option (Side * Z)) (ui : UiState)
    : UiState :=
  if animating ui then ui
  else if negb (isHumansTurn ui) then ui
  else if terminal_truthy (ui_state ui) then ui
  else
    match pickPitFromClick hit ui with
    | None => ui
    | Some pit_ =>
        let seeds := pit (ui_state ui) (toMove (ui_state ui)) pit_ in
        if seeds =? 0 then ui
        else renderAll env (snd (startAnimationForMove env pit_ ui))
    end.

(** [if (hoverPit !== null) { hoverPit = null; renderAll(); }] *)
Definition clearHover (env : Env) (ui : UiState) : UiState :=
  match ui_hoverPit ui with
  | None => ui
  | Some _ => renderAll env (set_hoverPit None ui)
  end.

Definition onMouseMove (env : Env) (hit : option (Side * Z)) (ui : UiState)
    : UiState :=
  if animating ui || terminal_truthy (ui_state ui)
  then clearHover env ui
  else
    match hit with
    | None => clearHover env ui
    | Some (side, i) =>
        if negb (isHumansTurn ui) || negb (Side_eqb side (toMove (ui_state ui)))
        then clearHover env ui
        else
          let seeds := pit (ui_state ui) side i in
          let nextHover := if seeds >? 0 then Some (side, i) else None in
          let changed :=
            match ui_hoverPit ui, nextHover with
            | None, Some _ | Some _, None => true
            | Some (s1, i1), Some (s2, i2) =>
                negb (Side_eqb s1 s2) || negb (i1 =? i2)
            | None, None => false
            end in
          let ui := set_hoverPit nextHover ui in
          if changed then renderAll env ui else ui
    end.

Definition onMouseLeave (env : Env) (ui : UiState) : UiState :=
  renderAll env (set_hoverPit None ui).

Definition onNewGame (env : Env) (ui : UiState) : UiState :=
  if animating ui then ui else resetGame env ui.

Definition onMode (env : Env) (ui : UiState) : UiState :=
  if animating ui then ui
  else resetGame env (set_mode (nextMode (ui_mode ui)) ui).

Definition onAiMove (env : Env) (ui : UiState) : UiState :=
  if Mode_eqb (ui_mode ui) HvH then ui
  else if Mode_eqb (ui_mode ui) AIvAI then ui
  else if animating ui then ui
  else if negb (sideNumber (toMove (ui_state ui)) =? aiSide ui) then ui
  else renderAll env (doAiMove env ui).

Definition onStepAi (env : Env) (ui : UiState) : UiState :=
  if negb (Mode_eqb (ui_mode ui) AIvAI) then ui
  else if animating ui then ui
  else if terminal_truthy (ui_state ui) then ui
  else renderAll env (doAiMove env ui).

Definition onLoadMoves (env : Env) (answer : option JsString) (ui : UiState)
    : UiState :=
  if animating ui then ui
  else
    match answer with
    | None => ui
    | Some s => snd (loadMovesFromString env s ui)
    end.

(** [loop(now)], one animation frame. *)
Definition loop (env : Env) (now : Time) (ui : UiState) : UiState :=
  let ui := tickAnimation env now ui in
  if negb (animating ui) && negb (terminal_truthy (ui_state ui))
  then
    let ui :=
      if isAiGame ui && (sideNumber (toMove (ui_state ui)) =? aiSide ui)
      then doAiMove env ui else ui in
    if Mode_eqb (ui_mode ui) AIvAI && autoAiChecked env
    then
      if time_geb now (ui_nextAutoTime ui)
      then set_nextAutoTime (time_add now (autoDelayMs env)) (doAiMove env ui)
      else ui
    else ui
  else ui.

Definition handle (env : Env) (e : Event) (ui : UiState) : UiState :=
  match e with
  | CanvasClick hit => onCanvasClick env hit ui
  | MouseMove hit => onMouseMove env hit ui
  | MouseLeave => onMouseLeave env ui
  | NewGameClick => onNewGame env ui
  | ModeClick => onMode env ui
  | UndoMoveClick => undoOne env ui
  | UndoTurnClick => undoToHumanTurn env ui
  | AiMoveClick => onAiMove env ui
  | StepAiClick => onStepAi env ui
  | LoadMovesClick answer => onLoadMoves env answer ui
  | Resize => renderAll env ui
  | Frame now => loop env now ui
  end.

(** The variables as the script initialises them, and the page after
    [init()]. *)
Definition loaded : UiState :=
  mkUi HvAI (initStandard rules 0) (initStandard rules 0) None [] time_zero
    false None [].

Definition init (env : Env) : UiState := resetGame env loaded.

(** The page after a sequence of events, each with what the page reads
    while it is handled. *)
Definition run (env0 : Env) (events : list (Env * Event)) : UiState :=
  foldl (λ ui '(env, e), handle env e ui) (init env0) events.

End Controller.

End Ui.

(** ** Vocabulary of the page *)

(** A code unit that is a move letter, [a]-[z] or [A]-[Z]. *)
Definition isLetter (u : Z) : bool :=
  ((97 <=? u) && (u <=? 122)) || ((65 <=? u) && (u <=? 90)).

(** The step a move letter stands for. *)
Definition stepOfLetter (u : Z) : Ui.Step :=
  if 97 <=? u then Ui.mkStep Side0 (u - 97) else Ui.mkStep Side1 (u - 65).

(** The entry of the history as [parseMoveString] returns it. *)
Definition stepOfMove (m : Ui.Move) : Ui.Step :=
  Ui.mkStep (Ui.mv_mover m) (Ui.mv_pitIndex m).

(** A code unit the loop of [parseMoveString] passes over: a letter or
    white space. *)
Definition parseOk (u : Z) : bool := isLetter u || Ui.isSpace u.

(** The opening position of the page. *)
Definition opening : GameState := initStandard Ui.rules 0.

(** The position a game record leads to from [st]; every entry has to name
    the side to move and a pit that [playMove] accepts. *)
Fixpoint recordEnd (st : GameState) (ms : list Ui.Move) : option GameState :=
  match ms with
  | [] => Some st
  | m :: ms' =>
      if Side_eqb (Ui.mv_mover m) (toMove st) then
        match playMove st Ui.rules (Ui.mv_pitIndex m) with
        | PlayOk res => recordEnd (state res) ms'
        | PlayError _ => None
        end
      else None
  end.

(** A position in which the game is over only with every pit empty. *)
Definition settled (rules : Rules) (st : GameState) : Prop :=
  isTerminal st rules = true → ∀ s, sideEmpty rules st s.

(** A position of a game on the page. *)
Definition inPlay (st : GameState) : Prop :=
  wf Ui.rules st ∧ total st = 48 ∧ settled Ui.rules st.

(** A payload that describes a finished game of the page. *)
Definition payload_ok (p : Ui.Payload) : Prop :=
  ∃ ms st,
    Ui.pl_moves p = Ui.movesToString ms ∧ ms ≠ []
    ∧ recordEnd opening ms = Some st ∧ isTerminal st Ui.rules = true
    ∧ Ui.pl_plies p = Z.of_nat (length ms)
    ∧ Ui.pl_finalStore0 p = store st Side0
    ∧ Ui.pl_finalStore1 p = store st Side1
    ∧ Ui.pl_mode p ≠ Ui.AIvAI.

(** What [anim] and [vis] hold while a move made in position [st] is
    shown: the result of the move, and the board with the seeds dropped so
    far. *)
Definition showing {clock : Ui.Clock} (st vis : GameState) (a : Ui.Anim) : Prop :=
  Ui.anim_mover a = toMove st
  ∧ sameState (Ui.startState a) st
  ∧ (Ui.idx a ≤ length (Ui.anim_path a))%nat
  ∧ sameState vis
      (sow (emptied st (toMove st) (Ui.anim_pitIndex a))
         (take (Ui.idx a) (Ui.anim_path a)))
  ∧ ∃ res, playMove st Ui.rules (Ui.anim_pitIndex a) = PlayOk res
      ∧ Ui.endState a = state res ∧ Ui.anim_path a = path res.

(** The variables of the page fit together: [moves] is the record of a
    game from the opening; [state] is the position it leads to or, while
    its last move is shown, the position before that move; the [terminal]
    property of [state], when set, is right; every request sent describes
    a finished game. *)
Definition coherent {clock : Ui.Clock} (ui : Ui.UiState) : Prop :=
  (∃ st0,
     sameState (Ui.ui_state ui) st0
     ∧ match Ui.ui_anim ui with
       | None =>
           recordEnd opening (Ui.ui_moves ui) = Some st0
           ∧ sameState (Ui.ui_vis ui) (Ui.ui_state ui)
       | Some a =>
           Ui.ui_moves ui
           = removelast (Ui.ui_moves ui)
             ++ [Ui.mkMove (Ui.anim_mover a) (Ui.anim_pitIndex a)]
           ∧ recordEnd opening (removelast (Ui.ui_moves ui)) = Some st0
           ∧ showing (Ui.ui_state ui) (Ui.ui_vis ui) a
       end)
  ∧ (∀ b, terminal_prop (Ui.ui_state ui) = Some b →
          b = isTerminal (Ui.ui_state ui) Ui.rules)
  ∧ Forall payload_ok (Ui.ui_sent ui).

(** The entry of the history that a parsed step becomes. *)
Definition moveOfStep (s : Ui.Step) : Ui.Move :=
  Ui.mkMove (Ui.step_side s) (Ui.step_pitIndex s).

(** The message [loadMovesFromString] returns for a step it cannot play in
    position [st]. *)
Definition loadError (st : GameState) (step : Ui.Step) : Ui.JsString :=
  let letter := Ui.letterForMove (Ui.step_side step) (Ui.step_pitIndex step) in
  if negb (Side_eqb (toMove st) (Ui.step_side step))
  then Ui.lit "Turn mismatch at '" ++ letter ++ Ui.lit "' (expected P"
       ++ (match toMove st with Side0 => Ui.lit "0" | Side1 => Ui.lit "1" end)
       ++ Ui.lit ")"
  else if (Ui.step_pitIndex step <? 0) || (Ui.step_pitIndex step >=? 6)
  then Ui.lit "Pit out of range in move '" ++ letter ++ Ui.lit "'"
  else Ui.lit "Illegal move '" ++ letter ++ Ui.lit "'".

(** ** Basic facts: sides, arrays, states *)

Lemma Side_eqb_eq a b : Side_eqb a b = true ↔ a = b.
Proof. destruct a, b; simpl; split; congruence. Qed.

Lemma Side_eqb_refl a : Side_eqb a a = true.
Proof. by destruct a. Qed.

Lemma Side_eqb_other a : Side_eqb (other a) a = false.
Proof. by destruct a. Qed.

Lemma other_neq a : other a ≠ a.
Proof. by destruct a. Qed.

Lemma makeRules_ok n s e w c a rules :
  makeRules n s e w c a = inr rules → rules_ok rules.
Proof.
  unfold makeRules, rules_ok.
  destruct (Z.leb_spec n 0); [done|].
  destruct (Z.ltb_spec s 0); [done|].
  intros [= <-]; simpl; lia.
Qed.

Lemma sumZ_app l1 l2 : sumZ (l1 ++ l2) = sumZ l1 + sumZ l2.
Proof. induction l1 as [|x l1 IH]; simpl; lia. Qed.

Lemma sumZ_replicate k x : sumZ (replicate k x) = Z.of_nat k * x.
Proof. induction k as [|k IH]; simpl; lia. Qed.

Lemma sumZ_insert (l : list Z) i v x :
  l !! i = Some x → sumZ (<[i:=v]> l) = sumZ l - x + v.
Proof.
  revert i; induction l as [|y l IH]; intros [|i]; simpl; try done.
  - intros [= ->]; lia.
  - intros H; rewrite (IH _ H); lia.
Qed.

Lemma sumZ_nonneg l : Forall (λ x, 0 ≤ x) l → 0 ≤ sumZ l.
Proof. induction 1; simpl; lia. Qed.

Lemma sumZ_zero l :
  Forall (λ x, 0 ≤ x) l → sumZ l = 0 → l = replicate (length l) 0.
Proof.
  induction 1 as [|x l Hx Hl IH]; simpl; [done|].
  intros Hs. pose proof (sumZ_nonneg l Hl).
  assert (x = 0) as -> by lia. f_equal. apply IH. lia.
Qed.

Lemma weighted_app i l1 l2 :
  weighted i (l1 ++ l2) = weighted i l1 + weighted (i + Z.of_nat (length l1)) l2.
Proof.
  revert i; induction l1 as [|x l1 IH]; intros i; simpl.
  - by rewrite Z.add_0_r.
  - rewrite IH, Nat2Z.inj_succ.
    replace (i + 1 + Z.of_nat (length l1)) with (i + Z.succ (Z.of_nat (length l1))) by lia.
    lia.
Qed.

Lemma weighted_insert (l : list Z) k i v x :
  l !! i = Some x →
  weighted k (<[i:=v]> l) = weighted k l + (k + Z.of_nat i) * (v - x).
Proof.
  revert k i; induction l as [|y l IH]; intros k [|i]; simpl; try done.
  - intros [= ->]; lia.
  - intros H; rewrite (IH _ _ H); lia.
Qed.

Lemma weighted_replicate_0 k i : weighted i (replicate k 0) = 0.
Proof. revert i; induction k as [|k IH]; intros i; simpl; [done|]. rewrite IH; lia. Qed.

Section StateFacts.
Implicit Types (st : GameState) (s : Side).

Lemma pits_set_pits s s' l st :
  pits (set_pits s l st) s' = if Side_eqb s s' then l else pits st s'.
Proof. by destruct s, s'. Qed.

Lemma store_set_pits s s' l st : store (set_pits s l st) s' = store st s'.
Proof. by destruct s, s'. Qed.

Lemma pits_set_store s s' v st : pits (set_store s v st) s' = pits st s'.
Proof. by destruct s, s'. Qed.

Lemma store_set_store s s' v st :
  store (set_store s v st) s' = if Side_eqb s s' then v else store st s'.
Proof. by destruct s, s'. Qed.

Lemma pits_set_pit s s' i v st :
  pits (set_pit s i v st) s' =
  if Side_eqb s s' then <[Z.to_nat i := v]> (pits st s') else pits st s'.
Proof. by destruct s, s'. Qed.

Lemma store_set_pit s s' i v st : store (set_pit s i v st) s' = store st s'.
Proof. by destruct s, s'. Qed.

Lemma toMove_set_pit s i v st : toMove (set_pit s i v st) = toMove st.
Proof. by destruct s. Qed.

Lemma toMove_set_store s v st : toMove (set_store s v st) = toMove st.
Proof. by destruct s. Qed.

Lemma pits_set_toMove p st s : pits (set_toMove p st) s = pits st s.
Proof. by destruct s. Qed.

Lemma store_set_toMove p st s : store (set_toMove p st) s = store st s.
Proof. by destruct s. Qed.

Lemma pits_cloneState st s : pits (cloneState st) s = pits st s.
Proof. by destruct s. Qed.

Lemma store_cloneState st s : store (cloneState st) s = store st s.
Proof. by destruct s. Qed.

Lemma pit_ext st st' s i : pits st s = pits st' s → pit st s i = pit st' s i.
Proof. unfold pit. by intros ->. Qed.

Lemma total_eq st :
  total st = sumZ (pits st Side0) + sumZ (pits st Side1)
             + store st Side0 + store st Side1.
Proof. done. Qed.

Lemma inStores_eq st : inStores st = store st Side0 + store st Side1.
Proof. done. Qed.

Lemma advance_eq st :
  advance st = weighted 0 (pits st Side0) + weighted 0 (pits st Side1).
Proof. done. Qed.

(** A state is determined by its five engine properties and the optional
    one. *)
Lemma state_ext st st' :
  (∀ s, pits st s = pits st' s) → (∀ s, store st s = store st' s) →
  toMove st = toMove st' → terminal_prop st = terminal_prop st' → st = st'.
Proof.
  destruct st, st'; intros Hp Hs; simpl.
  pose proof (Hp Side0); pose proof (Hp Side1).
  pose proof (Hs Side0); pose proof (Hs Side1).
  simpl in *; congruence.
Qed.

Lemma pit_lookup st s i x :
  pits st s !! Z.to_nat i = Some x → pit st s i = x.
Proof. unfold pit. by intros ->. Qed.

Lemma pit_in_range st s i :
  0 ≤ i < Z.of_nat (length (pits st s)) →
  pits st s !! Z.to_nat i = Some (pit st s i).
Proof.
  intros Hi. unfold pit.
  destruct (lookup_lt_is_Some_2 (pits st s) (Z.to_nat i)) as [x ->]; [lia|done].
Qed.

Lemma pit_nonneg rules st s i : wf rules st → 0 ≤ pit st s i.
Proof.
  intros [_ Hnn]. unfold pit.
  destruct (pits st s !! Z.to_nat i) as [x|] eqn:E; simpl; [|done].
  by apply (Forall_lookup_1 _ _ _ _ (Hnn s) E).
Qed.
End StateFacts.

(** ** The ring and the sowing path *)

Lemma range_lookup n k :
  (k < Z.to_nat n)%nat → range n !! k = Some (Z.of_nat k).
Proof.
  intros Hk. unfold range. rewrite list_lookup_fmap, lookup_seq_lt; done.
Qed.

Lemma range_length n : length (range n) = Z.to_nat n.
Proof. unfold range. by rewrite length_fmap, length_seq. Qed.

Lemma range_succ k :
  Z.of_nat <$> seq 0 (S k) = (Z.of_nat <$> seq 0 k) ++ [Z.of_nat k].
Proof. by rewrite seq_S, fmap_app. Qed.

Lemma elem_of_range n i : i ∈ range n ↔ 0 ≤ i < n.
Proof.
  unfold range. rewrite list_elem_of_fmap. split.
  - intros (k & -> & Hk). apply elem_of_seq in Hk. lia.
  - intros Hi. exists (Z.to_nat i). split; [lia|]. apply elem_of_seq. lia.
Qed.

Lemma ringLoc_ok n mover pos : 0 ≤ pos ≤ 2 * n → loc_ok n mover (ringLoc n mover pos).
Proof.
  intros Hp. unfold ringLoc.
  destruct (Z.ltb_spec pos n); simpl; [lia|].
  destruct (Z.eqb_spec pos n); simpl; [done|lia].
Qed.

Lemma ring_next n r :
  0 ≤ n → 0 ≤ r → Z.rem (r + 1) (2 * n + 1) = (r + 1) mod (2 * n + 1).
Proof. intros. apply Z.rem_mod_nonneg; lia. Qed.

Lemma sowLoop_length n mover hand r : length (sowLoop n mover hand r) = hand.
Proof. revert r; induction hand as [|hand IH]; intros r; simpl; [done|]. by rewrite IH. Qed.

(** Entry [k] of the loop started at ring position [r] is the location of
    ring position [r + k], taken circularly. *)
Lemma sowLoop_lookup n mover hand r k :
  0 ≤ n → 0 ≤ r ≤ 2 * n → (k < hand)%nat →
  sowLoop n mover hand r !! k
  = Some (ringLoc n mover ((r + Z.of_nat k) mod (2 * n + 1))).
Proof.
  intros Hn. revert r k; induction hand as [|hand IH]; intros r k Hr Hk; [lia|].
  destruct k as [|k]; simpl.
  - rewrite Z.add_0_r, Z.mod_small by lia. done.
  - rewrite ring_next by lia.
    pose proof (Z.mod_pos_bound (r + 1) (2 * n + 1)).
    rewrite IH by lia.
    rewrite Zplus_mod_idemp_l. do 3 f_equal. lia.
Qed.

Lemma sowLoop_ok n mover hand r :
  0 ≤ n → 0 ≤ r ≤ 2 * n → Forall (loc_ok n mover) (sowLoop n mover hand r).
Proof.
  intros Hn Hr. apply Forall_lookup_2. intros k loc Hk.
  assert (k < hand)%nat.
  { apply lookup_lt_Some in Hk. by rewrite sowLoop_length in Hk. }
  rewrite sowLoop_lookup in Hk by done. injection Hk as <-.
  apply ringLoc_ok. pose proof (Z.mod_pos_bound (r + Z.of_nat k) (2 * n + 1)). lia.
Qed.

(** The guard [hand <= 0] of [sowPath] agrees with a loop that runs zero
    times; the start position needs no reduction for an index in range. *)
Lemma sowPath_loop st rules mover p :
  0 ≤ p < pitsPerSide rules →
  sowPath st rules mover p
  = sowLoop (pitsPerSide rules) mover (Z.to_nat (pit st mover p)) (p + 1).
Proof.
  intros Hp. unfold sowPath.
  rewrite Z.rem_small by lia.
  destruct (Z.leb_spec (pit st mover p) 0) as [H|H]; [|done].
  by replace (Z.to_nat (pit st mover p)) with O by lia.
Qed.

Lemma sowPath_ok st rules mover p :
  0 ≤ p < pitsPerSide rules →
  Forall (loc_ok (pitsPerSide rules) mover) (sowPath st rules mover p).
Proof. intros Hp. rewrite sowPath_loop by done. apply sowLoop_ok; lia. Qed.

Lemma sowPath_length st rules mover p :
  0 ≤ p < pitsPerSide rules →
  length (sowPath st rules mover p) = Z.to_nat (pit st mover p).
Proof. intros Hp. rewrite sowPath_loop by done. apply sowLoop_length. Qed.

(** A loop that starts on the mover's side and never reaches the store stays
    among the mover's pits from its start position on. *)
Lemma sowLoop_no_store n mover hand r :
  0 ≤ r ≤ n →
  storeDrops mover (sowLoop n mover hand r) = 0 →
  Forall (λ loc, ∃ i, loc = LocPit mover i ∧ r ≤ i < n) (sowLoop n mover hand r).
Proof.
  revert r; induction hand as [|hand IH]; intros r Hr; simpl; [constructor|].
  unfold storeDrops. simpl.
  destruct (Z.ltb_spec r n) as [Hlt|Hge]; simpl.
  - rewrite Z.rem_small by lia.
    intros Hs. constructor; [exists r; split; [done|lia]|].
    eapply Forall_impl; [apply IH; [lia|exact Hs]|].
    simpl. intros loc (i & -> & Hi). exists i. split; [done|lia].
  - destruct (Z.eqb_spec r n) as [_|Hne]; [|lia]. simpl.
    rewrite Side_eqb_refl. simpl. lia.
Qed.

(** ** Writes to a state: what each one changes *)

Section Writes.
Context (rules : Rules).
Implicit Types (st ns : GameState) (s : Side) (i v : Z).
Local Abbreviation n := (pitsPerSide rules).

Lemma sized_set_pit s i v st : sized rules st → sized rules (set_pit s i v st).
Proof.
  intros H s'. rewrite pits_set_pit.
  destruct (Side_eqb s s'); [rewrite length_insert|]; apply H.
Qed.

Lemma nonneg_set_pit s i v st : 0 ≤ v → nonneg st → nonneg (set_pit s i v st).
Proof.
  intros Hv H s'. rewrite pits_set_pit.
  destruct (Side_eqb s s'); [|apply H].
  apply Forall_insert; [apply H|done].
Qed.

Lemma wf_set_pit s i v st : 0 ≤ v → wf rules st → wf rules (set_pit s i v st).
Proof. intros Hv [??]. split; [by apply sized_set_pit|by apply nonneg_set_pit]. Qed.

Lemma wf_set_store s v st : wf rules st → wf rules (set_store s v st).
Proof.
  intros [H1 H2]. split; intros s'; rewrite pits_set_store; [apply H1|apply H2].
Qed.

Lemma wf_set_toMove p st : wf rules st → wf rules (set_toMove p st).
Proof.
  intros [H1 H2]. split; intros s'; rewrite pits_set_toMove; [apply H1|apply H2].
Qed.

Lemma wf_cloneState st : wf rules st → wf rules (cloneState st).
Proof.
  intros [H1 H2]. split; intros s'; rewrite pits_cloneState; [apply H1|apply H2].
Qed.

Lemma pit_set_pit_same s i v st :
  sized rules st → 0 ≤ i < n → pit (set_pit s i v st) s i = v.
Proof.
  intros Hsz Hi. unfold pit. rewrite pits_set_pit, Side_eqb_refl.
  rewrite list_lookup_insert_eq; [done|]. specialize (Hsz s). lia.
Qed.

Lemma pit_set_pit_other_side s s' i j v st :
  s ≠ s' → pit (set_pit s i v st) s' j = pit st s' j.
Proof.
  intros Hne. unfold pit. rewrite pits_set_pit.
  destruct (Side_eqb s s') eqn:E; [|done]. apply Side_eqb_eq in E. done.
Qed.

Lemma pit_set_pit_other_index s i j v st :
  0 ≤ i → 0 ≤ j → i ≠ j → pit (set_pit s i v st) s j = pit st s j.
Proof.
  intros Hi Hj Hne. unfold pit. rewrite pits_set_pit, Side_eqb_refl.
  rewrite list_lookup_insert_ne; [done|lia].
Qed.

Lemma total_set_pit s i v st :
  sized rules st → 0 ≤ i < n →
  total (set_pit s i v st) = total st - pit st s i + v.
Proof.
  intros Hsz Hi. pose proof (pit_in_range st s i) as Hl.
  rewrite (Hsz s) in Hl. specialize (Hl Hi).
  rewrite !total_eq, !store_set_pit, !pits_set_pit.
  destruct s; simpl; rewrite (sumZ_insert _ _ _ _ Hl); cbn [pits]; lia.
Qed.

Lemma advance_set_pit s i v st :
  sized rules st → 0 ≤ i < n →
  advance (set_pit s i v st) = advance st + i * (v - pit st s i).
Proof.
  intros Hsz Hi. pose proof (pit_in_range st s i) as Hl.
  rewrite (Hsz s) in Hl. specialize (Hl Hi).
  rewrite !advance_eq, !pits_set_pit.
  destruct s; simpl; rewrite (weighted_insert _ _ _ _ _ Hl), Z2Nat.id by lia;
    cbn [pits]; lia.
Qed.

Lemma inStores_set_pit s i v st : inStores (set_pit s i v st) = inStores st.
Proof. by destruct s. Qed.

Lemma total_set_store s v st : total (set_store s v st) = total st - store st s + v.
Proof. destruct s; unfold total; simpl; lia. Qed.

Lemma inStores_set_store s v st :
  inStores (set_store s v st) = inStores st - store st s + v.
Proof. destruct s; unfold inStores; simpl; lia. Qed.

Lemma advance_set_store s v st : advance (set_store s v st) = advance st.
Proof. by destruct s. Qed.

Lemma pit_set_store s s' i v st : pit (set_store s v st) s' i = pit st s' i.
Proof. apply pit_ext, pits_set_store. Qed.

Lemma pit_set_toMove p s i st : pit (set_toMove p st) s i = pit st s i.
Proof. apply pit_ext, pits_set_toMove. Qed.

Lemma pit_cloneState s i st : pit (cloneState st) s i = pit st s i.
Proof. apply pit_ext, pits_cloneState. Qed.

(** *** One seed dropped *)

Lemma wf_dropSeed mover ns loc :
  wf rules ns → loc_ok n mover loc → wf rules (dropSeed ns loc).
Proof.
  intros Hwf Hok. destruct loc as [s i|s]; simpl.
  - apply wf_set_pit; [|done]. pose proof (pit_nonneg rules ns s i Hwf). lia.
  - by apply wf_set_store.
Qed.

Lemma total_dropSeed mover ns loc :
  sized rules ns → loc_ok n mover loc → total (dropSeed ns loc) = total ns + 1.
Proof.
  intros Hsz Hok. destruct loc as [s i|s]; simpl.
  - rewrite total_set_pit by done. lia.
  - rewrite total_set_store. lia.
Qed.

Lemma store_dropSeed ns loc s :
  store (dropSeed ns loc) s = store ns s + storeDrops s [loc].
Proof.
  destruct loc as [s' i|s']; simpl.
  - rewrite store_set_pit. unfold storeDrops; simpl; lia.
  - rewrite store_set_store. unfold storeDrops; simpl.
    destruct (Side_eqb s' s) eqn:E; simpl; [|lia].
    apply Side_eqb_eq in E as ->. lia.
Qed.

Lemma toMove_dropSeed ns loc : toMove (dropSeed ns loc) = toMove ns.
Proof. destruct loc as [[] ?|[]]; done. Qed.

Lemma terminal_prop_dropSeed ns loc : terminal_prop (dropSeed ns loc) = terminal_prop ns.
Proof. destruct loc as [[] ?|[]]; done. Qed.

(** *** A whole path sown *)

Lemma storeDrops_cons s loc path :
  storeDrops s (loc :: path) = storeDrops s [loc] + storeDrops s path.
Proof.
  unfold storeDrops. simpl.
  destruct (match loc with LocStore s0 => Side_eqb s0 s | _ => false end); simpl; lia.
Qed.

Lemma storeDrops_nonneg s path : 0 ≤ storeDrops s path.
Proof. unfold storeDrops. lia. Qed.

Lemma wf_sow mover path ns :
  wf rules ns → Forall (loc_ok n mover) path → wf rules (sow ns path).
Proof.
  intros Hwf Hok. revert ns Hwf. induction Hok as [|loc path Hloc _ IH]; intros ns Hwf.
  - done.
  - simpl. apply IH. by eapply wf_dropSeed.
Qed.

Lemma total_sow mover path ns :
  wf rules ns → Forall (loc_ok n mover) path →
  total (sow ns path) = total ns + Z.of_nat (length path).
Proof.
  intros Hwf Hok. revert ns Hwf. induction Hok as [|loc path Hloc _ IH]; intros ns Hwf.
  - simpl. lia.
  - cbn [sow foldl length]. fold (sow (dropSeed ns loc) path).
    rewrite IH by (by eapply wf_dropSeed).
    rewrite (total_dropSeed mover) by (done || apply Hwf). lia.
Qed.

Lemma store_sow path ns s :
  store (sow ns path) s = store ns s + storeDrops s path.
Proof.
  revert ns. induction path as [|loc path IH]; intros ns.
  - unfold storeDrops; simpl; lia.
  - cbn [sow foldl]. fold (sow (dropSeed ns loc) path).
    rewrite IH, store_dropSeed, (storeDrops_cons s loc path). lia.
Qed.

Lemma toMove_sow path ns : toMove (sow ns path) = toMove ns.
Proof.
  revert ns. induction path as [|loc path IH]; intros ns; [done|].
  cbn [sow foldl]. fold (sow (dropSeed ns loc) path). by rewrite IH, toMove_dropSeed.
Qed.

Lemma terminal_prop_sow path ns : terminal_prop (sow ns path) = terminal_prop ns.
Proof.
  revert ns. induction path as [|loc path IH]; intros ns; [done|].
  cbn [sow foldl]. fold (sow (dropSeed ns loc) path). by rewrite IH, terminal_prop_dropSeed.
Qed.

(** Seeds sown into the mover's own pits at indices from [r] on move the
    weighted sum up by at least [r] each. *)
Lemma advance_sow_own mover r path ns :
  wf rules ns → 0 ≤ r →
  Forall (λ loc, ∃ i, loc = LocPit mover i ∧ r ≤ i < n) path →
  advance ns + r * Z.of_nat (length path) ≤ advance (sow ns path).
Proof.
  intros Hwf Hr Hall. revert ns Hwf.
  induction Hall as [|loc path (i & -> & Hi) _ IH]; intros ns Hwf.
  - simpl. lia.
  - cbn [sow foldl length]. fold (sow (dropSeed ns (LocPit mover i)) path).
    assert (wf rules (dropSeed ns (LocPit mover i))) as Hwf'.
    { apply (wf_dropSeed mover); [done|simpl; lia]. }
    specialize (IH _ Hwf'). simpl in IH.
    rewrite advance_set_pit in IH by (apply Hwf || lia).
    simpl. nia.
Qed.
End Writes.

(** ** Terminal test and sweep *)

Section Sweep.
Context (rules : Rules).
Implicit Types (st ns : GameState) (s : Side).
Local Abbreviation n := (pitsPerSide rules).

Lemma isTerminal_forallb st :
  isTerminal st rules =
  forallb (λ i, pit st Side0 i =? 0) (range n)
  || forallb (λ i, pit st Side1 i =? 0) (range n).
Proof.
  unfold isTerminal.
  assert (∀ l z0 z1,
    foldl (λ '(z0, z1) i,
             (if negb (pit st Side0 i =? 0) then false else z0,
              if negb (pit st Side1 i =? 0) then false else z1)) (z0, z1) l
    = (z0 && forallb (λ i, pit st Side0 i =? 0) l,
       z1 && forallb (λ i, pit st Side1 i =? 0) l)) as H.
  { induction l as [|i l IH]; intros z0 z1; simpl.
    - by rewrite !andb_true_r.
    - rewrite IH. destruct (pit st Side0 i =? 0), (pit st Side1 i =? 0), z0, z1; done. }
  by rewrite H.
Qed.

Lemma forallb_range_sideEmpty st s :
  forallb (λ i, pit st s i =? 0) (range n) = true ↔ sideEmpty rules st s.
Proof.
  rewrite forallb_forall. unfold sideEmpty. split.
  - intros H i Hi. apply Z.eqb_eq, H, list_elem_of_In, elem_of_range, Hi.
  - intros H i Hi. apply Z.eqb_eq, H, elem_of_range, list_elem_of_In, Hi.
Qed.

Lemma isTerminal_spec st :
  isTerminal st rules = true ↔ sideEmpty rules st Side0 ∨ sideEmpty rules st Side1.
Proof.
  rewrite isTerminal_forallb, orb_true_iff, !forallb_range_sideEmpty. done.
Qed.

Lemma isTerminal_pits st st' :
  (∀ s, pits st s = pits st' s) → isTerminal st rules = isTerminal st' rules.
Proof.
  intros H. rewrite !isTerminal_forallb.
  assert (∀ s l, forallb (λ i, pit st s i =? 0) l
                 = forallb (λ i, pit st' s i =? 0) l) as E.
  { intros s l. induction l as [|i l IH]; simpl; [done|].
    by rewrite IH, (pit_ext st st' s i (H s)). }
  by rewrite !E.
Qed.

Lemma sideEmpty_replicate st s :
  sized rules st → sideEmpty rules st s ↔ pits st s = replicate (Z.to_nat n) 0.
Proof.
  intros Hsz. specialize (Hsz s). split.
  - intros H. apply list_eq. intros k.
    destruct (decide (k < Z.to_nat n)%nat) as [Hk|Hk].
    + rewrite lookup_replicate_2 by done.
      pose proof (pit_in_range st s (Z.of_nat k)) as Hl.
      rewrite Nat2Z.id in Hl. rewrite Hl by lia. f_equal. apply H. lia.
    + rewrite lookup_ge_None_2 by lia.
      symmetry. apply lookup_ge_None_2. rewrite length_replicate. lia.
  - intros H i Hi. unfold pit. rewrite H, lookup_replicate_2; [done|lia].
Qed.

Lemma sideEmpty_sum st s :
  wf rules st → sideEmpty rules st s ↔ sumZ (pits st s) = 0.
Proof.
  intros [Hsz Hnn]. rewrite sideEmpty_replicate by done. split.
  - intros ->. rewrite sumZ_replicate. lia.
  - intros H. rewrite (sumZ_zero _ (Hnn s) H) at 1. f_equal.
    specialize (Hsz s). lia.
Qed.

(** The inner loop after [k] iterations: the first [k] pits are zeroed and
    [sweep] holds their sum. *)
Lemma sweep_loop s ns k :
  (k ≤ length (pits ns s))%nat →
  foldl (λ '(ns, sweep) i, (set_pit s i 0 ns, sweep + pit ns s i))
    (ns, 0) (Z.of_nat <$> seq 0 k)
  = (set_pits s (replicate k 0 ++ drop k (pits ns s)) ns,
     sumZ (take k (pits ns s))).
Proof.
  induction k as [|k IH]; intros Hk.
  - simpl. rewrite drop_0. f_equal. by destruct ns, s.
  - rewrite range_succ, foldl_app, IH by lia. simpl.
    destruct (lookup_lt_is_Some_2 (pits ns s) k) as [x Hx]; [lia|].
    assert ((replicate k 0 ++ drop k (pits ns s)) !! k = Some x) as Hk'.
    { rewrite lookup_app_r; rewrite length_replicate; [|lia].
      rewrite Nat.sub_diag, lookup_drop, Nat.add_0_r. done. }
    f_equal.
    + unfold set_pit. rewrite pits_set_pits, Side_eqb_refl, Nat2Z.id.
      replace (<[k:=0]> (replicate k 0 ++ drop k (pits ns s)))
        with (replicate (S k) 0 ++ drop (S k) (pits ns s)).
      { by destruct s, ns. }
      rewrite insert_app_r_alt; rewrite length_replicate; [|lia].
      rewrite Nat.sub_diag, (drop_S _ _ _ Hx).
      change (replicate (S k) 0) with (0 :: replicate k 0).
      by rewrite replicate_cons_app, <- app_assoc.
    + rewrite (take_S_r _ _ _ Hx), sumZ_app. simpl.
      unfold pit. rewrite pits_set_pits, Side_eqb_refl, Nat2Z.id, Hk'. simpl. lia.
Qed.

Lemma sweepSide_spec ns s :
  sized rules ns →
  sweepSide n ns s
  = set_store s (store ns s + sumZ (pits ns s))
      (set_pits s (replicate (Z.to_nat n) 0) ns).
Proof.
  intros Hsz. specialize (Hsz s). unfold sweepSide, range.
  rewrite sweep_loop by lia.
  rewrite drop_ge, take_ge, app_nil_r by lia.
  by rewrite store_set_pits.
Qed.

Lemma finalizeIfTerminal_spec st :
  sized rules st →
  finalizeIfTerminal st rules =
  if isTerminal st rules && sweepOnGameEnd rules then swept rules st else st.
Proof.
  intros Hsz. unfold finalizeIfTerminal.
  destruct (isTerminal st rules); simpl; [|done].
  destruct (sweepOnGameEnd rules); simpl; [|done].
  rewrite (sweepSide_spec (cloneState st) Side0).
  2:{ intros s. rewrite pits_cloneState. apply Hsz. }
  rewrite sweepSide_spec.
  2:{ intros s. rewrite pits_set_store, pits_set_pits, pits_cloneState.
      destruct s; simpl; [by rewrite length_replicate; specialize (Hsz Side0); simpl in Hsz; lia|apply (Hsz Side1)]. }
  by destruct st.
Qed.

Lemma wf_swept st : 0 ≤ n → wf rules (swept rules st).
Proof.
  intros Hn. split; intros s; destruct s; simpl;
    rewrite ?length_replicate; try lia; by apply Forall_replicate.
Qed.

Lemma total_swept st : sized rules st → total (swept rules st) = total st.
Proof.
  intros Hsz. unfold total, swept. simpl. rewrite !sumZ_replicate. lia.
Qed.

Lemma isTerminal_swept st : 0 ≤ n → isTerminal (swept rules st) rules = true.
Proof.
  intros Hn. apply isTerminal_spec. left.
  apply sideEmpty_replicate; [apply wf_swept; done|done].
Qed.

Lemma wf_finalizeIfTerminal st :
  0 ≤ n → wf rules st → wf rules (finalizeIfTerminal st rules).
Proof.
  intros Hn Hwf. rewrite finalizeIfTerminal_spec by apply Hwf.
  destruct (_ && _); [by apply wf_swept|done].
Qed.

Lemma total_finalizeIfTerminal st :
  sized rules st → total (finalizeIfTerminal st rules) = total st.
Proof.
  intros Hsz. rewrite finalizeIfTerminal_spec by done.
  destruct (_ && _); [by apply total_swept|done].
Qed.

Lemma toMove_sweepSide ns s : toMove (sweepSide n ns s) = toMove ns.
Proof.
  unfold sweepSide.
  assert (∀ l acc,
    toMove (foldl (λ '(ns, sweep) i, (set_pit s i 0 ns, sweep + pit ns s i))
              acc l).1 = toMove acc.1) as H.
  { induction l as [|i l IH]; intros [ns' sw]; simpl; [done|].
    by rewrite IH; simpl; rewrite toMove_set_pit. }
  specialize (H (range n) (ns, 0)).
  destruct (foldl _ _ _) as [ns' sw]. simpl in *.
  by rewrite toMove_set_store.
Qed.

Lemma toMove_finalizeIfTerminal st :
  toMove (finalizeIfTerminal st rules) = toMove st.
Proof.
  unfold finalizeIfTerminal.
  destruct (isTerminal st rules); simpl; [|done].
  destruct (sweepOnGameEnd rules); simpl; [|done].
  by rewrite !toMove_sweepSide.
Qed.
End Sweep.

(** ** The capture block *)

Section Capture.
Context (rules : Rules).
Implicit Types (st ns : GameState) (s mover : Side).
Local Abbreviation n := (pitsPerSide rules).

Lemma wasEmptyBefore_lookup st mover i :
  0 ≤ i < n →
  default false (wasEmptyBefore st n mover !! Z.to_nat i) = (pit st mover i =? 0).
Proof.
  intros Hi. unfold wasEmptyBefore.
  rewrite list_lookup_fmap, range_lookup by lia. simpl.
  by rewrite Z2Nat.id by lia.
Qed.

Lemma captureStep_fires st mover ns last i :
  0 ≤ i < n → captureCond rules st mover ns last i →
  captureStep st rules mover ns last = captureAt rules mover ns i.
Proof.
  intros Hi (Hk & -> & H0 & H1 & Hopp). unfold captureStep, captureAt.
  rewrite Hk, Side_eqb_refl, wasEmptyBefore_lookup, H0, H1 by done. simpl.
  destruct (Z.gtb_spec (pit ns (other mover) (n - 1 - i)) 0); [|lia].
  by rewrite store_set_pit, store_set_pit.
Qed.

Lemma captureStep_cases st mover ns last :
  (∀ loc, last = Some loc → loc_ok n mover loc) →
  (captureStep st rules mover ns last = (ns, NoCapture)
   ∧ ∀ i, ¬ captureCond rules st mover ns last i)
  ∨ (∃ i, 0 ≤ i < n ∧ captureCond rules st mover ns last i
          ∧ captureStep st rules mover ns last = captureAt rules mover ns i).
Proof.
  intros Hok. unfold captureStep.
  assert (∀ i, captureCond rules st mover ns last i → last = Some (LocPit mover i))
    as Hlast by (by intros i (_ & ? & _)).
  destruct last as [[s i|s]|]; simpl;
    [|by left; split; [|intros i' Hc; apply Hlast in Hc]..].
  specialize (Hok _ eq_refl). simpl in Hok.
  destruct (captureRule rules) eqn:Hk; simpl;
    [|left; split; [done|intros i' (Hc & _); congruence]].
  destruct (Side_eqb s mover) eqn:Hs.
  2:{ left; split; [done|]. intros i' Hc. apply Hlast in Hc.
      injection Hc as -> _. by rewrite Side_eqb_refl in Hs. }
  apply Side_eqb_eq in Hs as ->.
  rewrite wasEmptyBefore_lookup by done.
  destruct (Z.eqb_spec (pit st mover i) 0) as [H0|H0]; simpl.
  2:{ left; split; [done|]. intros i' Hc. pose proof (Hlast _ Hc) as [= <-].
      by destruct Hc as (_ & _ & ? & _). }
  destruct (Z.eqb_spec (pit ns mover i) 1) as [H1|H1]; simpl.
  2:{ left; split; [done|]. intros i' Hc. pose proof (Hlast _ Hc) as [= <-].
      by destruct Hc as (_ & _ & _ & ? & _). }
  destruct (Z.gtb_spec (pit ns (other mover) (n - 1 - i)) 0) as [Hopp|Hopp].
  2:{ left; split; [done|]. intros i' Hc. pose proof (Hlast _ Hc) as [= <-].
      destruct Hc as (_ & _ & _ & _ & ?). lia. }
  right. exists i. split; [done|]. split; [done|].
  unfold captureAt. by rewrite store_set_pit, store_set_pit.
Qed.

Lemma wf_captureAt mover ns i :
  wf rules ns → wf rules (captureAt rules mover ns i).1.
Proof.
  intros Hwf. simpl. apply wf_set_store. apply wf_set_pit; [done|].
  by apply wf_set_pit.
Qed.

Lemma total_captureAt mover ns i :
  sized rules ns → 0 ≤ i < n → pit ns mover i = 1 →
  total (captureAt rules mover ns i).1 = total ns.
Proof.
  intros Hsz Hi H1. simpl.
  rewrite total_set_store, store_set_pit, store_set_pit.
  rewrite (total_set_pit rules) by (by apply sized_set_pit || done).
  rewrite pit_set_pit_other_side by apply other_neq.
  rewrite (total_set_pit rules) by (done || lia).
  lia.
Qed.

Lemma inStores_captureAt mover ns i :
  inStores (captureAt rules mover ns i).1
  = inStores ns + (pit ns (other mover) (n - 1 - i) + 1).
Proof.
  simpl. rewrite inStores_set_store, store_set_pit, store_set_pit.
  rewrite !inStores_set_pit. lia.
Qed.

Lemma wf_captureStep st mover ns last :
  (∀ loc, last = Some loc → loc_ok n mover loc) →
  wf rules ns → wf rules (captureStep st rules mover ns last).1.
Proof.
  intros Hok Hwf.
  destruct (captureStep_cases st mover ns last Hok) as [[-> _]|(i & _ & _ & ->)];
    [done|by apply wf_captureAt].
Qed.

Lemma total_captureStep st mover ns last :
  (∀ loc, last = Some loc → loc_ok n mover loc) →
  sized rules ns → total (captureStep st rules mover ns last).1 = total ns.
Proof.
  intros Hok Hsz.
  destruct (captureStep_cases st mover ns last Hok)
    as [[-> _]|(i & Hi & (_ & _ & _ & H1 & _) & ->)]; [done|].
  by apply total_captureAt.
Qed.

Lemma toMove_captureStep st mover ns last :
  toMove (captureStep st rules mover ns last).1 = toMove ns.
Proof.
  unfold captureStep. repeat (case_match; try done).
  simpl. by rewrite toMove_set_store, !toMove_set_pit.
Qed.
End Capture.

(** ** [playMove] unfolded *)

Section Play.
Context (rules : Rules).
Implicit Types (st ns : GameState) (p : Z).
Local Abbreviation n := (pitsPerSide rules).

Lemma playMove_unfold st p :
  playMove st rules p =
  if (p <? 0) || (p >=? n) then PlayError "pitIndex out of range"
  else if negb (allowMoveFromEmpty rules) && (pit st (toMove st) p =? 0)
  then PlayError "empty pit"
  else PlayOk (mkResult (finalizeIfTerminal (beforeSweep rules st p) rules)
                 (sowPath st rules (toMove st) p) (toMove st) p
                 (extraTurnOf rules (toMove st) (last (sowPath st rules (toMove st) p)))
                 (captureStep st rules (toMove st) (sown rules st p)
                    (last (sowPath st rules (toMove st) p))).2
                 (isTerminal (beforeSweep rules st p) rules
                  || isTerminal (finalizeIfTerminal (beforeSweep rules st p) rules) rules)).
Proof.
  unfold playMove, beforeSweep, afterCapture, sown.
  destruct (_ || _); [done|]. destruct (_ && _); [done|].
  by destruct (captureStep _ _ _ _ _).
Qed.

Lemma playMove_ok_inv st p res :
  playMove st rules p = PlayOk res →
  accepted rules st p ∧
  state res = finalizeIfTerminal (beforeSweep rules st p) rules ∧
  path res = sowPath st rules (toMove st) p ∧
  mover res = toMove st ∧
  pitIndex res = p ∧
  extraTurn res = extraTurnOf rules (toMove st) (last (path res)) ∧
  capture res = (captureStep st rules (toMove st) (sown rules st p) (last (path res))).2.
Proof.
  rewrite playMove_unfold. unfold accepted.
  destruct (Z.ltb_spec p 0); simpl; [done|].
  destruct (Z.geb_spec p n) as [|Hge]; simpl; [done|].
  destruct (allowMoveFromEmpty rules); simpl.
  - intros [= <-]. simpl. repeat split; auto with lia.
  - destruct (Z.eqb_spec (pit st (toMove st) p) 0); [done|].
    intros [= <-]. simpl. repeat split; auto with lia.
Qed.

Lemma playMove_accepted st p :
  accepted rules st p → ∃ res, playMove st rules p = PlayOk res.
Proof.
  intros [Hp He]. rewrite playMove_unfold.
  destruct (Z.ltb_spec p 0); [lia|]. destruct (Z.geb_spec p n); [lia|]. simpl.
  destruct He as [->|He]; simpl; [eauto|].
  destruct (Z.eqb_spec (pit st (toMove st) p) 0); [done|].
  rewrite andb_false_r. eauto.
Qed.

Lemma last_ok {A} (P : A → Prop) (l : list A) x :
  Forall P l → last l = Some x → P x.
Proof.
  intros Hall Hl. apply last_Some in Hl as [l' ->].
  apply Forall_app in Hall as [_ Hx]. by inversion Hx.
Qed.

Lemma wf_emptied st p : wf rules st → wf rules (emptied st (toMove st) p).
Proof. intros Hwf. apply wf_set_pit; [done|]. by apply wf_cloneState. Qed.

Lemma wf_sown st p : wf rules st → 0 ≤ p < n → wf rules (sown rules st p).
Proof.
  intros Hwf Hp. apply (wf_sow rules (toMove st)); [by apply wf_emptied|].
  by apply sowPath_ok.
Qed.

Lemma wf_afterCapture st p : wf rules st → 0 ≤ p < n → wf rules (afterCapture rules st p).
Proof.
  intros Hwf Hp. apply wf_captureStep; [|by apply wf_sown].
  intros loc. apply last_ok. by apply sowPath_ok.
Qed.

Lemma wf_beforeSweep st p : wf rules st → 0 ≤ p < n → wf rules (beforeSweep rules st p).
Proof. intros. by apply wf_set_toMove, wf_afterCapture. Qed.

(** A successful move keeps the data model. *)
Lemma wf_playMove st p res :
  wf rules st → playMove st rules p = PlayOk res → wf rules (state res).
Proof.
  intros Hwf Hplay. apply playMove_ok_inv in Hplay as ([Hp _] & -> & _).
  apply wf_finalizeIfTerminal; [lia|]. by apply wf_beforeSweep.
Qed.

Lemma total_sown st p : wf rules st → 0 ≤ p < n → total (sown rules st p) = total st.
Proof.
  intros Hwf Hp. unfold sown.
  rewrite (total_sow rules (toMove st)); [|by apply wf_emptied|by apply sowPath_ok].
  unfold emptied. rewrite (total_set_pit rules); [|apply wf_cloneState, Hwf|done].
  rewrite sowPath_length, pit_cloneState by done.
  pose proof (pit_nonneg rules st (toMove st) p Hwf).
  assert (total (cloneState st) = total st) as -> by done. lia.
Qed.

Lemma total_beforeSweep st p :
  wf rules st → 0 ≤ p < n → total (beforeSweep rules st p) = total st.
Proof.
  intros Hwf Hp.
  assert (total (beforeSweep rules st p) = total (afterCapture rules st p)) as -> by done.
  unfold afterCapture. rewrite total_captureStep.
  - by apply total_sown.
  - intros loc. apply last_ok. by apply sowPath_ok.
  - by apply wf_sown.
Qed.

(** A successful move keeps the number of seeds on the board. *)
Lemma total_playMove st p res :
  wf rules st → playMove st rules p = PlayOk res → total (state res) = total st.
Proof.
  intros Hwf Hplay. apply playMove_ok_inv in Hplay as ([Hp _] & -> & _).
  rewrite total_finalizeIfTerminal by (by apply wf_beforeSweep).
  by apply total_beforeSweep.
Qed.
End Play.

(** ** The initial state *)

Lemma wf_initStandard rules toMove :
  rules_ok rules → wf rules (initStandard rules toMove).
Proof.
  intros [Hn Hs]. split; intros s; destruct s; simpl;
    rewrite ?length_replicate; try lia; by apply Forall_replicate.
Qed.

Lemma total_initStandard rules toMove :
  rules_ok rules →
  total (initStandard rules toMove) = 2 * pitsPerSide rules * seedsPerPit rules.
Proof.
  intros [Hn Hs]. unfold total, initStandard. simpl. rewrite sumZ_replicate. lia.
Qed.

(** ** Seed conservation *)

(** Every state of a play line that starts in the data model is in the data
    model and holds as many seeds as the first. *)
Lemma line_invariant rules l :
  play_line rules l →
  ∀ st0, head l = Some st0 → wf rules st0 →
  Forall (λ st, wf rules st ∧ total st = total st0) l.
Proof.
  induction 1 as [st|st st' l Hstep _ IH]; intros st0 [= <-] Hwf.
  - constructor; [done|constructor].
  - constructor; [done|].
    destruct Hstep as (p & res & Hplay & <-).
    pose proof (wf_playMove _ _ _ _ Hwf Hplay) as Hwf'.
    pose proof (total_playMove _ _ _ _ Hwf Hplay) as Ht.
    eapply Forall_impl; [by apply IH|].
    simpl. intros x [? ->]. done.
Qed.

(** C1.  For every rules configuration that [makeRules] builds and every
    play line (a sequence of successful [playMove] applications) that starts
    at [initStandard rules startSide], every state of the line, the first
    one and one produced by a move that swept the board included, has
    [sum(pits[0]) + sum(pits[1]) + store[0] + store[1]
     = 2 * pitsPerSide * seedsPerPit]. *)
Theorem seed_conservation n0 s0 e w c a rules startSide l st :
  makeRules n0 s0 e w c a = inr rules →
  play_line rules (initStandard rules startSide :: l) →
  st ∈ initStandard rules startSide :: l →
  sumZ (pits st Side0) + sumZ (pits st Side1) + store st Side0 + store st Side1
  = 2 * pitsPerSide rules * seedsPerPit rules.
Proof.
  intros Hok%makeRules_ok Hline Hin.
  pose proof (line_invariant _ _ Hline _ eq_refl (wf_initStandard _ _ Hok)) as Hall.
  rewrite Forall_forall in Hall. destruct (Hall _ Hin) as [_ Ht].
  rewrite <- total_eq, Ht. by apply total_initStandard.
Qed.

(** The standard game: the opening move from pit 2 ends in the store, the
    same player then moves from pit 1. *)
Lemma seed_conservation_witness :
  let rules := mkRules 6 4 true true KALAH false in
  let st1 := mkState [4; 4; 0; 5; 5; 5] [4; 4; 4; 4; 4; 4] 1 0 Side0 None in
  let st2 := mkState [4; 0; 1; 6; 6; 6] [4; 4; 4; 4; 4; 4] 1 0 Side1 None in
  makeRules 6 4 true true KALAH false = inr rules
  ∧ play_line rules [initStandard rules 0; st1; st2]
  ∧ sumZ (pits st2 Side0) + sumZ (pits st2 Side1) + store st2 Side0 + store st2 Side1
    = 2 * 6 * 4.
Proof.
  intros rules st1 st2.
  assert (play_line rules [initStandard rules 0; st1; st2]) as Hline.
  { apply line_cons; [exists 2; eexists; split; [vm_compute; reflexivity|reflexivity]|].
    apply line_cons; [exists 1; eexists; split; [vm_compute; reflexivity|reflexivity]|].
    apply line_one. }
  split; [reflexivity|]. split; [exact Hline|].
  refine (seed_conservation 6 4 true true KALAH false rules 0 [st1; st2] st2
            eq_refl Hline _).
  apply list_elem_of_In. simpl. auto.
Defined.

(** ** The sowing path *)

(** C3.  For a successful move on a state of the data model, with [seeds]
    the count of the source pit before the move: the path has exactly
    [seeds] entries; entry [k] is the location of position
    [(pitIndex + 1 + k) mod (2n+1)] of the ring of [2n+1] positions relative
    to the mover (own pits [0..n-1], own store [n], opponent's pits
    [n+1..2n]), so it starts at [(pitIndex + 1) mod (2n+1)] and advances one
    position per seed; and no entry is the store of the other side. *)
Theorem sow_path_ring rules st p res :
  wf rules st → playMove st rules p = PlayOk res →
  let n := pitsPerSide rules in
  let seeds := pit st (mover res) p in
  mover res = toMove st
  ∧ Z.of_nat (length (path res)) = seeds
  ∧ (∀ k, (k < length (path res))%nat →
       path res !! k
       = Some (ringLoc n (mover res) ((p + 1 + Z.of_nat k) mod (2 * n + 1))))
  ∧ LocStore (other (mover res)) ∉ path res.
Proof.
  intros Hwf Hplay n seeds. subst n seeds.
  apply playMove_ok_inv in Hplay as ([Hp _] & _ & Hpath & -> & _).
  rewrite Hpath. split; [done|]. split; [|split].
  - rewrite sowPath_length by done.
    pose proof (pit_nonneg rules st (toMove st) p Hwf). lia.
  - intros k Hk. rewrite sowPath_loop in * by done.
    rewrite sowLoop_length in Hk. rewrite sowLoop_lookup by lia. done.
  - intros Hin. pose proof (sowPath_ok st rules (toMove st) p Hp) as Hall.
    rewrite Forall_forall in Hall. apply Hall in Hin. simpl in Hin.
    by apply other_neq in Hin.
Qed.

(** Three pits a side; seven seeds go once round the ring and one further. *)
Lemma sow_path_ring_witness :
  let rules := mkRules 3 4 true true KALAH false in
  let st := mkState [0; 8; 1] [1; 1; 1] 0 0 Side0 None in
  ∃ res, playMove st rules 1 = PlayOk res
  ∧ Z.of_nat (length (path res)) = 8
  ∧ path res !! 7%nat = Some (ringLoc 3 Side0 ((1 + 1 + 7) mod 7))
  ∧ LocStore Side1 ∉ path res.
Proof.
  intros rules st.
  assert (wf rules st) as Hwf.
  { split; intros []; simpl; [reflexivity|reflexivity| |];
      repeat constructor; lia. }
  destruct (playMove st rules 1) as [e|res] eqn:Hplay; [discriminate Hplay|].
  exists res. split; [reflexivity|].
  destruct (sow_path_ring rules st 1 res Hwf Hplay) as (Hm & Hlen & Hk & Hno).
  injection Hplay as <-.
  split; [exact Hlen|]. split; [|exact Hno].
  apply (Hk 7%nat). simpl. lia.
Defined.

(** ** The extra turn *)

Lemma sowPath_empty st rules mover p :
  pit st mover p = 0 → sowPath st rules mover p = [].
Proof. intros H. unfold sowPath. by rewrite H. Qed.

(** C4.  After a successful move on a state whose pit arrays have
    [pitsPerSide] cells, the mover recorded in the result is the side that
    was to move before, and the path is the one sown from its pit.  The
    side to move afterwards is that same side exactly when
    [extraTurnOnStore] is enabled and the last entry of the path is the
    mover's own store, which is exactly when the [extraTurn] flag of the
    result is set; in every other case the side to move is the opponent of
    the side that moved, in particular after a move from a pit with zero
    seeds, whose path is empty. *)
Theorem extra_turn_law rules st p res :
  sized rules st → playMove st rules p = PlayOk res →
  let own := extraTurnOnStore rules = true
             ∧ last (path res) = Some (LocStore (toMove st)) in
  mover res = toMove st
  ∧ path res = sowPath st rules (toMove st) p
  ∧ (toMove (state res) = toMove st ↔ own)
  ∧ (extraTurn res = true ↔ own)
  ∧ (¬ own → toMove (state res) = other (toMove st))
  ∧ (pit st (toMove st) p = 0 →
       path res = [] ∧ toMove (state res) = other (toMove st)).
Proof.
  intros _ Hplay own. subst own.
  apply playMove_ok_inv in Hplay as (_ & Hst & Hpath & Hm & _ & Hx & _).
  assert (toMove (state res) = if extraTurn res then toMove st else other (toMove st))
    as HtoMove.
  { rewrite Hst, toMove_finalizeIfTerminal, Hx, Hpath. done. }
  assert (extraTurn res = true
          ↔ extraTurnOnStore rules = true
            ∧ last (path res) = Some (LocStore (toMove st))) as Hflag.
  { rewrite Hx. unfold extraTurnOf. rewrite andb_true_iff.
    destruct (last (path res)) as [[s i|s]|]; simpl;
      [intuition discriminate| |intuition discriminate].
    rewrite Side_eqb_eq. intuition congruence. }
  rewrite HtoMove. split; [done|split; [done|split; [|split; [done|split]]]].
  - rewrite <- Hflag. destruct (extraTurn res); [done|].
    split; [|done]. intros H. by apply other_neq in H.
  - rewrite <- Hflag. by destruct (extraTurn res).
  - intros H0.
    assert (path res = []) as Hnil by (by rewrite Hpath, sowPath_empty).
    split; [done|].
    rewrite Hx, Hnil. unfold extraTurnOf. simpl. by rewrite andb_false_r.
Qed.

(** In the standard game the opening move from pit 2 ends in the mover's
    store and the same side moves again; the opening move from pit 0 ends
    in a pit and the turn passes to the opponent. *)
Lemma extra_turn_law_witness :
  let rules := mkRules 6 4 true true KALAH false in
  let st := initStandard rules 0 in
  sized rules st
  ∧ (∃ res, playMove st rules 2 = PlayOk res
       ∧ mover res = toMove st
       ∧ last (path res) = Some (LocStore (toMove st))
       ∧ extraTurn res = true
       ∧ toMove (state res) = toMove st)
  ∧ (∃ res, playMove st rules 0 = PlayOk res
       ∧ mover res = toMove st
       ∧ last (path res) ≠ Some (LocStore (toMove st))
       ∧ extraTurn res ≠ true
       ∧ toMove (state res) = other (toMove st)).
Proof.
  intros rules st.
  assert (sized rules st) as Hsz by (intros []; reflexivity).
  split; [exact Hsz|]. split.
  - destruct (playMove st rules 2) as [e|res] eqn:Hplay; [discriminate Hplay|].
    exists res. split; [reflexivity|].
    destruct (extra_turn_law rules st 2 res Hsz Hplay)
      as (Hm & _ & Hto & Hflag & _).
    assert (last (path res) = Some (LocStore (toMove st))) as Hlast
      by (injection Hplay as <-; reflexivity).
    split; [exact Hm|]. split; [exact Hlast|]. split.
    + apply (proj2 Hflag). split; [reflexivity|exact Hlast].
    + apply (proj2 Hto). split; [reflexivity|exact Hlast].
  - destruct (playMove st rules 0) as [e|res] eqn:Hplay; [discriminate Hplay|].
    exists res. split; [reflexivity|].
    destruct (extra_turn_law rules st 0 res Hsz Hplay)
      as (Hm & _ & _ & Hflag & Hflip & _).
    assert (last (path res) ≠ Some (LocStore (toMove st))) as Hlast
      by (injection Hplay as <-; discriminate).
    split; [exact Hm|]. split; [exact Hlast|]. split.
    + intros Hx. apply Hlast. exact (proj2 (proj1 Hflag Hx)).
    + apply Hflip. intros [_ Hown]. exact (Hlast Hown).
Defined.

(** ** The sweep *)

(** C8.  On a state whose pit arrays have [pitsPerSide] cells: if the state
    is terminal and [sweepOnGameEnd] is set, [finalizeIfTerminal] returns a
    state in which every pit of both sides is zero and the store of each
    side is its store before plus the sum of that side's own pits before;
    if the state is not terminal or [sweepOnGameEnd] is not set, it returns
    the state unchanged. *)
Theorem sweep_law rules st :
  sized rules st →
  (isTerminal st rules = true → sweepOnGameEnd rules = true →
     ∀ s, pits (finalizeIfTerminal st rules) s
            = replicate (Z.to_nat (pitsPerSide rules)) 0
          ∧ (∀ i, pit (finalizeIfTerminal st rules) s i = 0)
          ∧ store (finalizeIfTerminal st rules) s = store st s + sumZ (pits st s))
  ∧ (isTerminal st rules = false ∨ sweepOnGameEnd rules = false →
     finalizeIfTerminal st rules = st).
Proof.
  intros Hsz. split.
  - intros Ht Hw s. rewrite finalizeIfTerminal_spec, Ht, Hw by done. simpl.
    split; [by destruct s|]. split; [|by destruct s].
    intros i. unfold pit.
    replace (pits (swept rules st) s) with (replicate (Z.to_nat (pitsPerSide rules)) 0)
      by (by destruct s).
    destruct (replicate _ _ !! _) as [x|] eqn:E; [|done].
    by apply lookup_replicate in E as [-> _].
  - unfold finalizeIfTerminal. intros [->| ->]; [done|].
    by destruct (isTerminal st rules).
Qed.

(** Side 1 is empty, side 0 still holds seeds. *)
Lemma sweep_law_witness :
  let rules := mkRules 3 4 true true KALAH false in
  let st := mkState [2; 0; 5] [0; 0; 0] 7 10 Side1 None in
  sized rules st
  ∧ finalizeIfTerminal st rules = mkState [0; 0; 0] [0; 0; 0] 14 10 Side1 None
  ∧ (∀ s, store (finalizeIfTerminal st rules) s = store st s + sumZ (pits st s)).
Proof.
  intros rules st.
  assert (sized rules st) as Hsz by (intros []; reflexivity).
  split; [exact Hsz|]. split; [reflexivity|].
  intros s.
  exact (proj2 (proj2 (proj1 (sweep_law rules st Hsz) eq_refl eq_refl s))).
Defined.

(** ** The store model agrees with the functional one *)

Section AliasFacts.
Context (rules : Rules).

Lemma run_bind {A B} (m : Alias.M A) (k : A → Alias.M B) h a h' :
  m h = (a, h') → (m ≫= k) h = k a h'.
Proof. unfold mbind, Alias.M_bind. by intros ->. Qed.

Lemma run_read h1 st h2 : Alias.read (length h1) (h1 ++ st :: h2) = (st, h1 ++ st :: h2).
Proof. unfold Alias.read. by rewrite list_lookup_middle by done. Qed.

Lemma run_read_grown h1 st h2 new :
  Alias.read (length h1) ((h1 ++ st :: h2) ++ new)
  = (st, (h1 ++ st :: h2) ++ new).
Proof.
  unfold Alias.read. rewrite lookup_app_l.
  - by rewrite list_lookup_middle by done.
  - rewrite length_app. simpl. lia.
Qed.

Lemma run_write h1 st h2 f :
  Alias.write (length h1) f (h1 ++ st :: h2) = (tt, h1 ++ f st :: h2).
Proof.
  unfold Alias.write. f_equal.
  rewrite <- (Nat.add_0_r (length h1)). by rewrite alter_app_r.
Qed.

Lemma run_forEach_write {A} (l : list A) (f : GameState → A → GameState) h1 st h2 :
  Alias.forEach l (λ x, Alias.write (length h1) (λ s, f s x)) (h1 ++ st :: h2)
  = (tt, h1 ++ foldl f st l :: h2).
Proof.
  revert st. induction l as [|x l IH]; intros st; simpl; [done|].
  erewrite run_bind by apply run_write. apply IH.
Qed.

Lemma run_isTerminal h1 st h2 :
  Alias.isTerminal (length h1) rules (h1 ++ st :: h2)
  = (isTerminal st rules, h1 ++ st :: h2).
Proof. unfold Alias.isTerminal. by erewrite run_bind by apply run_read. Qed.

Lemma run_cloneState h1 st h2 :
  Alias.cloneState (length h1) (h1 ++ st :: h2)
  = (length (h1 ++ st :: h2), (h1 ++ st :: h2) ++ [cloneState st]).
Proof. unfold Alias.cloneState. by erewrite run_bind by apply run_read. Qed.

Lemma run_finalizeIfTerminal h1 st h2 :
  Alias.finalizeIfTerminal (length h1) rules (h1 ++ st :: h2)
  = if isTerminal st rules && sweepOnGameEnd rules
    then (length (h1 ++ st :: h2), (h1 ++ st :: h2) ++ [finalizeIfTerminal st rules])
    else (length h1, h1 ++ st :: h2).
Proof.
  unfold Alias.finalizeIfTerminal, finalizeIfTerminal.
  erewrite run_bind by apply run_isTerminal.
  destruct (isTerminal st rules); simpl; [|done].
  destruct (sweepOnGameEnd rules); simpl; [|done].
  erewrite run_bind by apply run_cloneState.
  erewrite run_bind.
  2:{ apply (run_forEach_write [Side0; Side1] (sweepSide (pitsPerSide rules))
               (h1 ++ st :: h2) (cloneState st) []). }
  done.
Qed.

(** [playMove] on the store: on failure the store is left as it was; on
    success the objects that existed are left as they were, the result
    state is an object that did not exist before, and the result is the
    one of the functional [playMove]. *)
Lemma run_playMove h1 st h2 p :
  match playMove st rules p with
  | PlayError e =>
      Alias.playMove (length h1) rules p (h1 ++ st :: h2)
      = (PlayError e, h1 ++ st :: h2)
  | PlayOk res =>
      ∃ a new,
        Alias.playMove (length h1) rules p (h1 ++ st :: h2)
        = (PlayOk (mkResult a (path res) (mover res) (pitIndex res)
                     (extraTurn res) (capture res) (terminal res)),
           (h1 ++ st :: h2) ++ new)
        ∧ (length (h1 ++ st :: h2) ≤ a)%nat
        ∧ ((h1 ++ st :: h2) ++ new) !! a = Some (state res)
  end.
Proof.
  rewrite playMove_unfold. unfold Alias.playMove.
  erewrite run_bind by apply run_read.
  destruct (_ || _); [done|]. destruct (_ && _); [done|].
  unfold Alias.sowPath.
  erewrite run_bind by (erewrite run_bind by apply run_read; reflexivity).
  erewrite run_bind by apply run_cloneState.
  set (h := h1 ++ st :: h2).
  erewrite run_bind by apply (run_write h _ []).
  erewrite run_bind by apply run_read_grown. fold h.
  erewrite run_bind by apply (run_forEach_write _ dropSeed h _ []).
  erewrite run_bind by apply (run_read h _ []).
  erewrite run_bind by apply (run_write h _ []).
  erewrite run_bind by apply (run_write h _ []).
  erewrite run_bind by apply (run_isTerminal h _ []).
  fold (emptied st (toMove st) p). fold (sown rules st p).
  fold (afterCapture rules st p). fold (beforeSweep rules st p).
  pose proof (run_finalizeIfTerminal h (beforeSweep rules st p) []) as Hfin.
  destruct (isTerminal (beforeSweep rules st p) rules && sweepOnGameEnd rules) eqn:E;
    erewrite run_bind by exact Hfin.
  - erewrite run_bind by apply (run_isTerminal (h ++ [_]) _ []).
    eexists _, [_; _]. split; [rewrite <- app_assoc; reflexivity|].
    split; [rewrite !length_app; simpl; lia|].
    match goal with
    | |- (?l ++ [?x; ?y]) !! _ = _ =>
        change (l ++ [x; y]) with (l ++ ([x] ++ [y])); rewrite (app_assoc l [x] [y])
    end.
    by apply list_lookup_middle.
  - assert (finalizeIfTerminal (beforeSweep rules st p) rules = beforeSweep rules st p)
      as ->.
    { unfold finalizeIfTerminal. apply andb_false_iff in E as [-> | ->]; [done|].
      by destruct (isTerminal _ _). }
    erewrite run_bind by apply (run_isTerminal h _ []).
    eexists _, [_]. split; [reflexivity|]. split; [done|].
    by apply list_lookup_middle.
Qed.
End AliasFacts.

(** ** Move errors *)

(** C9.  [playMove] on a state of the data model returns the failure
    ["pitIndex out of range"] exactly when [pitIndex] is outside [[0, n)]
    (whatever the pit holds: this check comes first), the failure
    ["empty pit"] exactly when the index is in range, the chosen pit holds
    zero seeds and [allowMoveFromEmpty] is off, and a success result in
    every other case.  It is a total function: no case is left in which it
    would abort.  On the store of state objects, a failing call leaves the
    store exactly as it was (the input object is not written and no object
    is created), and a successful call leaves every existing object,
    the input included, as it was and returns a new object. *)
Theorem move_errors rules st p :
  sized rules st →
  let n := pitsPerSide rules in
  let outOfRange := p < 0 ∨ n ≤ p in
  let emptyPit := allowMoveFromEmpty rules = false ∧ pit st (toMove st) p = 0 in
  (playMove st rules p = PlayError "pitIndex out of range" ↔ outOfRange)
  ∧ (playMove st rules p = PlayError "empty pit" ↔ ¬ outOfRange ∧ emptyPit)
  ∧ ((∃ res, playMove st rules p = PlayOk res) ↔ ¬ outOfRange ∧ ¬ emptyPit)
  ∧ (∀ h1 h2,
       let h := h1 ++ st :: h2 in
       match Alias.playMove (length h1) rules p h with
       | (PlayError e, h') => playMove st rules p = PlayError e ∧ h' = h
       | (PlayOk resA, h') =>
           (∃ new, h' = h ++ new) ∧ (length h ≤ state resA)%nat
           ∧ ∃ res, playMove st rules p = PlayOk res
                    ∧ h' !! state resA = Some (state res)
       end).
Proof.
  intros _ n outOfRange emptyPit. subst n outOfRange emptyPit.
  split; [|split; [|split]].
  - rewrite playMove_unfold.
    destruct (Z.ltb_spec p 0); simpl; [intuition lia|].
    destruct (Z.geb_spec p (pitsPerSide rules)); simpl; [intuition lia|].
    split; [|lia]. by destruct (_ && _).
  - rewrite playMove_unfold.
    destruct (Z.ltb_spec p 0); simpl; [split; [done|lia]|].
    destruct (Z.geb_spec p (pitsPerSide rules)); simpl; [split; [done|lia]|].
    destruct (allowMoveFromEmpty rules); simpl; [split; [done|intuition discriminate]|].
    destruct (Z.eqb_spec (pit st (toMove st) p) 0); [intuition lia|].
    split; [done|]. intuition lia.
  - split.
    + intros [res Hres]. apply playMove_ok_inv in Hres as ([Hp He] & _).
      split; [lia|]. intros [Ha H0]. destruct He; congruence.
    + intros [Hr He]. apply playMove_accepted. split; [lia|].
      destruct (allowMoveFromEmpty rules); [by left|right].
      intros H0. by apply He.
  - intros h1 h2 h. subst h.
    pose proof (run_playMove rules h1 st h2 p) as Hrun.
    destruct (playMove st rules p) as [e|res].
    + by rewrite Hrun.
    + destruct Hrun as (a & new & -> & Ha & Hlook). simpl.
      split; [by exists new|]. split; [done|]. by exists res.
Qed.

(** The standard opening position held at address 1 of a store of three
    objects; pit index 6 is out of range. *)
Lemma move_errors_witness :
  let rules := mkRules 6 4 true true KALAH false in
  let st := initStandard rules 0 in
  sized rules st
  ∧ playMove st rules 6 = PlayError "pitIndex out of range"
  ∧ Alias.playMove 1 rules 6 [st; st; st]
    = (PlayError "pitIndex out of range", [st; st; st]).
Proof.
  intros rules st.
  assert (sized rules st) as Hsz by (intros []; reflexivity).
  split; [exact Hsz|].
  pose proof (move_errors rules st 6 Hsz) as (Hrange & _ & _ & Hstore).
  split; [apply Hrange; right; simpl; lia|].
  reflexivity.
Defined.

(** ** The capture law *)

Section CaptureLaw.
Context (rules : Rules).
Implicit Types (st ns : GameState) (s mover : Side).
Local Abbreviation n := (pitsPerSide rules).

Lemma store_finalizeIfTerminal st s :
  sized rules st →
  store (finalizeIfTerminal st rules) s = store st s + sweptInto rules st s.
Proof.
  intros Hsz. rewrite finalizeIfTerminal_spec by done. unfold sweptInto.
  destruct (_ && _); [by destruct s|lia].
Qed.

Lemma pit_finalizeIfTerminal_zero st s i :
  sized rules st → pit st s i = 0 → pit (finalizeIfTerminal st rules) s i = 0.
Proof.
  intros Hsz H0. rewrite finalizeIfTerminal_spec by done.
  destruct (_ && _); [|done]. unfold pit.
  replace (pits (swept rules st) s) with (replicate (Z.to_nat n) 0) by (by destruct s).
  destruct (replicate _ _ !! _) as [x|] eqn:E; [|done].
  by apply lookup_replicate in E as [-> _].
Qed.

Lemma store_sown st p s :
  store (sown rules st p) s
  = store st s + storeDrops s (sowPath st rules (toMove st) p).
Proof.
  unfold sown. rewrite store_sow. unfold emptied.
  by rewrite store_set_pit, store_cloneState.
Qed.

Lemma pits_captureAt mover ns i :
  sized rules ns → 0 ≤ i < n →
  pit (captureAt rules mover ns i).1 mover i = 0
  ∧ pit (captureAt rules mover ns i).1 (other mover) (n - 1 - i) = 0.
Proof.
  intros Hsz Hi. simpl. rewrite !pit_set_store. split.
  - apply (pit_set_pit_same rules); [by apply sized_set_pit|done].
  - rewrite (pit_set_pit_other_side mover (other mover)) by (by destruct mover).
    apply (pit_set_pit_same rules); [done|lia].
Qed.

Lemma store_captureAt mover ns i s :
  store (captureAt rules mover ns i).1 s
  = store ns s
    + if Side_eqb mover s then pit ns (other mover) (n - 1 - i) + 1 else 0.
Proof.
  simpl. rewrite store_set_store, !store_set_pit.
  destruct (Side_eqb mover s) eqn:E; [|lia].
  apply Side_eqb_eq in E as ->. lia.
Qed.
End CaptureLaw.

(** C2, as the code has it.  For a successful move on a state of the data
    model under [captureRule = KALAH], with [ns] the board after the sowing
    loop: a capture is reported iff the last sown seed landed in a pit [i]
    of the mover's own side that held 0 seeds before the move began and
    holds exactly 1 after sowing, and the mirror pit [n-1-i] of the opponent
    holds more than 0 seeds after sowing.  When it is reported, the
    descriptor is [(i, n-1-i, mirror count after sowing + 1)], both pits
    read 0 in the returned state, and the mover's store in the returned
    state is its store before the move plus the seeds this move sowed into
    it plus the reported count, plus what a sweep at the end of the move
    adds.  When it is not reported, the capture block leaves the sown board
    as it is and the mover's store gains the seeds sown into it, plus what a
    sweep adds. *)
Theorem capture_law rules st p res :
  wf rules st → captureRule rules = KALAH → playMove st rules p = PlayOk res →
  let n := pitsPerSide rules in
  let mv := mover res in
  let ns := sown rules st p in
  let sweep := sweptInto rules (beforeSweep rules st p) mv in
  (happened (capture res) = true
   ↔ ∃ i, last (path res) = Some (LocPit mv i) ∧ pit st mv i = 0
          ∧ pit ns mv i = 1 ∧ 0 < pit ns (other mv) (n - 1 - i))
  ∧ (∀ i, happened (capture res) = true → last (path res) = Some (LocPit mv i) →
       capture res = Captured i (n - 1 - i) (pit ns (other mv) (n - 1 - i) + 1)
       ∧ pit (state res) mv i = 0
       ∧ pit (state res) (other mv) (n - 1 - i) = 0
       ∧ store (state res) mv
         = store st mv + storeDrops mv (path res)
           + (pit ns (other mv) (n - 1 - i) + 1) + sweep)
  ∧ (happened (capture res) = false →
       capture res = NoCapture
       ∧ afterCapture rules st p = ns
       ∧ store (state res) mv = store st mv + storeDrops mv (path res) + sweep).
Proof.
  intros Hwf Hk Hplay n mv ns sweep. subst n mv ns sweep.
  apply playMove_ok_inv in Hplay as ([Hp _] & Hst & Hpath & Hm & _ & _ & Hcap).
  rewrite Hm, Hst.
  pose proof (wf_beforeSweep rules st p Hwf Hp) as [Hszb _].
  pose proof (wf_sown rules st p Hwf Hp) as [Hszs _].
  rewrite store_finalizeIfTerminal by done.
  assert (∀ s, store (beforeSweep rules st p) s = store (afterCapture rules st p) s)
    as Hsb by (intros s; apply store_set_toMove).
  assert (∀ s i, pit (beforeSweep rules st p) s i = pit (afterCapture rules st p) s i)
    as Hpb by (intros s i; apply pit_set_toMove).
  rewrite Hsb.
  assert (afterCapture rules st p
          = (captureStep st rules (toMove st) (sown rules st p) (last (path res))).1)
    as Hac by (by rewrite Hpath).
  rewrite Hac in Hpb |- *.
  assert (∀ loc, last (path res) = Some loc → loc_ok (pitsPerSide rules) (toMove st) loc)
    as Hok.
  { intros loc. apply last_ok. rewrite Hpath. by apply sowPath_ok. }
  destruct (captureStep_cases rules st (toMove st) (sown rules st p) (last (path res)) Hok)
    as [[Hstep Hno]|(i & Hi & Hc & Hstep)];
    rewrite Hstep in Hcap, Hpb |- *; rewrite Hcap; cbn [fst snd happened] in *.
  - split; [|split].
    + split; [done|]. intros (i & Hl & H0 & H1 & Hopp).
      destruct (Hno i). by split.
    + done.
    + intros _. split; [done|]. split; [done|].
      by rewrite store_sown, <- Hpath.
  - destruct Hc as (_ & Hl & H0 & H1 & Hopp). split; [|split].
    + split; [|done]. intros _. by exists i.
    + intros i' _ Hl'. rewrite Hl in Hl'. injection Hl' as <-.
      split; [done|].
      pose proof (pits_captureAt rules (toMove st) (sown rules st p) i Hszs Hi) as [Hz1 Hz2].
      split; [|split].
      * apply pit_finalizeIfTerminal_zero; [done|]. by rewrite Hpb.
      * apply pit_finalizeIfTerminal_zero; [done|]. by rewrite Hpb.
      * by rewrite store_captureAt, Side_eqb_refl, store_sown, <- Hpath.
    + done.
Qed.

(** The second scenario of the specification: pit 1 of side 0 is empty,
    pit 4 of side 1 holds 5 seeds, and the single seed of pit 0 lands in
    pit 1. *)
Lemma capture_law_witness :
  let rules := mkRules 6 4 true true KALAH false in
  let st := mkState [1; 0; 4; 4; 4; 4] [4; 4; 4; 4; 5; 4] 0 0 Side0 None in
  ∃ res, playMove st rules 0 = PlayOk res
  ∧ capture res = Captured 1 4 6
  ∧ pit (state res) Side0 1 = 0 ∧ pit (state res) Side1 4 = 0
  ∧ store (state res) Side0 = 6.
Proof.
  intros rules st.
  assert (wf rules st) as Hwf.
  { split; intros []; simpl; [reflexivity|reflexivity| |];
      repeat constructor; lia. }
  destruct (playMove st rules 0) as [e|res] eqn:Hplay; [discriminate Hplay|].
  exists res. split; [reflexivity|].
  destruct (capture_law rules st 0 res Hwf eq_refl Hplay) as (_ & Hfire & _).
  injection Hplay as <-.
  destruct (Hfire 1 eq_refl eq_refl) as (Hc & Hz1 & Hz2 & Hs).
  split; [exact Hc|]. split; [exact Hz1|]. split; [exact Hz2|]. exact Hs.
Defined.

(** Two pits a side.  Six seeds from pit 0 go round the ring and the last
    one lands in pit 1 of the mover, which was empty before the move and
    whose mirror pit held a seed before the move and holds two after
    sowing: no capture is reported, because pit 1 then holds 2.  Four seeds
    from pit 1 pass the store and the two empty pits of the opponent and end
    in the empty pit 0: the capture is reported although the mirror pit was
    empty before the move, and the store gains 3, not the 2 reported. *)
Lemma capture_law_counterexample :
  let rules := mkRules 2 4 true false KALAH false in
  let st := mkState [6; 0] [1; 1] 0 0 Side0 None in
  let st' := mkState [0; 4] [0; 0] 0 0 Side0 None in
  (∃ res, playMove st rules 0 = PlayOk res
     ∧ last (path res) = Some (LocPit Side0 1)
     ∧ pit st Side0 1 = 0 ∧ 0 < pit st Side1 (2 - 1 - 1)
     ∧ 0 < pit (sown rules st 0) Side1 (2 - 1 - 1)
     ∧ happened (capture res) = false)
  ∧ (∃ res, playMove st' rules 1 = PlayOk res
     ∧ last (path res) = Some (LocPit Side0 0)
     ∧ pit st' Side1 (2 - 1 - 0) = 0
     ∧ capture res = Captured 0 1 2
     ∧ store (state res) Side0 - store st' Side0 = 3).
Proof.
  intros rules st st'. split.
  - eexists. split; [vm_compute; reflexivity|]. simpl.
    repeat split; vm_compute; congruence.
  - eexists. split; [vm_compute; reflexivity|]. simpl.
    repeat split; vm_compute; congruence.
Qed.

(** ** Progress of a play line *)

Lemma ahead_irrefl st : ¬ ahead st st.
Proof. unfold ahead. lia. Qed.

Lemma ahead_trans st1 st2 st3 : ahead st1 st2 → ahead st2 st3 → ahead st1 st3.
Proof. unfold ahead. lia. Qed.

Section Progress.
Context (rules : Rules).
Implicit Types (st ns : GameState) (p : Z).
Local Abbreviation n := (pitsPerSide rules).

Lemma inStores_sown st p :
  inStores (sown rules st p)
  = inStores st + storeDrops (toMove st) (sowPath st rules (toMove st) p)
    + storeDrops (other (toMove st)) (sowPath st rules (toMove st) p).
Proof.
  rewrite !inStores_eq, !store_sown. destruct (toMove st); simpl; lia.
Qed.

Lemma inStores_afterCapture st p :
  0 ≤ p < n → wf rules st →
  inStores (sown rules st p) ≤ inStores (afterCapture rules st p)
  ∧ (inStores (sown rules st p) = inStores (afterCapture rules st p) →
     afterCapture rules st p = sown rules st p).
Proof.
  intros Hp Hwf. unfold afterCapture.
  edestruct (captureStep_cases rules st (toMove st) (sown rules st p))
    as [[-> _]|(i & Hi & Hc & ->)].
  - intros loc. apply last_ok. by apply sowPath_ok.
  - done.
  - rewrite inStores_captureAt. destruct Hc as (_ & _ & _ & _ & Hopp). lia.
Qed.

Lemma inStores_finalizeIfTerminal st :
  wf rules st →
  inStores st ≤ inStores (finalizeIfTerminal st rules)
  ∧ (inStores st = inStores (finalizeIfTerminal st rules) →
     advance (finalizeIfTerminal st rules) = advance st).
Proof.
  intros [Hsz Hnn]. rewrite finalizeIfTerminal_spec by done.
  destruct (_ && _); [|done].
  pose proof (sumZ_nonneg _ (Hnn Side0)) as H0.
  pose proof (sumZ_nonneg _ (Hnn Side1)) as H1.
  simpl in H0, H1. unfold inStores, swept. simpl. split; [lia|].
  intros Heq.
  assert (∀ s, pits st s = replicate (Z.to_nat n) 0) as Hz.
  { intros s. apply sideEmpty_replicate; [done|].
    apply sideEmpty_sum; [done|]. destruct s; simpl; lia. }
  pose proof (Hz Side0) as E0. pose proof (Hz Side1) as E1.
  cbn [pits] in E0, E1. unfold advance. cbn [pits0 pits1].
  by rewrite E0, E1.
Qed.

(** A successful move that sows at least one seed puts the state ahead. *)
Lemma playMove_ahead st p res :
  wf rules st → pit st (toMove st) p ≠ 0 →
  playMove st rules p = PlayOk res → ahead st (state res).
Proof.
  intros Hwf Hne Hplay.
  apply playMove_ok_inv in Hplay as ([Hp _] & -> & _).
  pose proof (pit_nonneg rules st (toMove st) p Hwf) as Hnn.
  pose proof (inStores_sown st p) as Hs.
  pose proof (storeDrops_nonneg (toMove st) (sowPath st rules (toMove st) p)) as Hd1.
  pose proof (storeDrops_nonneg (other (toMove st)) (sowPath st rules (toMove st) p)) as Hd2.
  pose proof (inStores_afterCapture st p Hp Hwf) as [Hc1 Hc2].
  pose proof (inStores_finalizeIfTerminal (beforeSweep rules st p)
                (wf_beforeSweep rules st p Hwf Hp)) as [Hf1 Hf2].
  assert (inStores (beforeSweep rules st p) = inStores (afterCapture rules st p))
    as Hb by done.
  assert (advance (beforeSweep rules st p) = advance (afterCapture rules st p))
    as Ha by done.
  unfold ahead.
  destruct (decide (inStores st = inStores (finalizeIfTerminal (beforeSweep rules st p) rules)))
    as [Heq|Hneq]; [right; split; [done|]|left; lia].
  rewrite Hf2, Ha, Hc2 by lia.
  assert (storeDrops (toMove st) (sowPath st rules (toMove st) p) = 0) as Hno by lia.
  rewrite sowPath_loop in Hno by done.
  apply sowLoop_no_store in Hno; [|lia].
  unfold sown. rewrite sowPath_loop by done.
  pose proof (advance_sow_own rules (toMove st) (p + 1) _
                (emptied st (toMove st) p) (wf_emptied rules st p Hwf)
                ltac:(lia) Hno) as Hadv.
  rewrite sowLoop_length in Hadv.
  unfold emptied in Hadv at 1.
  rewrite (advance_set_pit rules) in Hadv; [|apply wf_cloneState, Hwf|done].
  rewrite pit_cloneState in Hadv.
  assert (advance (cloneState st) = advance st) as Hcl by done.
  rewrite Hcl in Hadv. nia.
Qed.

(** With [allowMoveFromEmpty] off every state of a play line is ahead of
    the states before it. *)
Lemma line_ahead l :
  allowMoveFromEmpty rules = false → play_line rules l →
  ∀ st l', l = st :: l' → wf rules st → Forall (ahead st) l'.
Proof.
  intros Hallow. induction 1 as [st0|st0 st1 l0 Hstep Hline IH];
    intros st l' [= <- <-] Hwf; [constructor|].
  destruct Hstep as (p & res & Hplay & <-).
  assert (ahead st0 (state res)) as Hah.
  { eapply playMove_ahead; [done| |done].
    apply playMove_ok_inv in Hplay as ([_ [He|He]] & _); [congruence|done]. }
  constructor; [done|].
  eapply Forall_impl; [apply (IH _ _ eq_refl); by eapply wf_playMove|].
  simpl. intros x Hx. by eapply ahead_trans.
Qed.

Lemma ahead_not_same a b : ahead a b → ¬ sameState a b.
Proof.
  unfold ahead, inStores, advance. intros H (E0 & E1 & E2 & E3 & _).
  rewrite E0, E1, E2, E3 in H. lia.
Qed.

(** With [allowMoveFromEmpty] off a later state of a play line is ahead of
    an earlier one. *)
Lemma line_later_ahead l :
  allowMoveFromEmpty rules = false → play_line rules l →
  (∀ st, head l = Some st → wf rules st) →
  ∀ i j a b, (i < j)%nat → l !! i = Some a → l !! j = Some b → ahead a b.
Proof.
  intros Hallow. induction 1 as [st0|st0 st1 l0 Hstep Hline IH]; intros Hwf i j a b Hij Ha Hb.
  - destruct j as [|j]; [lia|]. by destruct j.
  - pose proof (Hwf _ eq_refl) as Hwf0.
    destruct j as [|j]; [lia|]. simpl in Hb.
    destruct i as [|i]; simpl in Ha.
    + injection Ha as <-.
      pose proof (line_ahead _ Hallow (line_cons _ _ _ _ Hstep Hline) _ _ eq_refl Hwf0)
        as Hall.
      rewrite Forall_forall in Hall. apply Hall. by eapply list_elem_of_lookup_2.
    + apply (IH ltac:(intros st [= <-]; destruct Hstep as (p & res & Hplay & <-);
                      by eapply wf_playMove) i j); [lia|done|done].
Qed.

Lemma getValidMoves_empty st :
  allowMoveFromEmpty rules = false → sideEmpty rules st (toMove st) →
  getValidMoves st rules = [].
Proof.
  intros Hallow Hempty. unfold getValidMoves. rewrite Hallow. simpl.
  assert (∀ l, Forall (λ i, 0 ≤ i < n) l →
               List.filter (λ i, negb (pit st (toMove st) i =? 0)) l = []) as H.
  { induction 1 as [|i l Hi _ IH]; simpl; [done|].
    by rewrite (Hempty i Hi), IH. }
  apply H, Forall_forall. intros i. apply elem_of_range.
Qed.
End Progress.

(** C7, as the code has it.  With [allowMoveFromEmpty] off: along a play
    line that starts in the data model no state occurs twice, that is, two
    states at different places of the line differ in a pit array, a store or
    the side to move; a state whose side to move has no seeds has no legal
    move; and a terminal state returned by a successful move under
    [sweepOnGameEnd] has no legal move. *)
Theorem state_machine_laws rules :
  allowMoveFromEmpty rules = false →
  (∀ st l i j a b, wf rules st → play_line rules (st :: l) → (i < j)%nat →
     (st :: l) !! i = Some a → (st :: l) !! j = Some b → ¬ sameState a b)
  ∧ (∀ st, sideEmpty rules st (toMove st) → getValidMoves st rules = [])
  ∧ (∀ st p res, wf rules st → sweepOnGameEnd rules = true →
       playMove st rules p = PlayOk res → isTerminal (state res) rules = true →
       getValidMoves (state res) rules = []).
Proof.
  intros Hallow. split; [|split].
  - intros st l i j a b Hwf Hline Hij Ha Hb. apply ahead_not_same.
    apply (line_later_ahead rules (st :: l) Hallow Hline
             ltac:(by intros ? [= <-]) i j); done.
  - intros st. by apply getValidMoves_empty.
  - intros st p res Hwf Hsweep Hplay Hterm.
    apply getValidMoves_empty; [done|].
    apply playMove_ok_inv in Hplay as ([Hp _] & Hst & _).
    pose proof (wf_beforeSweep rules st p Hwf Hp) as Hwfb.
    rewrite Hst in *. rewrite finalizeIfTerminal_spec in * by apply Hwfb.
    rewrite Hsweep, andb_true_r in *.
    destruct (isTerminal (beforeSweep rules st p) rules) eqn:E; [|congruence].
    apply sideEmpty_replicate; [apply wf_swept; lia|].
    by destruct (toMove (swept rules (beforeSweep rules st p))).
Qed.

(** The standard rules, and a position one move before the end. *)
Lemma state_machine_laws_witness :
  let rules := mkRules 6 4 true true KALAH false in
  let st := mkState [0; 0; 0; 0; 0; 1] [0; 0; 3; 0; 0; 0] 20 24 Side0 None in
  let st' := mkState [0; 0; 0; 0; 0; 0] [0; 0; 0; 0; 0; 0] 21 27 Side0 None in
  allowMoveFromEmpty rules = false
  ∧ play_line rules [st; st']
  ∧ ¬ sameState st st'
  ∧ getValidMoves st' rules = [].
Proof.
  intros rules st st'.
  destruct (state_machine_laws rules eq_refl) as (Hdistinct & Hempty & _).
  assert (play_line rules [st; st']) as Hline.
  { apply line_cons; [|apply line_one].
    exists 5; eexists; split; [vm_compute; reflexivity|reflexivity]. }
  assert (wf rules st) as Hwf.
  { split; intros []; simpl; [reflexivity|reflexivity| |];
      repeat constructor; lia. }
  split; [reflexivity|]. split; [exact Hline|].
  split; [exact (Hdistinct st [st'] 0%nat 1%nat st st' Hwf Hline
                   (Nat.lt_0_succ 0) eq_refl eq_refl)|].
  apply Hempty. intros i Hi. simpl in Hi.
  assert (i = 0 ∨ i = 1 ∨ i = 2 ∨ i = 3 ∨ i = 4 ∨ i = 5) as Hcase by lia.
  destruct Hcase as [->|[->|[->|[->|[->| ->]]]]]; reflexivity.
Defined.

(** With [allowMoveFromEmpty] on, the standard game repeats a state: after
    each side has emptied its pit 2, the two sides move from that empty pit
    in turn, and the third such move gives the state the first one gave.
    With [sweepOnGameEnd] off, a successful move returns a terminal state in
    which the side to move has two legal moves. *)
Lemma state_machine_laws_counterexample :
  (let rules := mkRules 6 4 true true KALAH true in
   ∃ l a b,
     play_line rules (initStandard rules 0 :: l)
     ∧ (initStandard rules 0 :: l) !! 3%nat = Some a
     ∧ (initStandard rules 0 :: l) !! 5%nat = Some b
     ∧ sameState a b)
  ∧ (let rules := mkRules 2 4 true false KALAH false in
     let st := mkState [0; 2] [0; 1] 0 0 Side0 None in
     ∃ res, playMove st rules 1 = PlayOk res
       ∧ isTerminal (state res) rules = true
       ∧ allowMoveFromEmpty rules = false
       ∧ getValidMoves (state res) rules = [0; 1]).
Proof.
  split.
  - intros rules.
    set (s1 := mkState [4; 4; 0; 5; 5; 5] [4; 4; 4; 4; 4; 4] 1 0 Side0 None).
    set (s2 := mkState [4; 4; 0; 5; 5; 5] [4; 4; 4; 4; 4; 4] 1 0 Side1 None).
    set (s3 := mkState [4; 4; 0; 5; 5; 5] [4; 4; 0; 5; 5; 5] 1 1 Side1 None).
    set (s4 := mkState [4; 4; 0; 5; 5; 5] [4; 4; 0; 5; 5; 5] 1 1 Side0 None).
    exists [s1; s2; s3; s4; s3], s3, s3.
    split; [|by repeat split].
    apply line_cons; [exists 2; eexists; split; [vm_compute; reflexivity|reflexivity]|].
    apply line_cons; [exists 2; eexists; split; [vm_compute; reflexivity|reflexivity]|].
    apply line_cons; [exists 2; eexists; split; [vm_compute; reflexivity|reflexivity]|].
    apply line_cons; [exists 2; eexists; split; [vm_compute; reflexivity|reflexivity]|].
    apply line_cons; [exists 2; eexists; split; [vm_compute; reflexivity|reflexivity]|].
    apply line_one.
  - intros rules st. eexists. split; [vm_compute; reflexivity|].
    repeat split; vm_compute; reflexivity.
Qed.

(** ** Leaves of the search *)

Section Leaves.
Context (rules : Rules).
Implicit Types (st ns : GameState).
Local Abbreviation n := (pitsPerSide rules).

Lemma terminal_prop_set_pit s i v st :
  terminal_prop (set_pit s i v st) = terminal_prop st.
Proof. by destruct s. Qed.

Lemma terminal_prop_set_store s v st :
  terminal_prop (set_store s v st) = terminal_prop st.
Proof. by destruct s. Qed.

Lemma terminal_prop_sweepSide ns s :
  terminal_prop (sweepSide n ns s) = terminal_prop ns.
Proof.
  unfold sweepSide.
  assert (∀ l acc,
    terminal_prop
      (foldl (λ '(ns, sweep) i, (set_pit s i 0 ns, sweep + pit ns s i)) acc l).1
    = terminal_prop acc.1) as H.
  { induction l as [|i l IH]; intros [ns' sw]; simpl; [done|].
    by rewrite IH; simpl; rewrite terminal_prop_set_pit. }
  specialize (H (range n) (ns, 0)).
  destruct (foldl _ _ _) as [ns' sw]. simpl in *.
  by rewrite terminal_prop_set_store.
Qed.

Lemma terminal_prop_finalizeIfTerminal st :
  terminal_prop st = None → terminal_prop (finalizeIfTerminal st rules) = None.
Proof.
  intros H. unfold finalizeIfTerminal.
  destruct (isTerminal st rules); simpl; [|done].
  destruct (sweepOnGameEnd rules); simpl; [|done].
  by rewrite !terminal_prop_sweepSide.
Qed.

Lemma terminal_prop_captureStep st mover ns last :
  terminal_prop (captureStep st rules mover ns last).1 = terminal_prop ns.
Proof.
  unfold captureStep. repeat (case_match; try done).
  simpl. by rewrite terminal_prop_set_store, !terminal_prop_set_pit.
Qed.

(** The state a successful move returns has no [terminal] property: it is
    a copy made by [cloneState], and nothing in the engine assigns the
    property. *)
Lemma terminal_prop_playMove st p res :
  playMove st rules p = PlayOk res → terminal_prop (state res) = None.
Proof.
  intros Hplay. apply playMove_ok_inv in Hplay as (_ & -> & _).
  apply terminal_prop_finalizeIfTerminal.
  unfold beforeSweep, afterCapture, sown, emptied. simpl.
  by rewrite terminal_prop_captureStep, terminal_prop_sow, terminal_prop_set_pit.
Qed.

(** The two base cases that the recursion does take. *)
Lemma alphabeta_depth_leaf st depth alpha beta rootP sP sO rep :
  depth ≤ 0 →
  alphabeta st rules depth alpha beta rootP sP sO rep
  = Fin (evalCost st rules rootP sP sO rep).
Proof.
  intros Hd. unfold alphabeta. by replace (Z.to_nat depth) with O by lia.
Qed.

Lemma alphabeta_no_moves_leaf st depth alpha beta rootP sP sO rep :
  getValidMoves st rules = [] →
  alphabeta st rules depth alpha beta rootP sP sO rep
  = Fin (evalCost st rules rootP sP sO rep).
Proof.
  intros Hm. unfold alphabeta. destruct (Z.to_nat depth); simpl; [done|].
  rewrite Hm. simpl. by destruct (terminal_truthy st).
Qed.
End Leaves.

(** C5, where the code departs from it.  Under [sweepOnGameEnd = false] the
    only legal move of the root below leaves side 0 without seeds: the child
    is terminal for [isTerminal], and the move result says so.  The child
    is reached with one ply left.  It carries no [terminal] property, the
    test [st.terminal] is false, side 1 has two legal moves, and the
    recursion expands them: it returns 5, not the evaluation 15 of the
    child, and [bestMove] reports 5. *)
Theorem alphabeta_expands_terminal :
  let rules := mkRules 2 4 true false KALAH false in
  let root := mkState [0; 2] [0; 1] 0 0 Side0 None in
  ∃ res, playMove root rules 1 = PlayOk res
  ∧ isTerminal (state res) rules = true
  ∧ terminal res = true
  ∧ terminal_truthy (state res) = false
  ∧ evalCost (state res) rules Side0 0 0 0 = 15
  ∧ alphabeta (state res) rules 1 NegInf PosInf Side0 0 0 0 = Fin 5
  ∧ bestMove root rules 2 = mkBest true 1 (Fin 5).
Proof.
  intros rules root. eexists. split; [vm_compute; reflexivity|].
  repeat split; vm_compute; reflexivity.
Qed.

(** ** The root loop of [bestMove] *)

Lemma Score_leb_refl a : Score_leb a a = true.
Proof. destruct a; simpl; [done| |done]. apply Z.leb_refl. Qed.

Lemma Score_leb_trans a b c :
  Score_leb a b = true → Score_leb b c = true → Score_leb a c = true.
Proof.
  destruct a, b, c; simpl; try done. rewrite !Z.leb_le. lia.
Qed.

Lemma Score_leb_total a b : Score_leb a b = false → Score_leb b a = true.
Proof.
  destruct a, b; simpl; try done. rewrite Z.leb_gt, Z.leb_le. lia.
Qed.

Lemma Score_leb_antisym a b :
  Score_leb a b = true → Score_leb b a = true → a = b.
Proof.
  destruct a, b; simpl; try done. rewrite !Z.leb_le. intros. f_equal. lia.
Qed.

Lemma Score_max_ge_l a b : Score_leb a (Score_max a b) = true.
Proof.
  unfold Score_max. destruct (Score_leb a b) eqn:E; [done|apply Score_leb_refl].
Qed.

Lemma Score_max_ge_r a b : Score_leb b (Score_max a b) = true.
Proof.
  unfold Score_max. destruct (Score_leb a b) eqn:E;
    [apply Score_leb_refl|by apply Score_leb_total].
Qed.

(** [if (val > bestScore) bestScore = val] is [Math.max]. *)
Lemma bestScore_update val bestScore :
  (if Score_leb val bestScore then bestScore else val) = Score_max bestScore val.
Proof.
  unfold Score_max.
  destruct (Score_leb val bestScore) eqn:E1, (Score_leb bestScore val) eqn:E2;
    try done.
  - by apply Score_leb_antisym.
  - apply Score_leb_total in E1. congruence.
Qed.

Lemma insertDesc_perm x l : insertDesc x l ≡ₚ x :: l.
Proof.
  induction l as [|y l IH]; simpl; [done|].
  destruct (snd y >? snd x); [|done].
  rewrite IH. apply Permutation_swap.
Qed.

Lemma sortDesc_perm l : sortDesc l ≡ₚ l.
Proof.
  induction l as [|x l IH]; simpl; [done|].
  by rewrite insertDesc_perm, IH.
Qed.

(** [orderMoves] rearranges the candidates and drops none. *)
Lemma orderMoves_perm st rules moves : orderMoves st rules moves ≡ₚ moves.
Proof.
  unfold orderMoves. rewrite sortDesc_perm, <- list_fmap_compose.
  induction moves as [|mv moves IH]; simpl; [done|]. by rewrite IH.
Qed.

(** Every move that [getValidMoves] lists is accepted by [playMove]. *)
Lemma getValidMoves_accepted st rules :
  Forall (accepted rules st) (getValidMoves st rules).
Proof.
  apply Forall_forall. intros i Hi. apply list_elem_of_In in Hi.
  unfold getValidMoves in Hi. apply filter_In in Hi as [Hin Hf].
  apply list_elem_of_In, elem_of_range in Hin. split; [done|].
  destruct (allowMoveFromEmpty rules); [by left|right]. simpl in Hf.
  intros H0. by rewrite H0 in Hf.
Qed.

Lemma orderMoves_accepted st rules :
  Forall (accepted rules st) (orderMoves st rules (getValidMoves st rules)).
Proof.
  rewrite orderMoves_perm. apply getValidMoves_accepted.
Qed.

Lemma Score_max_finite a v : a ≠ PosInf → finite v → finite (Score_max a v).
Proof.
  intros Ha [z ->]. destruct a as [|x|]; [by exists z| |done].
  unfold Score_max. simpl. destruct (x <=? z); by eexists.
Qed.

Lemma Score_min_finite a v : a ≠ NegInf → finite v → finite (Score_min a v).
Proof.
  intros Ha [z ->]. destruct a as [|x|]; [done| |by exists z].
  unfold Score_min. simpl. destruct (x <=? z); by eexists.
Qed.

Section Finite.
Context (rules : Rules) (rootP : Side).
Context (child : GameState → Score → Score → Z → Score).
Hypothesis child_finite : ∀ st a b r, finite (child st a b r).

Lemma maxLoop_finite st rep ordered best alpha beta :
  Forall (accepted rules st) ordered →
  finite best ∨ (best = NegInf ∧ ordered ≠ []) →
  finite (maxLoop child st rules rootP rep ordered best alpha beta).
Proof.
  intros Hall. revert best alpha.
  induction Hall as [|mv ordered Hmv _ IH]; intros best alpha Hbest; simpl.
  - by destruct Hbest as [?|[_ ?]].
  - destruct (playMove_accepted rules st mv Hmv) as [res ->].
    set (val := child _ _ _ _).
    assert (finite (Score_max best val)) as Hfin.
    { apply Score_max_finite; [|apply child_finite].
      destruct Hbest as [[z ->]|[-> _]]; done. }
    destruct (Score_leb beta _); [done|]. apply IH. by left.
Qed.

Lemma minLoop_finite st rep ordered best alpha beta :
  Forall (accepted rules st) ordered →
  finite best ∨ (best = PosInf ∧ ordered ≠ []) →
  finite (minLoop child st rules rootP rep ordered best alpha beta).
Proof.
  intros Hall. revert best beta.
  induction Hall as [|mv ordered Hmv _ IH]; intros best beta Hbest; simpl.
  - by destruct Hbest as [?|[_ ?]].
  - destruct (playMove_accepted rules st mv Hmv) as [res ->].
    set (val := child _ _ _ _).
    assert (finite (Score_min best val)) as Hfin.
    { apply Score_min_finite; [|apply child_finite].
      destruct Hbest as [[z ->]|[-> _]]; done. }
    destruct (Score_leb _ alpha); [done|]. apply IH. by left.
Qed.
End Finite.

(** [alphabeta] returns a number, never an infinity: a node that is
    expanded has a legal move, and every legal move is accepted. *)
Lemma alphabeta_plies_finite d st rules alpha beta rootP sP sO rep :
  finite (alphabeta_plies d st rules alpha beta rootP sP sO rep).
Proof.
  revert st alpha beta rep. induction d as [|d IH]; intros st alpha beta rep; simpl.
  - by eexists.
  - destruct (terminal_truthy st); [by eexists|].
    destruct (getValidMoves st rules) as [|mv0 moves] eqn:Hm; [by eexists|].
    assert (orderMoves st rules (mv0 :: moves) ≠ []) as Hne.
    { intros E. pose proof (orderMoves_perm st rules (mv0 :: moves)) as Hp.
      rewrite E in Hp. by apply Permutation_nil_cons in Hp. }
    pose proof (orderMoves_accepted st rules) as Hall. rewrite Hm in Hall.
    simpl. destruct (Side_eqb (toMove st) rootP).
    + apply maxLoop_finite; [intros; apply IH|done|by right].
    + apply minLoop_finite; [intros; apply IH|done|by right].
Qed.

Lemma alphabeta_finite st rules depth alpha beta rootP sP sO rep :
  finite (alphabeta st rules depth alpha beta rootP sP sO rep).
Proof. apply alphabeta_plies_finite. Qed.

Lemma Score_max_idem a b : Score_max a (Score_max a b) = Score_max a b.
Proof.
  pose proof (Score_max_ge_l a b) as H. unfold Score_max at 1. by rewrite H.
Qed.

Section RootLoop.
Context (st : GameState) (rules : Rules) (d : Z) (sP sO : Z) (beta : Score).

Lemma rootLoop_spec ordered :
  Forall (accepted rules st) ordered →
  ∀ bestMv bestScore,
  ∃ mvF scoreF calls,
    rootLoop st rules d (toMove st) sP sO beta ordered bestMv bestScore bestScore
    = (mvF, scoreF, calls)
    ∧ call_move <$> calls = ordered
    ∧ (∀ k c, calls !! k = Some c →
         call_ok st rules d sP sO beta (foldl Score_max bestScore (call_val <$> take k calls)) c)
    ∧ ((mvF = bestMv ∧ scoreF = bestScore
        ∧ ∀ j c, calls !! j = Some c → Score_leb (call_val c) bestScore = true)
       ∨ (∃ k c, first_best calls k c ∧ mvF = call_move c ∧ scoreF = call_val c
                 ∧ Score_leb (call_val c) bestScore = false)).
Proof.
  induction 1 as [|mv ordered Hmv _ IH]; intros bestMv bestScore; simpl.
  - eexists _, _, _. split; [done|]. split; [done|]. split; [done|].
    left. done.
  - destruct (playMove_accepted rules st mv Hmv) as [res Hres]. rewrite Hres.
    pose proof (playMove_ok_inv rules st mv res Hres) as (_ & _ & _ & Hm & _).
    assert (countRep (toMove st) res 0 = if extraTurn res then 1 else 0) as Hrep.
    { unfold countRep. rewrite Hm, Side_eqb_refl. done. }
    rewrite Hrep.
    set (rep := if extraTurn res then 1 else 0).
    set (val := alphabeta (state res) rules (d - 1) bestScore beta (toMove st) sP sO rep).
    rewrite bestScore_update, Score_max_idem.
    destruct (IH (if Score_leb val bestScore then bestMv else mv)
                 (Score_max bestScore val))
      as (mvF & scoreF & calls & -> & Hmoves & Hcalls & Hbest).
    eexists _, _, _. split; [done|]. split; [by rewrite fmap_cons, Hmoves|].
    split.
    { intros [|k] c; simpl.
      - intros [= <-]. split; [done|]. split; [done|]. by exists res.
      - apply Hcalls. }
    pose proof (Score_max_ge_l bestScore val) as Hge_l.
    pose proof (Score_max_ge_r bestScore val) as Hge_r.
    destruct Hbest as [(-> & -> & Hle)|(k & c & (Hk & Hle & Hlt) & -> & -> & Hgt)].
    + destruct (Score_leb val bestScore) eqn:E.
      * left. rewrite <- bestScore_update, E. split; [done|]. split; [done|].
        intros [|j] c; simpl; [by intros [= <-]|].
        intros Hc. specialize (Hle _ _ Hc).
        by rewrite <- bestScore_update, E in Hle.
      * right. exists O, (mkCall mv bestScore beta rep val).
        rewrite <- bestScore_update, E in *.
        split; [|done]. split; [done|]. split; [|intros; lia].
        intros [|j] c'; simpl; [intros [= <-]; apply Score_leb_refl|apply Hle].
    + right. exists (S k), c.
      assert (∀ x, Score_leb x (Score_max bestScore val) = true →
                   Score_leb (call_val c) x = false) as Hbelow.
      { intros x Hx. destruct (Score_leb (call_val c) x) eqn:E; [|done].
        by rewrite (Score_leb_trans _ _ _ E Hx) in Hgt. }
      split; [|by rewrite Hbelow].
      split; [done|]. split.
      * intros [|j] c'; simpl; [|apply Hle].
        intros [= <-]. simpl. apply Score_leb_total. by apply Hbelow.
      * intros [|j] c' Hj; simpl; [|apply Hlt; lia].
        intros [= <-]. simpl. by apply Hbelow.
Qed.
End RootLoop.

(** ** The window is sound *)

Section ScoreOrder.
Implicit Types a b c : Score.

Lemma sle_refl a : sle a a.
Proof. apply Score_leb_refl. Qed.

Lemma sle_trans a b c : sle a b → sle b c → sle a c.
Proof. apply Score_leb_trans. Qed.

Lemma sle_antisym a b : sle a b → sle b a → a = b.
Proof. apply Score_leb_antisym. Qed.

Lemma sle_or_slt a b : sle a b ∨ slt b a.
Proof. unfold sle, slt. destruct (Score_leb a b); auto. Qed.

Lemma slt_sle a b : slt a b → sle a b.
Proof. apply Score_leb_total. Qed.

Lemma slt_not_sle a b : slt a b → sle b a → False.
Proof. unfold sle, slt. congruence. Qed.

Lemma sle_slt_trans a b c : sle a b → slt b c → slt a c.
Proof.
  intros Hab Hbc. destruct (sle_or_slt c a) as [Hca|]; [|done].
  destruct (slt_not_sle _ _ Hbc). by eapply sle_trans.
Qed.

Lemma slt_sle_trans a b c : slt a b → sle b c → slt a c.
Proof.
  intros Hab Hbc. destruct (sle_or_slt c a) as [Hca|]; [|done].
  destruct (slt_not_sle _ _ Hab). by eapply sle_trans.
Qed.

Lemma Score_max_l a b : sle b a → Score_max a b = a.
Proof.
  intros H. unfold Score_max. destruct (Score_leb a b) eqn:E; [|done].
  by apply sle_antisym.
Qed.

Lemma Score_max_r a b : sle a b → Score_max a b = b.
Proof. intros H. unfold Score_max. by rewrite H. Qed.

Lemma Score_max_lub a b c : sle a c → sle b c → sle (Score_max a b) c.
Proof. intros. unfold Score_max. by destruct (Score_leb a b). Qed.

Lemma Score_max_lt a b c : slt a c → slt b c → slt (Score_max a b) c.
Proof. intros. unfold Score_max. by destruct (Score_leb a b). Qed.

Lemma sle_max_inv a b c : sle c (Score_max a b) → sle c a ∨ sle c b.
Proof. unfold Score_max. destruct (Score_leb a b); auto. Qed.

Lemma slt_max_inv a b c : slt (Score_max a b) c → slt a c ∧ slt b c.
Proof.
  intros H. split; (eapply sle_slt_trans; [|exact H]);
    [apply Score_max_ge_l|apply Score_max_ge_r].
Qed.

Lemma Score_min_l a b : sle a b → Score_min a b = a.
Proof. intros H. unfold Score_min. by rewrite H. Qed.

Lemma Score_min_r a b : sle b a → Score_min a b = b.
Proof.
  intros H. unfold Score_min. destruct (Score_leb a b) eqn:E; [|done].
  by apply sle_antisym.
Qed.

Lemma Score_min_le_l a b : sle (Score_min a b) a.
Proof.
  unfold Score_min. destruct (Score_leb a b) eqn:E; [apply sle_refl|].
  by apply Score_leb_total.
Qed.

Lemma Score_min_le_r a b : sle (Score_min a b) b.
Proof. unfold Score_min. destruct (Score_leb a b) eqn:E; [done|apply sle_refl]. Qed.

Lemma Score_min_glb a b c : sle c a → sle c b → sle c (Score_min a b).
Proof. intros. unfold Score_min. by destruct (Score_leb a b). Qed.

Lemma Score_min_gt a b c : slt c a → slt c b → slt c (Score_min a b).
Proof. intros. unfold Score_min. by destruct (Score_leb a b). Qed.

Lemma sle_min_inv a b c : sle (Score_min a b) c → sle a c ∨ sle b c.
Proof. unfold Score_min. destruct (Score_leb a b); auto. Qed.

Lemma slt_min_inv a b c : slt c (Score_min a b) → slt c a ∧ slt c b.
Proof.
  intros H. split; (eapply slt_sle_trans; [exact H|]);
    [apply Score_min_le_l|apply Score_min_le_r].
Qed.

Lemma foldl_max_ge a l : sle a (foldl Score_max a l).
Proof.
  revert a. induction l as [|x l IH]; intros a; simpl.
  - apply sle_refl.
  - eapply sle_trans; [apply Score_max_ge_l|apply IH].
Qed.

Lemma foldl_min_le a l : sle (foldl Score_min a l) a.
Proof.
  revert a. induction l as [|x l IH]; intros a; simpl.
  - apply sle_refl.
  - eapply sle_trans; [apply IH|apply Score_min_le_l].
Qed.
End ScoreOrder.

Section Loops.
Context (rules : Rules) (rootP : Side).
Context (child : GameState → Score → Score → Z → Score).
Context (mchild : GameState → Z → Score).
Hypothesis child_bracket :
  ∀ st a b r, slt a b → bracket a b (child st a b r) (mchild st r).

Lemma maxLoop_bracket st rep ordered :
  ∀ best alpha T alpha0 beta,
    alpha = Score_max alpha0 best → slt alpha beta →
    (sle best alpha0 → sle T best) → (slt alpha0 best → best = T) →
    bracket alpha0 beta
      (maxLoop child st rules rootP rep ordered best alpha beta)
      (foldl Score_max T (childValues mchild st rules rootP rep ordered)).
Proof.
  induction ordered as [|mv ordered IH]; intros best alpha T alpha0 beta Ha Hlt H1 H2;
    cbn [maxLoop childValues foldl].
  - assert (slt best beta) as Hbb.
    { eapply sle_slt_trans; [|exact Hlt]. rewrite Ha. apply Score_max_ge_r. }
    split; [done|]. split; [|by intros ? _; apply H2].
    intros Hge. destruct (slt_not_sle _ _ Hbb Hge).
  - destruct (playMove st rules mv) as [e|res]; [by apply IH|].
    cbn [foldl].
    generalize (countRep rootP res rep). intros r.
    pose proof (child_bracket (state res) alpha beta r Hlt) as (Hb1 & Hb2 & Hb3).
    generalize dependent (child (state res) alpha beta r). intros val Hb1 Hb2 Hb3.
    generalize dependent (mchild (state res) r). intros t Hb1 Hb2 Hb3.
    assert (sle alpha0 alpha) as Ha0 by (rewrite Ha; apply Score_max_ge_l).
    assert (sle best alpha) as Hba by (rewrite Ha; apply Score_max_ge_r).
    assert (slt best beta) as Hbb by (by eapply sle_slt_trans).
    destruct (Score_leb beta (Score_max alpha (Score_max best val))) eqn:Hcut.
    + (* cutoff: the child's value reached beta *)
      assert (sle beta val) as Hbv.
      { apply sle_max_inv in Hcut as [Hc|Hc]; [destruct (slt_not_sle _ _ Hlt Hc)|].
        apply sle_max_inv in Hc as [Hc|Hc]; [destruct (slt_not_sle _ _ Hbb Hc)|done]. }
      assert (Score_max best val = val) as ->.
      { apply Score_max_r. eapply sle_trans; [apply slt_sle, Hbb|done]. }
      assert (sle val (foldl Score_max (Score_max T t)
                         (childValues mchild st rules rootP rep ordered))) as Hfin.
      { eapply sle_trans; [apply Hb2, Hbv|].
        eapply sle_trans; [apply Score_max_ge_r|apply foldl_max_ge]. }
      split; [|split; [done|]].
      * intros Hva. exfalso. apply (slt_not_sle _ _ Hlt).
        eapply sle_trans; [exact Hbv|]. by eapply sle_trans.
      * intros _ Hvb. destruct (slt_not_sle _ _ Hvb Hbv).
    + (* no cutoff *)
      apply slt_max_inv in Hcut as Hcut'. destruct Hcut' as [_ Hb'b].
      apply slt_max_inv in Hb'b as Hvb. destruct Hvb as [_ Hvb].
      apply IH; [| done | |].
      * rewrite Ha. apply sle_antisym.
        -- apply Score_max_lub; [|apply Score_max_ge_r].
           apply Score_max_lub; [apply Score_max_ge_l|].
           eapply sle_trans; [apply Score_max_ge_l|apply Score_max_ge_r].
        -- apply Score_max_lub; [|apply Score_max_ge_r].
           eapply sle_trans; [apply Score_max_ge_l|apply Score_max_ge_l].
      * intros Hle.
        assert (sle best alpha0) as Hb0
          by (eapply sle_trans; [apply Score_max_ge_l|exact Hle]).
        assert (sle val alpha) as Hva.
        { eapply sle_trans; [apply Score_max_ge_r|]. by eapply sle_trans. }
        apply Score_max_lub.
        -- eapply sle_trans; [by apply H1|apply Score_max_ge_l].
        -- eapply sle_trans; [by apply Hb1|apply Score_max_ge_r].
      * intros Hlt'.
        destruct (sle_or_slt val alpha) as [Hva|Hav].
        -- destruct (sle_or_slt best alpha0) as [Hb0|H0b].
           ++ exfalso. apply (slt_not_sle _ _ Hlt'). apply Score_max_lub; [done|].
              rewrite Ha, (Score_max_l alpha0 best Hb0) in Hva. done.
           ++ specialize (H2 H0b). subst T.
              assert (alpha = best) as Hab.
              { rewrite Ha. apply Score_max_r. by apply slt_sle. }
              rewrite Hab in Hva. rewrite (Score_max_l best val Hva).
              symmetry. apply Score_max_l. eapply sle_trans; [by apply Hb1; rewrite Hab|done].
        -- specialize (Hb3 Hav Hvb). subst t.
           assert (slt best val) as Hbv by (by eapply sle_slt_trans).
           rewrite (Score_max_r best val (slt_sle _ _ Hbv)).
           symmetry. apply Score_max_r.
           destruct (sle_or_slt best alpha0) as [Hb0|H0b].
           ++ eapply sle_trans; [by apply H1|]. by apply slt_sle.
           ++ rewrite <- (H2 H0b). by apply slt_sle.
Qed.

Lemma minLoop_bracket st rep ordered :
  ∀ best alpha T beta0 beta,
    beta = Score_min beta0 best → slt alpha beta →
    (sle beta0 best → sle best T) → (slt best beta0 → best = T) →
    bracket alpha beta0
      (minLoop child st rules rootP rep ordered best alpha beta)
      (foldl Score_min T (childValues mchild st rules rootP rep ordered)).
Proof.
  induction ordered as [|mv ordered IH]; intros best alpha T beta0 beta Hb Hlt H1 H2;
    cbn [minLoop childValues foldl].
  - assert (slt alpha best) as Hab.
    { eapply slt_sle_trans; [exact Hlt|]. rewrite Hb. apply Score_min_le_r. }
    split; [|split; [done|by intros _ ?; apply H2]].
    intros Hle. destruct (slt_not_sle _ _ Hab Hle).
  - destruct (playMove st rules mv) as [e|res]; [by apply IH|].
    cbn [foldl].
    generalize (countRep rootP res rep). intros r.
    pose proof (child_bracket (state res) alpha beta r Hlt) as (Hb1 & Hb2 & Hb3).
    generalize dependent (child (state res) alpha beta r). intros val Hb1 Hb2 Hb3.
    generalize dependent (mchild (state res) r). intros t Hb1 Hb2 Hb3.
    assert (sle beta beta0) as Hb0 by (rewrite Hb; apply Score_min_le_l).
    assert (sle beta best) as Hbb by (rewrite Hb; apply Score_min_le_r).
    assert (slt alpha best) as Hab by (by eapply slt_sle_trans).
    destruct (Score_leb (Score_min beta (Score_min best val)) alpha) eqn:Hcut.
    + (* cutoff: the child's value fell to alpha *)
      assert (sle val alpha) as Hva.
      { apply sle_min_inv in Hcut as [Hc|Hc]; [destruct (slt_not_sle _ _ Hlt Hc)|].
        apply sle_min_inv in Hc as [Hc|Hc]; [destruct (slt_not_sle _ _ Hab Hc)|done]. }
      assert (Score_min best val = val) as ->.
      { apply Score_min_r. eapply sle_trans; [exact Hva|]. by apply slt_sle. }
      assert (sle (foldl Score_min (Score_min T t)
                     (childValues mchild st rules rootP rep ordered)) val) as Hfin.
      { eapply sle_trans; [apply foldl_min_le|].
        eapply sle_trans; [apply Score_min_le_r|apply Hb1, Hva]. }
      split; [done|split].
      * intros Hbv. exfalso. apply (slt_not_sle _ _ Hlt).
        eapply sle_trans; [exact Hb0|]. by eapply sle_trans.
      * intros Hav _. destruct (slt_not_sle _ _ Hav Hva).
    + (* no cutoff *)
      apply slt_min_inv in Hcut as Hcut'. destruct Hcut' as [_ Hab'].
      apply slt_min_inv in Hab' as Hav. destruct Hav as [_ Hav].
      apply IH; [| done | |].
      * rewrite Hb. apply sle_antisym.
        -- apply Score_min_glb; [|apply Score_min_le_r].
           eapply sle_trans; [apply Score_min_le_l|apply Score_min_le_l].
        -- apply Score_min_glb; [|apply Score_min_le_r].
           apply Score_min_glb; [apply Score_min_le_l|].
           eapply sle_trans; [apply Score_min_le_r|apply Score_min_le_l].
      * intros Hle.
        assert (sle beta0 best) as H0b
          by (eapply sle_trans; [exact Hle|apply Score_min_le_l]).
        assert (sle beta val) as Hbv.
        { eapply sle_trans; [exact Hb0|]. eapply sle_trans; [exact Hle|].
          apply Score_min_le_r. }
        apply Score_min_glb.
        -- eapply sle_trans; [apply Score_min_le_l|by apply H1].
        -- eapply sle_trans; [apply Score_min_le_r|by apply Hb2].
      * intros Hlt'.
        destruct (sle_or_slt beta val) as [Hbv|Hvb].
        -- destruct (sle_or_slt beta0 best) as [H0b|Hb0'].
           ++ exfalso. apply (slt_not_sle _ _ Hlt'). apply Score_min_glb; [done|].
              rewrite Hb, (Score_min_l beta0 best H0b) in Hbv. done.
           ++ specialize (H2 Hb0'). subst T.
              assert (beta = best) as Hbe.
              { rewrite Hb. apply Score_min_r. by apply slt_sle. }
              rewrite Hbe in Hbv. rewrite (Score_min_l best val Hbv).
              symmetry. apply Score_min_l. eapply sle_trans; [done|].
              apply Hb2. by rewrite Hbe.
        -- specialize (Hb3 Hav Hvb). subst t.
           assert (slt val best) as Hvbest by (by eapply slt_sle_trans).
           rewrite (Score_min_r best val (slt_sle _ _ Hvbest)).
           symmetry. apply Score_min_r.
           destruct (sle_or_slt beta0 best) as [H0b|Hb0'].
           ++ eapply sle_trans; [|by apply H1]. by apply slt_sle.
           ++ rewrite <- (H2 Hb0'). by apply slt_sle.
Qed.
End Loops.

Lemma bracket_same alpha beta v : bracket alpha beta v v.
Proof. split; [|split]; intros; (apply sle_refl || done). Qed.

Lemma alphabeta_plies_bracket rules rootP sP sO d :
  ∀ st alpha beta rep, slt alpha beta →
    bracket alpha beta
      (alphabeta_plies d st rules alpha beta rootP sP sO rep)
      (minimax_plies d st rules rootP sP sO rep).
Proof.
  induction d as [|d IH]; intros st alpha beta rep Hlt; simpl.
  - apply bracket_same.
  - destruct (terminal_truthy st); [apply bracket_same|].
    destruct (length (getValidMoves st rules) =? 0)%nat; [apply bracket_same|].
    destruct (Side_eqb (toMove st) rootP).
    + apply (maxLoop_bracket rules rootP
               (λ st' a b r, alphabeta_plies d st' rules a b rootP sP sO r)
               (λ st' r, minimax_plies d st' rules rootP sP sO r)).
      * intros. by apply IH.
      * symmetry. by apply Score_max_l.
      * done.
      * intros _. apply sle_refl.
      * intros H. by destruct alpha.
    + apply (minLoop_bracket rules rootP
               (λ st' a b r, alphabeta_plies d st' rules a b rootP sP sO r)
               (λ st' r, minimax_plies d st' rules rootP sP sO r)).
      * intros. by apply IH.
      * symmetry. apply Score_min_l. by destruct beta.
      * done.
      * intros _. apply sle_refl.
      * intros H. by destruct beta.
Qed.

(** A call with any window brackets the call with the full window. *)
Lemma alphabeta_bracket st rules depth alpha beta rootP sP sO rep :
  slt alpha beta →
  bracket alpha beta
    (alphabeta st rules depth alpha beta rootP sP sO rep)
    (alphabeta st rules depth NegInf PosInf rootP sP sO rep).
Proof.
  intros Hlt. unfold alphabeta.
  pose proof (alphabeta_plies_bracket rules rootP sP sO (Z.to_nat depth)
                st NegInf PosInf rep eq_refl) as (_ & _ & Hfull).
  destruct (alphabeta_plies_finite (Z.to_nat depth) st rules NegInf PosInf
              rootP sP sO rep) as [z Hz].
  rewrite Hz in Hfull |- *. rewrite (Hfull eq_refl eq_refl).
  by apply alphabeta_plies_bracket.
Qed.

Lemma slt_PosInf a : a ≠ PosInf → slt a PosInf.
Proof. by destruct a. Qed.

Lemma slt_NegInf_finite v : finite v → slt NegInf v.
Proof. by intros [z ->]. Qed.

Lemma foldl_max_not_PosInf a l :
  a ≠ PosInf → Forall finite l → foldl Score_max a l ≠ PosInf.
Proof.
  intros Ha Hl. revert a Ha. induction Hl as [|x l [z ->] _ IH]; intros a Ha; simpl; [done|].
  apply IH. destruct (Score_max_finite a (Fin z) Ha ltac:(by eexists)) as [z' ->]. done.
Qed.

Lemma foldl_max_ge_elem a l x : x ∈ l → sle x (foldl Score_max a l).
Proof.
  revert a. induction l as [|y l IH]; intros a Hin; [by apply elem_of_nil in Hin|].
  apply elem_of_cons in Hin as [->|Hin]; simpl.
  - eapply sle_trans; [apply Score_max_ge_r|apply foldl_max_ge].
  - by apply IH.
Qed.

Lemma foldl_max_lt a l v :
  slt a v → Forall (λ x, slt x v) l → slt (foldl Score_max a l) v.
Proof.
  intros Ha Hl. revert a Ha. induction Hl as [|x l Hx _ IH]; intros a Ha; simpl; [done|].
  apply IH. by apply Score_max_lt.
Qed.

Section RootFull.
Context (st : GameState) (rules : Rules) (d : Z) (sP sO : Z).

Context (calls : list RootCall).
Hypothesis calls_ok : ∀ j c, calls !! j = Some c →
  call_ok st rules d sP sO PosInf
    (foldl Score_max NegInf (call_val <$> take j calls)) c.

Lemma calls_finite j c : calls !! j = Some c → finite (call_val c).
Proof.
  intros Hc. destruct (calls_ok j c Hc) as (_ & _ & res & _ & _ & ->).
  apply alphabeta_finite.
Qed.

Lemma calls_alpha_lt j : slt (foldl Score_max NegInf (call_val <$> take j calls)) PosInf.
Proof.
  apply slt_PosInf, foldl_max_not_PosInf; [done|].
  apply Forall_fmap, Forall_forall. intros c Hc.
  apply list_elem_of_lookup in Hc as [i Hi].
  apply lookup_take_Some in Hi as [Hi _]. by eapply calls_finite.
Qed.

Lemma calls_bracket j c :
  calls !! j = Some c →
  ∃ full, fullOf st rules d sP sO (call_move c) = Some full
    ∧ bracket (foldl Score_max NegInf (call_val <$> take j calls)) PosInf
        (call_val c) full.
Proof.
  intros Hc. destruct (calls_ok j c Hc) as (_ & _ & res & Hres & Hrep & Hval).
  unfold fullOf. rewrite Hres. eexists. split; [done|].
  rewrite Hval, Hrep. apply alphabeta_bracket, calls_alpha_lt.
Qed.

(** The first best call is the first best of the full-window scores, and
    its value is its full-window score. *)
Lemma first_best_full k c :
  first_best calls k c →
  fullOf st rules d sP sO (call_move c) = Some (call_val c)
  ∧ ∀ j c' s', calls !! j = Some c' → fullOf st rules d sP sO (call_move c') = Some s' →
      sle s' (call_val c) ∧ ((j < k)%nat → slt s' (call_val c)).
Proof.
  intros (Hk & Hle & Hlt).
  assert (slt (foldl Score_max NegInf (call_val <$> take k calls)) (call_val c)) as Hak.
  { apply foldl_max_lt; [by eapply slt_NegInf_finite, calls_finite|].
    apply Forall_fmap, Forall_forall. intros c' Hc'.
    apply list_elem_of_lookup in Hc' as [i Hi].
    apply lookup_take_Some in Hi as [Hi Hik]. by eapply Hlt. }
  destruct (calls_bracket k c Hk) as (full & Hfull & _ & _ & Hb3).
  assert (call_val c = full) as Heq.
  { apply Hb3; [done|]. apply slt_PosInf.
    destruct (calls_finite k c Hk) as [z ->]. done. }
  split; [by rewrite Hfull, Heq|].
  intros j c' s' Hc' Hs'.
  destruct (calls_bracket j c' Hc') as (full' & Hfull' & Hb1' & _ & Hb3').
  rewrite Hs' in Hfull'. injection Hfull' as <-.
  assert (slt (call_val c') PosInf) as Hfin'.
  { apply slt_PosInf. destruct (calls_finite j c' Hc') as [z ->]. done. }
  destruct (decide (j < k)%nat) as [Hjk|Hjk].
  - assert (slt s' (call_val c)) as Hres.
    { specialize (Hlt j c' Hjk Hc').
      destruct (sle_or_slt (call_val c')
                  (foldl Score_max NegInf (call_val <$> take j calls))) as [Hva|Hav].
      - eapply sle_slt_trans; [by apply Hb1'|done].
      - by rewrite <- (Hb3' Hav Hfin'). }
    split; [by apply slt_sle|done].
  - split; [|lia]. destruct (decide (j = k)) as [->|Hne].
    + rewrite Hk in Hc'. injection Hc' as <-.
      rewrite Hfull in Hs'. injection Hs' as <-. rewrite Heq. apply sle_refl.
    + assert (sle (call_val c)
                (foldl Score_max NegInf (call_val <$> take j calls))) as Hkj.
      { apply foldl_max_ge_elem, list_elem_of_fmap. exists c. split; [done|].
        apply list_elem_of_lookup. exists k. apply lookup_take_Some. split; [done|lia]. }
      eapply sle_trans; [|apply (Hle j c' Hc')].
      apply Hb1'. eapply sle_trans; [apply (Hle j c' Hc')|done].
Qed.
End RootFull.

Lemma rootScore_fullOf st rules depth mv :
  rootScore st rules depth mv
  = fullOf st rules (if depth <=? 0 then 1 else depth)
      (store st (toMove st)) (store st (other (toMove st))) mv.
Proof.
  unfold rootScore, fullOf.
  destruct (playMove st rules mv) as [e|res] eqn:Hres; [done|].
  apply playMove_ok_inv in Hres as (_ & _ & _ & Hm & _).
  unfold countRep. by rewrite Hm, Side_eqb_refl.
Qed.

Lemma insertDescScore_perm x l : insertDescScore x l ≡ₚ x :: l.
Proof.
  induction l as [|y l IH]; simpl; [done|].
  destruct (negb _); [|done]. rewrite IH. apply Permutation_swap.
Qed.

(** The entries of [scoreMoves] are the legal moves with their full-window
    scores. *)
Lemma scoreMoves_elem st rules depth mv sc :
  (mv, sc) ∈ scoreMoves st rules depth
  ↔ mv ∈ getValidMoves st rules ∧ rootScore st rules depth mv = Some sc.
Proof.
  unfold scoreMoves.
  assert (∀ l, foldr insertDescScore [] l ≡ₚ l) as Hperm.
  { induction l as [|x l IH]; simpl; [done|]. by rewrite insertDescScore_perm, IH. }
  rewrite Hperm, list_elem_of_omap. split.
  - intros (m & Hm & Hs). destruct (rootScore st rules depth m) eqn:E; [|done].
    simpl in Hs. by injection Hs as -> ->.
  - intros [Hm Hs]. exists mv. split; [done|]. by rewrite Hs.
Qed.

(** C6, as the code has it.  On a state whose pit arrays have
    [pitsPerSide] cells, [bestMove] makes one recursive call per candidate,
    in the order of [orderMoves].  The first call has the unbounded window;
    every call has [beta = +infinity], and [alpha] of a later call is the
    greatest value returned for the candidates before it.  [repRoot] is 1
    exactly when the root ply grants an extra turn.  The move returned is
    the maximum-scoring candidate, ties resolving to the first in the order:
    its call returned the greatest value, and that value, the score
    returned, is also the greatest of the scores that the unbounded window
    gives every candidate, those of [scoreMoves].  Without a legal move the
    result is the sentinel. *)
Theorem root_search_law st rules depth :
  sized rules st →
  let calls := bestMoveCalls st rules depth in
  let best := bestMove st rules depth in
  let searchDepth := if depth <=? 0 then 1 else depth in
  call_move <$> calls = orderMoves st rules (getValidMoves st rules)
  ∧ (∀ c, calls !! 0%nat = Some c → call_alpha c = NegInf ∧ call_beta c = PosInf)
  ∧ (∀ k c, calls !! k = Some c →
       call_beta c = PosInf
       ∧ call_alpha c = foldl Score_max NegInf (call_val <$> take k calls)
       ∧ ∃ res, playMove st rules (call_move c) = PlayOk res
           ∧ call_repRoot c = (if extraTurn res then 1 else 0)
           ∧ call_val c = alphabeta (state res) rules (searchDepth - 1)
                            (call_alpha c) PosInf (toMove st)
                            (store st (toMove st)) (store st (other (toMove st)))
                            (call_repRoot c))
  ∧ (getValidMoves st rules ≠ [] →
       hasMove best = true
       ∧ (move best, score best) ∈ scoreMoves st rules depth
       ∧ (∀ mv sc, (mv, sc) ∈ scoreMoves st rules depth → sle sc (score best))
       ∧ ∃ k c, calls !! k = Some c
           ∧ move best = call_move c ∧ score best = call_val c
           ∧ (∀ j c', calls !! j = Some c' →
                sle (call_val c') (call_val c)
                ∧ ((j < k)%nat → slt (call_val c') (call_val c)))
           ∧ (∀ j c' sc, calls !! j = Some c' →
                rootScore st rules depth (call_move c') = Some sc →
                sle sc (score best) ∧ ((j < k)%nat → slt sc (score best))))
  ∧ (getValidMoves st rules = [] → best = mkBest false (-1) NegInf).
Proof.
  intros _ calls best searchDepth. subst calls best.
  unfold bestMove, bestMoveCalls, bestMoveRun. fold searchDepth.
  destruct (getValidMoves st rules) as [|mv0 moves] eqn:Hm.
  { simpl. repeat split; done. }
  pose proof (orderMoves_accepted st rules) as Hall. rewrite Hm in Hall.
  destruct (rootLoop_spec st rules searchDepth (store st (toMove st))
              (store st (other (toMove st))) PosInf _ Hall mv0 NegInf)
    as (mvF & scoreF & calls & -> & Hmoves & Hcalls & Hbest).
  simpl. split; [done|].
  assert (∀ k c, calls !! k = Some c →
     call_beta c = PosInf
     ∧ call_alpha c = foldl Score_max NegInf (call_val <$> take k calls)
     ∧ ∃ res, playMove st rules (call_move c) = PlayOk res
         ∧ call_repRoot c = (if extraTurn res then 1 else 0)
         ∧ call_val c = alphabeta (state res) rules (searchDepth - 1)
                          (call_alpha c) PosInf (toMove st)
                          (store st (toMove st)) (store st (other (toMove st)))
                          (call_repRoot c)) as Hcalls'.
  { intros k c Hc. destruct (Hcalls k c Hc) as (Hb & Ha & res & Hres & Hrep & Hval).
    split; [done|]. split; [done|]. exists res. by rewrite Ha. }
  split; [|split; [done|split; [|done]]].
  { intros c Hc. destruct (Hcalls' _ _ Hc) as (Hb & Ha & _). by rewrite Ha. }
  intros _. split; [done|].
  destruct Hbest as [(_ & _ & Hle)|(k & c & Hfirst & -> & -> & _)].
  { destruct calls as [|c0 calls].
    - pose proof (orderMoves_perm st rules (mv0 :: moves)) as Hp.
      rewrite <- Hmoves in Hp. by apply Permutation_nil_cons in Hp.
    - specialize (Hle O c0 eq_refl).
      destruct (calls_finite st rules searchDepth _ _ _ Hcalls O c0 eq_refl) as [z Hz].
      by rewrite Hz in Hle. }
  destruct (first_best_full st rules searchDepth _ _ calls Hcalls k c Hfirst)
    as [Hfull Hothers].
  destruct Hfirst as (Hk & Hle & Hlt).
  assert (∀ j c' sc, calls !! j = Some c' →
            rootScore st rules depth (call_move c') = Some sc →
            sle sc (call_val c) ∧ ((j < k)%nat → slt sc (call_val c))) as Hroot.
  { intros j c' sc Hc'. rewrite rootScore_fullOf. by apply Hothers. }
  split; [|split].
  - apply scoreMoves_elem. rewrite rootScore_fullOf. split; [|done].
    rewrite Hm, <- (orderMoves_perm st rules (mv0 :: moves)), <- Hmoves.
    apply list_elem_of_fmap. exists c. split; [done|].
    by eapply list_elem_of_lookup_2.
  - intros mv sc [Hin Hsc]%scoreMoves_elem.
    rewrite Hm, <- (orderMoves_perm st rules (mv0 :: moves)), <- Hmoves in Hin.
    apply list_elem_of_fmap in Hin as (c' & -> & Hc').
    apply list_elem_of_lookup in Hc' as [j Hj].
    by apply (Hroot j c' sc).
  - exists k, c. split; [done|]. split; [done|]. split; [done|].
    split; [|done].
    intros j c' Hc'. split; [by eapply Hle|]. intros Hjk. by eapply Hlt.
Qed.

(** The standard opening position, searched two plies deep. *)
Lemma root_search_law_witness :
  let rules := mkRules 6 4 true true KALAH false in
  let st := initStandard rules 0 in
  sized rules st
  ∧ call_move <$> bestMoveCalls st rules 2
    = orderMoves st rules (getValidMoves st rules)
  ∧ (getValidMoves st rules ≠ [] →
     (move (bestMove st rules 2), score (bestMove st rules 2)) ∈ scoreMoves st rules 2).
Proof.
  intros rules st.
  assert (sized rules st) as Hsz by (intros []; reflexivity).
  split; [exact Hsz|].
  pose proof (root_search_law st rules 2 Hsz) as (Hmoves & _ & _ & Hbest & _).
  split; [exact Hmoves|].
  intros Hne. exact (proj1 (proj2 (Hbest Hne))).
Defined.

(** The standard opening position, searched one ply deep: the second
    candidate is searched with [alpha = 11], the value of the first. *)
Lemma root_search_law_counterexample :
  let rules := mkRules 6 4 true true KALAH false in
  ∃ c, bestMoveCalls (initStandard rules 0) rules 1 !! 1%nat = Some c
  ∧ call_alpha c = Fin 11
  ∧ ¬ (call_alpha c = NegInf ∧ call_beta c = PosInf).
Proof.
  intros rules. eexists. split; [vm_compute; reflexivity|].
  split; [reflexivity|]. by intros [? _].
Qed.

(** ** [initFromArrays] *)

Lemma toInt32_range q : - 2 ^ 31 ≤ toInt32 q < 2 ^ 31.
Proof.
  unfold toInt32. set (int := Z.quot _ _).
  pose proof (Z.mod_pos_bound int (2 ^ 32) eq_refl) as Hm.
  change (2 ^ 32) with 4294967296 in *. change (2 ^ 31) with 2147483648 in *.
  destruct (Z.geb_spec (int mod 4294967296) 2147483648); lia.
Qed.

Lemma toInt32_congruent q :
  (toInt32 q - Z.quot (Qnum q) (Z.pos (Qden q))) mod 2 ^ 32 = 0.
Proof.
  unfold toInt32. set (int := Z.quot _ _).
  pose proof (Z.div_mod int (2 ^ 32) ltac:(done)) as Hd.
  destruct (_ >=? _).
  - replace (int mod 2 ^ 32 - 2 ^ 32 - int) with ((- (int / 2 ^ 32) - 1) * 2 ^ 32) by lia.
    apply Z_mod_mult.
  - replace (int mod 2 ^ 32 - int) with ((- (int / 2 ^ 32)) * 2 ^ 32) by lia.
    apply Z_mod_mult.
Qed.

(** C10.  [initFromArrays] checks the two lengths and nothing else: for
    rules that [makeRules] accepts and any two arrays of [pitsPerSide]
    cells, of whatever cell type, it succeeds and the state holds the cells
    as given; it fails exactly when a length differs.  The two store
    arguments go through [| 0]: truncated toward zero and wrapped to a
    signed 32-bit integer.  So a state it returns need not satisfy the
    data model: with every cell [-1] the pits are negative and the total is
    not [2 * pitsPerSide * seedsPerPit]. *)
Theorem initFromArrays_unchecked {A} rules (cells0 cells1 : list A)
    (store0 store1 : Q) (toMove : Z) :
  rules_ok rules →
  Z.of_nat (length cells0) = pitsPerSide rules →
  Z.of_nat (length cells1) = pitsPerSide rules →
  let n := pitsPerSide rules in
  initFromArrays rules cells0 cells1 store0 store1 toMove
  = inr (mkState cells0 cells1 (toInt32 store0) (toInt32 store1)
           (if toMove =? 1 then Side1 else Side0) None)
  ∧ (∀ other0 other1 : list A,
       (∃ st, initFromArrays rules other0 other1 store0 store1 toMove = inr st)
       ↔ Z.of_nat (length other0) = n ∧ Z.of_nat (length other1) = n)
  ∧ (∀ q : Q, - 2 ^ 31 ≤ toInt32 q < 2 ^ 31
              ∧ (toInt32 q - Z.quot (Qnum q) (Z.pos (Qden q))) mod 2 ^ 32 = 0)
  ∧ ∃ st : GameState,
      initFromArrays rules (replicate (Z.to_nat n) (-1))
        (replicate (Z.to_nat n) (-1)) 0%Q 0%Q 0 = inr st
      ∧ ¬ nonneg st
      ∧ total st ≠ 2 * n * seedsPerPit rules.
Proof.
  intros [Hn Hs] H0 H1 n. subst n. split; [|split; [|split]].
  - unfold initFromArrays. rewrite H0, H1, Z.eqb_refl. done.
  - intros other0 other1. unfold initFromArrays.
    destruct (Z.eqb_spec (Z.of_nat (length other0)) (pitsPerSide rules)); simpl.
    + destruct (Z.eqb_spec (Z.of_nat (length other1)) (pitsPerSide rules)); simpl.
      * split; [done|]. intros _. by eexists.
      * split; [by intros [? ?]|]. by intros [_ ?].
    + split; [by intros [? ?]|]. by intros [? _].
  - intros q. split; [apply toInt32_range|apply toInt32_congruent].
  - eexists. split; [|split].
    + unfold initFromArrays. rewrite !length_replicate, Z2Nat.id, Z.eqb_refl by lia.
      reflexivity.
    + intros Hnn. specialize (Hnn Side0). simpl in Hnn.
      destruct (Z.to_nat (pitsPerSide rules)) as [|k] eqn:E; [lia|].
      simpl in Hnn. apply Forall_cons in Hnn as [? _]. lia.
    + unfold total. simpl. rewrite sumZ_replicate.
      change (toInt32 0) with 0. nia.
Qed.

(** Cells that are not integers, a store argument with a fraction and one
    beyond 32 bits. *)
Lemma initFromArrays_unchecked_witness :
  let rules := mkRules 2 4 true true KALAH false in
  rules_ok rules
  ∧ initFromArrays rules [(1 # 2)%Q; (-3 # 1)%Q] [(0 # 1)%Q; (7 # 3)%Q]
      (-7 # 2)%Q (4294967297 # 1)%Q 1
    = inr (mkState [(1 # 2)%Q; (-3 # 1)%Q] [(0 # 1)%Q; (7 # 3)%Q] (-3) 1 Side1 None).
Proof.
  intros rules.
  assert (rules_ok rules) as Hok by (split; simpl; lia).
  split; [exact Hok|].
  exact (proj1 (initFromArrays_unchecked rules [(1 # 2)%Q; (-3 # 1)%Q]
                  [(0 # 1)%Q; (7 # 3)%Q] (-7 # 2)%Q (4294967297 # 1)%Q 1
                  Hok eq_refl eq_refl)).
Defined.

(** * Further properties of the engine *)

(** X1.  [playMove] keeps the data model from any position, not only from
    the standard opening: on a state with two arrays of [pitsPerSide]
    non-negative counts, the state of an accepted move has the same shape
    and the same number of seeds on the board. *)
Theorem playMove_keeps_data_model rules st p res :
  wf rules st → playMove st rules p = PlayOk res →
  wf rules (state res)
  ∧ sumZ (pits (state res) Side0) + sumZ (pits (state res) Side1)
    + store (state res) Side0 + store (state res) Side1
    = sumZ (pits st Side0) + sumZ (pits st Side1) + store st Side0 + store st Side1.
Proof.
  intros Hwf Hplay. split; [by eapply wf_playMove|].
  rewrite <- !total_eq. by eapply total_playMove.
Qed.

Lemma playMove_keeps_data_model_witness :
  let rules := mkRules 3 4 true true KALAH false in
  let st := mkState [2; 0; 7] [1; 0; 3] 5 9 Side1 None in
  wf rules st
  ∧ ∃ res, playMove st rules 2 = PlayOk res ∧ wf rules (state res).
Proof.
  intros rules st.
  assert (wf rules st) as Hwf.
  { split; intros []; simpl; [reflexivity|reflexivity| |]; repeat constructor; lia. }
  split; [exact Hwf|].
  destruct (playMove st rules 2) as [e|res] eqn:Hplay; [discriminate Hplay|].
  exists res. split; [reflexivity|].
  exact (proj1 (playMove_keeps_data_model rules st 2 res Hwf Hplay)).
Defined.

Lemma filter_StronglySorted {A} (R : A → A → Prop) (f : A → bool) l :
  StronglySorted R l → StronglySorted R (List.filter f l).
Proof.
  induction 1 as [|x l Hl IH Hx]; simpl; [constructor|].
  destruct (f x); [|done]. constructor; [done|].
  apply Forall_forall. intros y Hy. apply list_elem_of_In, filter_In in Hy as [Hy _].
  rewrite Forall_forall in Hx. by apply Hx, list_elem_of_In.
Qed.

Lemma range_StronglySorted n : StronglySorted Z.lt (range n).
Proof.
  unfold range. generalize (Z.to_nat n). intros k.
  induction k as [|k IH]; [constructor|].
  rewrite range_succ. clear -IH.
  assert (Forall (λ x, x < Z.of_nat k) (Z.of_nat <$> seq 0 k)) as Hlt.
  { apply Forall_forall. intros x Hx. apply list_elem_of_fmap in Hx as (i & -> & Hi).
    apply elem_of_seq in Hi. lia. }
  induction IH as [|x l Hl IHl Hx]; simpl.
  - repeat constructor.
  - apply Forall_cons in Hlt as [Hxk Hlt]. constructor; [by apply IHl|].
    apply Forall_app. split; [done|]. by constructor.
Qed.

Lemma accepted_getValidMoves rules st p :
  accepted rules st p → p ∈ getValidMoves st rules.
Proof.
  intros [Hp He]. apply list_elem_of_In. unfold getValidMoves.
  apply filter_In. split; [by apply list_elem_of_In, elem_of_range|].
  destruct He as [->|He]; [done|].
  destruct (Z.eqb_spec (pit st (toMove st) p) 0); [done|].
  by rewrite andb_false_r.
Qed.

(** X2.  [getValidMoves] and [playMove] agree: a pit index is listed exactly
    when [playMove] accepts it.  The list is in strictly increasing order
    (so it has no duplicates), and with [allowMoveFromEmpty] it is every
    index [0 .. pitsPerSide - 1]. *)
Theorem legal_moves_are_the_accepted_moves rules st p :
  sized rules st →
  (p ∈ getValidMoves st rules ↔ ∃ res, playMove st rules p = PlayOk res)
  ∧ StronglySorted Z.lt (getValidMoves st rules)
  ∧ (allowMoveFromEmpty rules = true → getValidMoves st rules = range (pitsPerSide rules)).
Proof.
  intros _. split; [|split].
  - split.
    + intros Hin. apply playMove_accepted.
      pose proof (getValidMoves_accepted st rules) as Hall.
      rewrite Forall_forall in Hall. by apply Hall.
    + intros [res Hres]. apply accepted_getValidMoves.
      by apply playMove_ok_inv in Hres as [? _].
  - apply filter_StronglySorted, range_StronglySorted.
  - intros Ha. unfold getValidMoves. rewrite Ha. simpl.
    induction (range (pitsPerSide rules)) as [|x l IH]; simpl; [done|]. by rewrite IH.
Qed.

Lemma legal_moves_are_the_accepted_moves_witness :
  let rules := mkRules 3 4 true true KALAH false in
  let st := mkState [2; 0; 7] [1; 0; 3] 5 9 Side0 None in
  sized rules st
  ∧ getValidMoves st rules = [0; 2]
  ∧ (1 ∈ getValidMoves st rules ↔ ∃ res, playMove st rules 1 = PlayOk res).
Proof.
  intros rules st.
  assert (sized rules st) as Hsz by (intros []; reflexivity).
  split; [exact Hsz|]. split; [reflexivity|].
  exact (proj1 (legal_moves_are_the_accepted_moves rules st 1 Hsz)).
Defined.

(** X3.  The [terminal] flag of a move result is [isTerminal] of the state
    it returns: the disjunction with the test before the sweep adds
    nothing, a swept position being terminal. *)
Theorem terminal_flag_is_isTerminal rules st p res :
  wf rules st → playMove st rules p = PlayOk res →
  terminal res = isTerminal (state res) rules.
Proof.
  intros Hwf Hplay.
  pose proof (playMove_ok_inv rules st p res Hplay) as ([Hp _] & Hst & _).
  rewrite playMove_unfold in Hplay.
  destruct (_ || _); [done|]. destruct (_ && _); [done|].
  injection Hplay as <-. simpl in *.
  pose proof (wf_beforeSweep rules st p Hwf Hp) as [Hsz _].
  rewrite finalizeIfTerminal_spec by done.
  destruct (isTerminal (beforeSweep rules st p) rules) eqn:E; simpl.
  - destruct (sweepOnGameEnd rules); [|done].
    symmetry. apply isTerminal_swept. lia.
  - done.
Qed.

Lemma terminal_flag_is_isTerminal_witness :
  let rules := mkRules 2 4 true false KALAH false in
  let st := mkState [0; 2] [0; 1] 0 0 Side0 None in
  wf rules st
  ∧ ∃ res, playMove st rules 1 = PlayOk res
      ∧ terminal res = true ∧ isTerminal (state res) rules = true.
Proof.
  intros rules st.
  assert (wf rules st) as Hwf.
  { split; intros []; simpl; [reflexivity|reflexivity| |]; repeat constructor; lia. }
  split; [exact Hwf|].
  destruct (playMove st rules 1) as [e|res] eqn:Hplay; [discriminate Hplay|].
  exists res. split; [reflexivity|].
  pose proof (terminal_flag_is_isTerminal rules st 1 res Hwf Hplay) as Hflag.
  injection Hplay as <-. split; [reflexivity|]. rewrite <- Hflag. reflexivity.
Defined.

(** X4.  [finalizeIfTerminal] is idempotent, and a terminal position is
    still terminal after it. *)
Theorem finalizeIfTerminal_idempotent rules st :
  sized rules st →
  finalizeIfTerminal (finalizeIfTerminal st rules) rules = finalizeIfTerminal st rules
  ∧ (isTerminal st rules = true →
     isTerminal (finalizeIfTerminal st rules) rules = true).
Proof.
  intros Hsz.
  assert (0 ≤ pitsPerSide rules) as Hn by (pose proof (Hsz Side0) as H0; unfold sized in H0; lia).
  rewrite (finalizeIfTerminal_spec rules st Hsz).
  destruct (isTerminal st rules && sweepOnGameEnd rules) eqn:E.
  - split; [|intros _; by apply isTerminal_swept].
    rewrite finalizeIfTerminal_spec by (by apply wf_swept).
    destruct (isTerminal (swept rules st) rules && sweepOnGameEnd rules); [|done].
    unfold swept. simpl. rewrite !sumZ_replicate. f_equal; lia.
  - split; [|done]. rewrite finalizeIfTerminal_spec, E; done.
Qed.

Lemma finalizeIfTerminal_idempotent_witness :
  let rules := mkRules 3 4 true true KALAH false in
  let st := mkState [2; 0; 5] [0; 0; 0] 7 10 Side1 (Some false) in
  sized rules st
  ∧ finalizeIfTerminal (finalizeIfTerminal st rules) rules
    = mkState [0; 0; 0] [0; 0; 0] 14 10 Side1 None.
Proof.
  intros rules st.
  assert (sized rules st) as Hsz by (intros []; reflexivity).
  split; [exact Hsz|].
  rewrite (proj1 (finalizeIfTerminal_idempotent rules st Hsz)). reflexivity.
Defined.

Lemma storeDrops_other n mover path :
  Forall (loc_ok n mover) path → storeDrops (other mover) path = 0.
Proof.
  unfold storeDrops. induction 1 as [|loc path Hloc _ IH]; simpl; [done|].
  destruct loc as [s i|s]; simpl; [done|]. simpl in Hloc. subst s.
  by destruct mover.
Qed.

Lemma sweptInto_nonneg rules st s : wf rules st → 0 ≤ sweptInto rules st s.
Proof.
  intros [_ Hnn]. unfold sweptInto. destruct (_ && _); [|done].
  apply sumZ_nonneg, Hnn.
Qed.

(** The store of a side after the capture block. *)
Lemma store_afterCapture rules st p s :
  0 ≤ p < pitsPerSide rules →
  store st s + storeDrops s (sowPath st rules (toMove st) p)
  ≤ store (afterCapture rules st p) s
  ∧ (s = other (toMove st) → store (afterCapture rules st p) s = store st s).
Proof.
  intros Hp. unfold afterCapture.
  pose proof (sowPath_ok st rules (toMove st) p Hp) as Hok.
  destruct (captureStep_cases rules st (toMove st) (sown rules st p)
              (last (sowPath st rules (toMove st) p))) as [[-> _]|(i & Hi & Hc & ->)].
  { intros loc. by apply last_ok. }
  - simpl. rewrite store_sown. split; [lia|]. intros ->.
    rewrite (storeDrops_other _ _ _ Hok). lia.
  - rewrite store_captureAt, store_sown. destruct Hc as (_ & _ & _ & _ & Hpos).
    split.
    + destruct (Side_eqb (toMove st) s); lia.
    + intros ->. rewrite (storeDrops_other _ _ _ Hok).
      assert (Side_eqb (toMove st) (other (toMove st)) = false) as ->
        by by destruct (toMove st).
      lia.
Qed.

(** X5.  No move takes seeds out of a store.  While the game goes on (the
    result is not flagged terminal) the opponent's store is exactly what it
    was: only the end-of-game sweep adds to it. *)
Theorem stores_only_grow rules st p res :
  wf rules st → playMove st rules p = PlayOk res →
  (∀ s, store st s ≤ store (state res) s)
  ∧ (terminal res = false →
     store (state res) (other (mover res)) = store st (other (mover res))).
Proof.
  intros Hwf Hplay.
  pose proof (playMove_ok_inv rules st p res Hplay) as ([Hp _] & Hst & _ & Hmv & _).
  pose proof (wf_beforeSweep rules st p Hwf Hp) as Hwfb.
  assert (∀ s, store (beforeSweep rules st p) s = store (afterCapture rules st p) s)
    as Hsame by (by intros []).
  split.
  - intros s. rewrite Hst, store_finalizeIfTerminal, Hsame by apply Hwfb.
    pose proof (sweptInto_nonneg rules _ s Hwfb).
    pose proof (proj1 (store_afterCapture rules st p s Hp)).
    pose proof (storeDrops_nonneg s (sowPath st rules (toMove st) p)). lia.
  - intros Hterm. rewrite playMove_unfold in Hplay.
    destruct (_ || _); [done|]. destruct (_ && _); [done|].
    injection Hplay as <-. simpl in *.
    apply orb_false_iff in Hterm as [Hterm _].
    rewrite store_finalizeIfTerminal, Hsame by apply Hwfb.
    unfold sweptInto. rewrite Hterm. simpl.
    rewrite (proj2 (store_afterCapture rules st p _ Hp) eq_refl). lia.
Qed.

Lemma stores_only_grow_witness :
  let rules := mkRules 3 4 true true KALAH false in
  let st := mkState [2; 0; 7] [1; 0; 3] 5 9 Side0 None in
  wf rules st
  ∧ ∃ res, playMove st rules 2 = PlayOk res
      ∧ terminal res = false
      ∧ store (state res) Side0 = 6 ∧ store (state res) Side1 = 9.
Proof.
  intros rules st.
  assert (wf rules st) as Hwf.
  { split; intros []; simpl; [reflexivity|reflexivity| |]; repeat constructor; lia. }
  split; [exact Hwf|].
  destruct (playMove st rules 2) as [e|res] eqn:Hplay; [discriminate Hplay|].
  exists res. split; [reflexivity|].
  pose proof (stores_only_grow rules st 2 res Hwf Hplay) as [_ Hopp].
  injection Hplay as <-. split; [reflexivity|]. split; [reflexivity|].
  exact (Hopp eq_refl).
Defined.

Lemma pitDrops_cons s i loc path :
  pitDrops s i (loc :: path) = pitDrops s i [loc] + pitDrops s i path.
Proof.
  unfold pitDrops. simpl.
  destruct loc as [s' j|s']; simpl; [|lia].
  destruct (Side_eqb s' s && (j =? i)); simpl; lia.
Qed.

Lemma pit_dropSeed rules mover ns loc s i :
  sized rules ns → loc_ok (pitsPerSide rules) mover loc → 0 ≤ i < pitsPerSide rules →
  pit (dropSeed ns loc) s i = pit ns s i + pitDrops s i [loc].
Proof.
  intros Hsz Hloc Hi. destruct loc as [s' j|s']; simpl in *.
  - unfold pitDrops. simpl.
    destruct (Side_eqb s' s) eqn:Es; simpl.
    + apply Side_eqb_eq in Es as ->.
      destruct (Z.eqb_spec j i) as [->|Hne]; simpl.
      * by rewrite (pit_set_pit_same rules).
      * rewrite pit_set_pit_other_index by lia. lia.
    + rewrite pit_set_pit_other_side; [lia|].
      intros ->. by rewrite Side_eqb_refl in Es.
  - unfold pitDrops. simpl. rewrite Z.add_0_r. by destruct s, s'.
Qed.

Lemma pit_sow rules mover path : ∀ ns s i,
  wf rules ns → Forall (loc_ok (pitsPerSide rules) mover) path →
  0 ≤ i < pitsPerSide rules →
  pit (sow ns path) s i = pit ns s i + pitDrops s i path.
Proof.
  induction path as [|loc path IH]; intros ns s i Hwf Hok Hi.
  - unfold pitDrops. simpl. lia.
  - apply Forall_cons in Hok as [Hloc Hok]. unfold sow. simpl. fold (sow (dropSeed ns loc) path).
    rewrite IH; [|by eapply wf_dropSeed|done|done].
    rewrite (pit_dropSeed rules mover) by (done || apply Hwf).
    rewrite (pitDrops_cons s i loc path). lia.
Qed.

(** X6.  The effect of sowing on the pits.  When the move does not capture
    and nothing is swept, every pit holds what it held before (the source
    pit: nothing) plus one seed for each time it occurs on the path. *)
Theorem sowing_law rules st p res :
  wf rules st → playMove st rules p = PlayOk res →
  happened (capture res) = false →
  terminal res = false ∨ sweepOnGameEnd rules = false →
  ∀ s i, 0 ≤ i < pitsPerSide rules →
    pit (state res) s i
    = (if Side_eqb s (mover res) && (i =? p) then 0 else pit st s i)
      + pitDrops s i (path res).
Proof.
  intros Hwf Hplay Hcap Hsweep s i Hi.
  pose proof (playMove_ok_inv rules st p res Hplay)
    as ([Hp _] & Hst & Hpath & Hmv & _ & _ & Hc).
  pose proof (wf_beforeSweep rules st p Hwf Hp) as Hwfb.
  assert (finalizeIfTerminal (beforeSweep rules st p) rules = beforeSweep rules st p)
    as Hfin.
  { rewrite finalizeIfTerminal_spec by apply Hwfb.
    destruct Hsweep as [Hterm| ->]; [|by rewrite andb_false_r].
    rewrite playMove_unfold in Hplay.
    destruct (_ || _); [done|]. destruct (_ && _); [done|].
    injection Hplay as <-. simpl in Hterm.
    apply orb_false_iff in Hterm as [-> _]. done. }
  pose proof (sowPath_ok st rules (toMove st) p Hp) as Hok.
  assert (afterCapture rules st p = sown rules st p) as Hafter.
  { unfold afterCapture.
    destruct (captureStep_cases rules st (toMove st) (sown rules st p)
                (last (sowPath st rules (toMove st) p))) as [[E _]|(j & _ & _ & E)].
    { intros loc. by apply last_ok. }
    - by rewrite E.
    - rewrite Hpath in Hc. rewrite E in Hc. simpl in Hc. by rewrite Hc in Hcap. }
  rewrite Hst, Hfin, Hpath, Hmv.
  transitivity (pit (sown rules st p) s i).
  { apply pit_ext. rewrite <- Hafter. by destruct s. }
  unfold sown. rewrite (pit_sow rules (toMove st)); [|by apply wf_emptied|done|done].
  f_equal. unfold emptied.
  assert (sized rules (cloneState st)) as Hszc by (intros s'; destruct s'; [apply (proj1 Hwf Side0)|apply (proj1 Hwf Side1)]).
  assert (∀ j, pit (cloneState st) s j = pit st s j) as Hclone.
  { intros j. apply pit_ext. by destruct s. }
  destruct (Side_eqb s (toMove st)) eqn:Es; simpl.
  - apply Side_eqb_eq in Es as ->.
    destruct (Z.eqb_spec i p) as [->|Hne].
    + by rewrite (pit_set_pit_same rules).
    + rewrite pit_set_pit_other_index by lia. apply Hclone.
  - rewrite pit_set_pit_other_side; [apply Hclone|].
    intros E. by rewrite E, Side_eqb_refl in Es.
Qed.

Lemma sowing_law_witness :
  let rules := mkRules 3 4 true true KALAH false in
  let st := mkState [2; 0; 9] [1; 0; 3] 5 9 Side0 None in
  wf rules st
  ∧ ∃ res, playMove st rules 2 = PlayOk res
      ∧ path res !! 6%nat = Some (LocPit Side0 2)
      ∧ pit (state res) Side0 2 = 1 ∧ pit (state res) Side1 0 = 3.
Proof.
  intros rules st.
  assert (wf rules st) as Hwf.
  { split; intros []; simpl; [reflexivity|reflexivity| |]; repeat constructor; lia. }
  split; [exact Hwf|].
  destruct (playMove st rules 2) as [e|res] eqn:Hplay; [discriminate Hplay|].
  exists res. split; [reflexivity|].
  assert (happened (capture res) = false) as Hcap by (by injection Hplay as <-).
  assert (terminal res = false ∨ sweepOnGameEnd rules = false) as Hsw
    by (left; by injection Hplay as <-).
  pose proof (sowing_law rules st 2 res Hwf Hplay Hcap Hsw) as Hlaw.
  split; [by injection Hplay as <-|].
  split.
  - rewrite (Hlaw Side0 2) by (simpl; lia). by injection Hplay as <-.
  - rewrite (Hlaw Side1 0) by (simpl; lia). by injection Hplay as <-.
Defined.

Lemma toInt32_inject_Z z : toInt32 (inject_Z z) = z ↔ - 2 ^ 31 ≤ z < 2 ^ 31.
Proof.
  split.
  - intros <-. apply toInt32_range.
  - intros Hz. unfold toInt32, inject_Z. simpl. rewrite Z.quot_1_r.
    destruct (Z.leb_spec 0 z).
    + rewrite Z.mod_small by lia. destruct (Z.geb_spec z (2 ^ 31)); lia.
    + assert (z mod 2 ^ 32 = z + 2 ^ 32) as ->.
      { symmetry. apply (Z.mod_unique_pos _ _ (-1)); lia. }
      destruct (Z.geb_spec (z + 2 ^ 32) (2 ^ 31)); lia.
Qed.

(** X7.  A move from an empty pit, which only [allowMoveFromEmpty] lets
    through, sows nothing, captures nothing and earns no extra turn: the
    state returned is the position itself with the turn passed to the
    opponent (and then swept, if it is terminal). *)
Theorem empty_pit_move_passes rules st p res :
  sized rules st → playMove st rules p = PlayOk res →
  pit st (toMove st) p = 0 →
  allowMoveFromEmpty rules = true
  ∧ path res = [] ∧ capture res = NoCapture ∧ extraTurn res = false
  ∧ state res
    = finalizeIfTerminal (set_toMove (other (toMove st)) (cloneState st)) rules.
Proof.
  intros Hsz Hplay Hz.
  pose proof (playMove_ok_inv rules st p res Hplay)
    as ([Hp Hacc] & Hst & Hpath & _ & _ & Hextra & Hcap).
  rewrite (sowPath_empty st rules (toMove st) p Hz) in Hpath.
  rewrite Hpath in Hextra, Hcap. simpl in Hextra, Hcap.
  split; [by destruct Hacc|]. split; [done|]. split; [done|].
  split; [rewrite Hextra; unfold extraTurnOf; simpl; apply andb_false_r|].
  assert (emptied st (toMove st) p = cloneState st) as Hemp.
  { unfold emptied, set_pit.
    assert (pits (cloneState st) (toMove st) !! Z.to_nat p = Some 0) as Hl.
    { assert (pits (cloneState st) (toMove st) = pits st (toMove st)) as ->
        by (by destruct (toMove st)).
      rewrite <- Hz. apply pit_in_range. rewrite (Hsz (toMove st)). lia. }
    rewrite (list_insert_id _ _ _ Hl). by destruct (toMove st). }
  rewrite Hst. unfold beforeSweep, afterCapture, sown.
  rewrite (sowPath_empty st rules (toMove st) p Hz), Hemp.
  unfold extraTurnOf. simpl. by rewrite andb_false_r.
Qed.

Lemma empty_pit_move_passes_witness :
  let rules := mkRules 3 4 true true KALAH true in
  let st := mkState [2; 0; 7] [1; 0; 3] 5 9 Side0 None in
  sized rules st
  ∧ ∃ res, playMove st rules 1 = PlayOk res
      ∧ state res = mkState [2; 0; 7] [1; 0; 3] 5 9 Side1 None.
Proof.
  intros rules st.
  assert (sized rules st) as Hsz by (intros []; reflexivity).
  split; [exact Hsz|].
  destruct (playMove st rules 1) as [e|res] eqn:Hplay; [discriminate Hplay|].
  exists res. split; [reflexivity|].
  pose proof (empty_pit_move_passes rules st 1 res Hsz Hplay eq_refl)
    as (_ & _ & _ & _ & Hst).
  rewrite Hst. reflexivity.
Defined.

(** X8.  The position built by [initStandard] for rules accepted by
    [makeRules]: it meets the data model, both stores are empty and every
    pit holds [seedsPerPit]; the side to move is 1 only for the argument 1;
    it is terminal exactly when [seedsPerPit] is 0, and otherwise every pit
    is a legal move. *)
Theorem initial_position n0 s0 e w c a rules k :
  makeRules n0 s0 e w c a = inr rules →
  let st := initStandard rules k in
  wf rules st
  ∧ store st Side0 = 0 ∧ store st Side1 = 0
  ∧ (∀ s i, 0 ≤ i < pitsPerSide rules → pit st s i = seedsPerPit rules)
  ∧ (toMove st = Side1 ↔ k = 1)
  ∧ (isTerminal st rules = true ↔ seedsPerPit rules = 0)
  ∧ (0 < seedsPerPit rules → getValidMoves st rules = range (pitsPerSide rules)).
Proof.
  intros Hr st. pose proof (makeRules_ok _ _ _ _ _ _ _ Hr) as [Hn Hs].
  assert (∀ s i, 0 ≤ i < pitsPerSide rules → pit st s i = seedsPerPit rules) as Hpit.
  { intros s i Hi. unfold pit.
    assert (pits st s = replicate (Z.to_nat (pitsPerSide rules)) (seedsPerPit rules))
      as -> by (by destruct s).
    rewrite lookup_replicate_2 by lia. done. }
  split; [by apply wf_initStandard|].
  split; [done|]. split; [done|]. split; [done|]. split; [|split].
  - subst st. unfold initStandard. simpl. destruct (Z.eqb_spec k 1); split; done.
  - rewrite isTerminal_spec. split.
    + intros [H|H]; rewrite <- (H 0), Hpit; lia.
    + intros Hz. left. intros i Hi. rewrite Hpit; done.
  - intros Hpos. unfold getValidMoves.
    assert (∀ l, Forall (λ i, 0 ≤ i < pitsPerSide rules) l →
       List.filter (λ i, negb (negb (allowMoveFromEmpty rules)
                                 && (pit st (toMove st) i =? 0))) l = l) as Hall.
    { induction 1 as [|x l Hx _ IH]; [done|]. cbn [List.filter].
      rewrite Hpit by done. destruct (Z.eqb_spec (seedsPerPit rules) 0); [lia|].
      rewrite andb_false_r. cbn [negb]. by rewrite IH. }
    apply Hall, Forall_forall. intros i. apply elem_of_range.
Qed.

Lemma initial_position_witness :
  let rules := mkRules 6 4 true true KALAH false in
  makeRules 6 4 true true KALAH false = inr rules
  ∧ getValidMoves (initStandard rules 0) rules = [0; 1; 2; 3; 4; 5].
Proof.
  intros rules.
  assert (makeRules 6 4 true true KALAH false = inr rules) as Hr by reflexivity.
  split; [exact Hr|].
  pose proof (initial_position 6 4 true true KALAH false rules 0 Hr)
    as (_ & _ & _ & _ & _ & _ & Hmoves).
  rewrite Hmoves by (simpl; lia). reflexivity.
Defined.

(** X9.  Rebuilding a state from its own parts with [initFromArrays]
    succeeds and gives back the pits and the side to move (an attached
    [terminal] property is not carried over).  A store is given back
    exactly when it is a signed 32-bit integer: [| 0] wraps any other. *)
Theorem initFromArrays_round_trip rules st :
  sized rules st →
  ∃ st', initFromArrays rules (pits st Side0) (pits st Side1)
           (inject_Z (store st Side0)) (inject_Z (store st Side1))
           (sideNumber (toMove st)) = inr st'
    ∧ (∀ s, pits st' s = pits st s) ∧ toMove st' = toMove st
    ∧ terminal_prop st' = None
    ∧ (∀ s, store st' s = store st s ↔ - 2 ^ 31 ≤ store st s < 2 ^ 31).
Proof.
  intros Hsz. unfold initFromArrays.
  rewrite (Hsz Side0), (Hsz Side1), Z.eqb_refl. cbn [negb].
  eexists. split; [reflexivity|].
  split; [by intros []|]. split; [by destruct (toMove st)|]. split; [done|].
  intros []; cbn [store store0 store1]; apply toInt32_inject_Z.
Qed.

Lemma initFromArrays_round_trip_witness :
  let rules := mkRules 3 4 true true KALAH false in
  let st := mkState [2; 0; 9] [1; 0; 3] 5 (2 ^ 31) Side1 (Some true) in
  sized rules st
  ∧ ∃ st', initFromArrays rules [2; 0; 9] [1; 0; 3] 5%Q (inject_Z (2 ^ 31)) 1 = inr st'
      ∧ store st' Side0 = 5 ∧ store st' Side1 ≠ 2 ^ 31.
Proof.
  intros rules st.
  assert (sized rules st) as Hsz by (intros []; reflexivity).
  split; [exact Hsz|].
  destruct (initFromArrays_round_trip rules st Hsz)
    as (st' & Hst' & Hpits & Hmove & Hprop & Hstore).
  exists st'. split; [exact Hst'|]. split.
  - apply (proj2 (Hstore Side0)). simpl. lia.
  - intros E. apply (proj1 (Hstore Side1)) in E. simpl in E. lia.
Defined.

(** X10.  [finalizeIfTerminal] on the store of state objects: it never
    writes to the object it is given.  It returns that very object, and
    allocates nothing, exactly when it does not sweep; when it sweeps, the
    result is a new object. *)
Theorem finalizeIfTerminal_aliasing rules (h : list GameState) (r : nat) st :
  h !! r = Some st →
  ∃ r' new,
    Alias.finalizeIfTerminal r rules h = (r', h ++ new)
    ∧ (h ++ new) !! r' = Some (finalizeIfTerminal st rules)
    ∧ (h ++ new) !! r = Some st
    ∧ (r' = r ↔ isTerminal st rules && sweepOnGameEnd rules = false)
    ∧ (new = [] ↔ isTerminal st rules && sweepOnGameEnd rules = false).
Proof.
  intros Hr.
  destruct (list_elem_of_split_length h r st Hr) as (h1 & h2 & -> & ->).
  rewrite run_finalizeIfTerminal.
  assert (sized_or : finalizeIfTerminal st rules
                     = if isTerminal st rules && sweepOnGameEnd rules
                       then finalizeIfTerminal st rules else st).
  { unfold finalizeIfTerminal.
    destruct (isTerminal st rules); [|done]. by destruct (sweepOnGameEnd rules). }
  destruct (isTerminal st rules && sweepOnGameEnd rules) eqn:E.
  - exists (length (h1 ++ st :: h2)), [finalizeIfTerminal st rules].
    split; [done|]. split.
    { rewrite lookup_app_r by lia. by rewrite Nat.sub_diag. }
    split; [by rewrite lookup_app_l by (rewrite length_app; simpl; lia)|].
    split; split; try done. rewrite length_app. simpl. lia.
  - exists (length h1), []. rewrite app_nil_r.
    split; [done|]. rewrite sized_or. done.
Qed.

Lemma finalizeIfTerminal_aliasing_witness :
  let rules := mkRules 2 4 true true KALAH false in
  let st := mkState [0; 0] [3; 1] 2 2 Side0 None in
  let h := [initStandard rules 0; st] in
  h !! 1%nat = Some st
  ∧ ∃ r' new, Alias.finalizeIfTerminal 1 rules h = (r', h ++ new)
      ∧ (h ++ new) !! r' = Some (mkState [0; 0] [0; 0] 2 6 Side0 None)
      ∧ r' ≠ 1%nat.
Proof.
  intros rules st h.
  assert (h !! 1%nat = Some st) as Hr by reflexivity.
  split; [exact Hr|].
  destruct (finalizeIfTerminal_aliasing rules h 1 st Hr)
    as (r' & new & E & Hout & Hin & Hsame & Hnew).
  exists r', new. split; [exact E|]. split.
  - rewrite Hout. reflexivity.
  - intros ->. pose proof (proj1 Hsame eq_refl) as Hno. discriminate Hno.
Defined.

(** ** The length of a game *)

Lemma weighted_bounds l : Forall (λ x, 0 ≤ x) l → ∀ i, 0 ≤ i →
  i * sumZ l ≤ weighted i l ≤ (i + Z.of_nat (length l) - 1) * sumZ l.
Proof.
  induction 1 as [|x l Hx Hl IH]; intros i Hi; simpl; [lia|].
  specialize (IH (i + 1) ltac:(lia)).
  pose proof (sumZ_nonneg l Hl). nia.
Qed.

Lemma advance_bounds rules st :
  wf rules st → 0 < pitsPerSide rules →
  0 ≤ advance st ≤ (pitsPerSide rules - 1) * pitSeeds st.
Proof.
  intros [Hsz Hnn] Hn. unfold advance, pitSeeds.
  pose proof (weighted_bounds _ (Hnn Side0) 0 ltac:(lia)) as H0.
  pose proof (weighted_bounds _ (Hnn Side1) 0 ltac:(lia)) as H1.
  pose proof (Hsz Side0) as L0. pose proof (Hsz Side1) as L1.
  cbn [pits] in *. rewrite L0 in H0. rewrite L1 in H1. lia.
Qed.

Lemma total_pitSeeds st : total st = pitSeeds st + inStores st.
Proof. unfold total, pitSeeds, inStores. simpl. lia. Qed.

(** Along a play line the rank of the positions goes up by at least one
    per move. *)
Lemma rank_step rules p0 s0 a b :
  0 < pitsPerSide rules → wf rules a → wf rules b → total a = total b →
  pitSeeds a + inStores a = p0 + s0 → s0 ≤ inStores a → ahead a b →
  (inStores a - s0) * ((pitsPerSide rules - 1) * p0 + 1) + advance a + 1
  ≤ (inStores b - s0) * ((pitsPerSide rules - 1) * p0 + 1) + advance b.
Proof.
  intros Hn Ha Hb Ht Hsum Hs0 Hahead.
  pose proof (advance_bounds rules a Ha Hn) as Ba.
  pose proof (advance_bounds rules b Hb Hn) as Bb.
  destruct Hahead as [Hlt|[Heq Hadv]]; [|rewrite Heq; lia].
  assert (pitSeeds a ≤ p0) as Hp0 by lia.
  assert (0 ≤ pitSeeds a) as Hpa.
  { unfold pitSeeds. destruct Ha as [_ Hnn].
    pose proof (sumZ_nonneg _ (Hnn Side0)). pose proof (sumZ_nonneg _ (Hnn Side1)). lia. }
  set (k := (pitsPerSide rules - 1) * p0 + 1) in *.
  assert (advance a + 1 ≤ k) as Hk.
  { subst k. assert ((pitsPerSide rules - 1) * pitSeeds a
                     ≤ (pitsPerSide rules - 1) * p0) by (apply Z.mul_le_mono_nonneg_l; lia).
    lia. }
  assert (k ≤ (inStores b - inStores a) * k) as Hd.
  { rewrite <- (Z.mul_1_l k) at 1. apply Z.mul_le_mono_nonneg_r; lia. }
  replace ((inStores b - s0) * k)
    with ((inStores a - s0) * k + (inStores b - inStores a) * k) by ring.
  lia.
Qed.

Lemma play_line_tail rules a b l : play_line rules (a :: b :: l) → play_line rules (b :: l).
Proof. by inversion 1. Qed.

Lemma rank_line rules p0 s0 : 0 < pitsPerSide rules → allowMoveFromEmpty rules = false →
  ∀ l a, play_line rules (a :: l) → wf rules a →
    pitSeeds a + inStores a = p0 + s0 → s0 ≤ inStores a →
    ∀ z, last (a :: l) = Some z →
      (inStores a - s0) * ((pitsPerSide rules - 1) * p0 + 1) + advance a
      + Z.of_nat (length l)
      ≤ (inStores z - s0) * ((pitsPerSide rules - 1) * p0 + 1) + advance z
      ∧ wf rules z ∧ pitSeeds z + inStores z = p0 + s0 ∧ s0 ≤ inStores z.
Proof.
  intros Hn Hempty. induction l as [|b l IH]; intros a Hline Hwf Hsum Hs0 z Hz.
  - injection Hz as <-. simpl. split; [lia|done].
  - pose proof (line_invariant rules _ Hline a eq_refl Hwf) as Hinv.
    apply Forall_cons in Hinv as [_ [[Hwfb Htb] _]%Forall_cons].
    pose proof (line_ahead rules _ Hempty Hline a (b :: l) eq_refl Hwf) as Hah.
    apply Forall_cons in Hah as [Hab _].
    pose proof (rank_step rules p0 s0 a b Hn Hwf Hwfb (eq_sym Htb) Hsum Hs0 Hab) as Hstep.
    assert (pitSeeds b + inStores b = p0 + s0) as Hsumb.
    { rewrite <- total_pitSeeds, Htb, total_pitSeeds. done. }
    assert (s0 ≤ inStores b) as Hsb by (destruct Hab as [?|[? _]]; lia).
    destruct (IH b (play_line_tail _ _ _ _ Hline) Hwfb Hsumb Hsb z) as (Hle & Hz').
    { by rewrite last_cons_cons in Hz. }
    split; [|done]. cbn [length]. lia.
Qed.

Lemma game_length_bound_general rules st l :
  0 < pitsPerSide rules → allowMoveFromEmpty rules = false →
  wf rules st → play_line rules (st :: l) →
  Z.of_nat (length l)
  ≤ pitSeeds st * ((pitsPerSide rules - 1) * pitSeeds st + 1) - advance st.
Proof.
  intros Hn Hempty Hwf Hline.
  destruct (last (st :: l)) as [z|] eqn:Hz.
  2:{ by apply last_None in Hz. }
  destruct (rank_line rules (pitSeeds st) (inStores st) Hn Hempty l st Hline Hwf
              eq_refl ltac:(lia) z Hz) as (Hle & Hwfz & Hsum & Hs).
  pose proof (advance_bounds rules z Hwfz Hn) as Bz.
  assert (0 ≤ pitSeeds z) as Hpz.
  { unfold pitSeeds. destruct Hwfz as [_ Hnn].
    pose proof (sumZ_nonneg _ (Hnn Side0)). pose proof (sumZ_nonneg _ (Hnn Side1)). lia. }
  rewrite Z.sub_diag, Z.mul_0_l, Z.add_0_l in Hle.
  set (k := (pitsPerSide rules - 1) * pitSeeds st + 1) in *.
  set (d := inStores z - inStores st) in *.
  assert (pitSeeds z = pitSeeds st - d) as Hpzd by (subst d; lia).
  assert (advance z ≤ (pitSeeds st - d) * k) as Hadv.
  { rewrite Hpzd in Bz. destruct Bz as [_ Bz]. etrans; [exact Bz|].
    destruct (decide (pitSeeds st - d = 0)) as [E0|Hne]; [rewrite E0; lia|].
    rewrite (Z.mul_comm _ (pitSeeds st - d)).
    apply Z.mul_le_mono_nonneg_l; [lia|]. subst k.
    assert ((pitsPerSide rules - 1) * 1 ≤ (pitsPerSide rules - 1) * pitSeeds st)
      by (apply Z.mul_le_mono_nonneg_l; lia).
    lia. }
  replace (pitSeeds st * k) with (d * k + (pitSeeds st - d) * k) by ring.
  lia.
Qed.

(** X11.  Every game ends.  Under [allowMoveFromEmpty = false] a play
    line from a position with [p] seeds in its pits has at most
    [p * ((pitsPerSide - 1) * p + 1)] moves, less the weighted pit count
    [advance] of that position: each move either puts a seed into a store
    or carries seeds further along the rows. *)
Theorem game_length_bound rules st l :
  0 < pitsPerSide rules → allowMoveFromEmpty rules = false →
  wf rules st → play_line rules (st :: l) →
  Z.of_nat (length l)
  ≤ pitSeeds st * ((pitsPerSide rules - 1) * pitSeeds st + 1) - advance st.
Proof. apply game_length_bound_general. Qed.

Lemma game_length_bound_witness :
  let rules := mkRules 6 4 true true KALAH false in
  let st := initStandard rules 0 in
  let l := [mkState [4; 4; 0; 5; 5; 5] [4; 4; 4; 4; 4; 4] 1 0 Side0 None;
            mkState [4; 4; 0; 5; 5; 0] [5; 5; 5; 5; 4; 4] 2 0 Side1 None] in
  play_line rules (st :: l) ∧ Z.of_nat (length l) ≤ 11448.
Proof.
  intros rules st l.
  assert (0 < pitsPerSide rules) as Hn by reflexivity.
  assert (wf rules st) as Hwf.
  { apply wf_initStandard. split; simpl; lia. }
  assert (play_line rules (st :: l)) as Hline.
  { repeat constructor.
    - exists 2. eexists. split; [vm_compute; reflexivity|reflexivity].
    - exists 5. eexists. split; [vm_compute; reflexivity|reflexivity]. }
  split; [exact Hline|].
  pose proof (game_length_bound rules st l Hn eq_refl Hwf Hline) as Hb.
  assert (pitSeeds st * ((pitsPerSide rules - 1) * pitSeeds st + 1) - advance st = 11448)
    as E by reflexivity.
  rewrite E in Hb. exact Hb.
Defined.

(** * Further properties of the advisor *)

Lemma Score_max_comm a b : Score_max a b = Score_max b a.
Proof.
  destruct (sle_or_slt a b) as [H|H].
  - by rewrite (Score_max_r a b H), (Score_max_l b a H).
  - apply slt_sle in H. by rewrite (Score_max_l a b H), (Score_max_r b a H).
Qed.

Lemma Score_min_comm a b : Score_min a b = Score_min b a.
Proof.
  destruct (sle_or_slt a b) as [H|H].
  - by rewrite (Score_min_l a b H), (Score_min_r b a H).
  - apply slt_sle in H. by rewrite (Score_min_r a b H), (Score_min_l b a H).
Qed.

Lemma Score_max_assoc a b c :
  Score_max (Score_max a b) c = Score_max a (Score_max b c).
Proof.
  apply sle_antisym.
  - apply Score_max_lub; [apply Score_max_lub|].
    + apply Score_max_ge_l.
    + eapply sle_trans; [apply Score_max_ge_l|apply Score_max_ge_r].
    + eapply sle_trans; [apply Score_max_ge_r|apply Score_max_ge_r].
  - apply Score_max_lub; [|apply Score_max_lub].
    + eapply sle_trans; [apply Score_max_ge_l|apply Score_max_ge_l].
    + eapply sle_trans; [apply Score_max_ge_r|apply Score_max_ge_l].
    + apply Score_max_ge_r.
Qed.

Lemma Score_min_assoc a b c :
  Score_min (Score_min a b) c = Score_min a (Score_min b c).
Proof.
  apply sle_antisym.
  - apply Score_min_glb; [|apply Score_min_glb].
    + eapply sle_trans; [apply Score_min_le_l|apply Score_min_le_l].
    + eapply sle_trans; [apply Score_min_le_l|apply Score_min_le_r].
    + apply Score_min_le_r.
  - apply Score_min_glb; [apply Score_min_glb|].
    + apply Score_min_le_l.
    + eapply sle_trans; [apply Score_min_le_r|apply Score_min_le_l].
    + eapply sle_trans; [apply Score_min_le_r|apply Score_min_le_r].
Qed.

Lemma foldl_perm (f : Score → Score → Score) l l' :
  (∀ a x y, f (f a x) y = f (f a y) x) →
  l ≡ₚ l' → ∀ a, foldl f a l = foldl f a l'.
Proof.
  intros Hf. induction 1 as [|x l l' _ IH|x y l|l l' l'' _ IH1 _ IH2]; intros a; simpl.
  - done.
  - apply IH.
  - by rewrite Hf.
  - by rewrite IH1.
Qed.

Lemma foldl_max_perm l l' a :
  l ≡ₚ l' → foldl Score_max a l = foldl Score_max a l'.
Proof.
  intros H. apply foldl_perm; [|done]. intros b x y.
  by rewrite !Score_max_assoc, (Score_max_comm x y).
Qed.

Lemma foldl_min_perm l l' a :
  l ≡ₚ l' → foldl Score_min a l = foldl Score_min a l'.
Proof.
  intros H. apply foldl_perm; [|done]. intros b x y.
  by rewrite !Score_min_assoc, (Score_min_comm x y).
Qed.

Lemma childValues_perm child st rules rootP rep l l' :
  l ≡ₚ l' →
  childValues child st rules rootP rep l ≡ₚ childValues child st rules rootP rep l'.
Proof.
  induction 1 as [|x l l' _ IH|x y l|l l' l'' _ IH1 _ IH2]; simpl.
  - done.
  - destruct (playMove st rules x); [done|]. by constructor.
  - destruct (playMove st rules x), (playMove st rules y); try done. apply perm_swap.
  - by etrans.
Qed.

Lemma childValues_ext child child' st rules rootP rep l :
  (∀ st' r, child st' r = child' st' r) →
  childValues child st rules rootP rep l = childValues child' st rules rootP rep l.
Proof.
  intros H. induction l as [|x l IH]; simpl; [done|].
  destruct (playMove st rules x); [done|]. by rewrite H, IH.
Qed.

Lemma minimax_plies_unordered rules rootP sP sO d : ∀ st rep,
  minimax_plies d st rules rootP sP sO rep
  = minimax_unordered d st rules rootP sP sO rep.
Proof.
  induction d as [|d IH]; intros st rep; simpl; [done|].
  destruct (terminal_truthy st); [done|].
  destruct (length (getValidMoves st rules) =? 0)%nat; [done|].
  rewrite (childValues_ext _ _ _ _ _ _ _ IH).
  pose proof (childValues_perm
    (λ st' rep2, minimax_unordered d st' rules rootP sP sO rep2) st rules rootP rep
    _ _ (orderMoves_perm st rules (getValidMoves st rules))) as Hp.
  destruct (Side_eqb (toMove st) rootP).
  - by apply foldl_max_perm.
  - by apply foldl_min_perm.
Qed.

Lemma alphabeta_full_minimax st rules depth rootP sP sO rep :
  alphabeta st rules depth NegInf PosInf rootP sP sO rep
  = minimax_plies (Z.to_nat depth) st rules rootP sP sO rep.
Proof.
  unfold alphabeta.
  destruct (alphabeta_plies_bracket rules rootP sP sO (Z.to_nat depth) st NegInf PosInf rep)
    as (_ & _ & H); [done|].
  destruct (alphabeta_plies_finite (Z.to_nat depth) st rules NegInf PosInf rootP sP sO rep)
    as [z Hz].
  apply H; by rewrite Hz.
Qed.

(** X12.  The window of [alphabeta] is sound (fail-soft).  For
    [alpha < beta], a value strictly inside the window is the value of the
    full-window search; a value at or below [alpha] is an upper bound of it
    and a value at or above [beta] a lower bound. *)
Theorem alphabeta_window_sound st rules depth alpha beta rootP sP sO rep :
  slt alpha beta →
  let v := alphabeta st rules depth alpha beta rootP sP sO rep in
  let t := alphabeta st rules depth NegInf PosInf rootP sP sO rep in
  (slt alpha v → slt v beta → v = t)
  ∧ (sle v alpha → sle t v)
  ∧ (sle beta v → sle v t).
Proof.
  intros Hab v t. subst v t.
  destruct (alphabeta_bracket st rules depth alpha beta rootP sP sO rep Hab)
    as (Hlo & Hhi & Hin).
  done.
Qed.

Lemma alphabeta_window_sound_witness :
  let rules := mkRules 6 4 true true KALAH false in
  let st := initStandard rules 0 in
  slt (Fin 0) (Fin 5)
  ∧ alphabeta st rules 2 (Fin 0) (Fin 5) Side0 0 0 0 = Fin 21
  ∧ sle (Fin 21) (alphabeta st rules 2 NegInf PosInf Side0 0 0 0).
Proof.
  intros rules st.
  assert (slt (Fin 0) (Fin 5)) as Hab by reflexivity.
  split; [exact Hab|].
  assert (alphabeta st rules 2 (Fin 0) (Fin 5) Side0 0 0 0 = Fin 21) as Hv
    by (vm_compute; reflexivity).
  split; [exact Hv|].
  rewrite <- Hv.
  apply (proj2 (proj2 (alphabeta_window_sound st rules 2 (Fin 0) (Fin 5) Side0 0 0 0 Hab))).
  rewrite Hv. reflexivity.
Defined.

(** X13.  Neither the cutoffs nor [orderMoves] change the value: with the
    full window [alphabeta] returns the plain minimax value over the legal
    moves taken in board order. *)
Theorem move_order_does_not_change_value st rules depth rootP sP sO rep :
  alphabeta st rules depth NegInf PosInf rootP sP sO rep
  = minimax_unordered (Z.to_nat depth) st rules rootP sP sO rep.
Proof. by rewrite alphabeta_full_minimax, minimax_plies_unordered. Qed.

Lemma StronglySorted_fmap {A B} (R : B → B → Prop) (f : A → B) l :
  StronglySorted (λ a b, R (f a) (f b)) l → StronglySorted R (f <$> l).
Proof.
  induction 1 as [|x l _ IH Hx]; simpl; constructor; [done|].
  apply Forall_fmap. by apply (Forall_impl _ _ _ Hx).
Qed.

Lemma insertDesc_sorted x l :
  StronglySorted (λ a b, b.2 ≤ a.2) l →
  StronglySorted (λ a b, b.2 ≤ a.2) (insertDesc x l).
Proof.
  induction 1 as [|y l Hl IH Hy]; simpl.
  - repeat constructor.
  - destruct (Z.gtb_spec y.2 x.2) as [Hgt|Hle].
    + constructor; [done|].
      rewrite (insertDesc_perm x l). constructor; [lia|done].
    + constructor; [by constructor|].
      constructor; [done|].
      apply (Forall_impl _ _ _ Hy). intros z Hz. simpl in *. lia.
Qed.

Lemma sortDesc_sorted l : StronglySorted (λ a b, b.2 ≤ a.2) (sortDesc l).
Proof.
  induction l as [|x l IH]; simpl; [constructor|]. by apply insertDesc_sorted.
Qed.

Lemma insertDesc_stable k x l :
  List.filter (λ y, y.2 =? k) (insertDesc x l) = List.filter (λ y, y.2 =? k) (x :: l).
Proof.
  induction l as [|y l IH]; [done|]. cbn [insertDesc].
  destruct (Z.gtb_spec y.2 x.2) as [Hgt|Hle]; [|done].
  cbn [List.filter] in *. rewrite IH.
  destruct (Z.eqb_spec y.2 k), (Z.eqb_spec x.2 k); try done. lia.
Qed.

Lemma sortDesc_stable k l :
  List.filter (λ y, y.2 =? k) (sortDesc l) = List.filter (λ y, y.2 =? k) l.
Proof.
  induction l as [|x l IH]; [done|]. cbn [sortDesc foldr].
  fold (sortDesc l). rewrite insertDesc_stable. cbn [List.filter]. by rewrite IH.
Qed.

Lemma filter_fmap_fst {A B} (f : A → B) (eqb : B → B → bool) (k : B)
    (l : list (A * B)) :
  Forall (λ y, y.2 = f y.1) l →
  fst <$> List.filter (λ y, eqb y.2 k) l = List.filter (λ a, eqb (f a) k) (fst <$> l).
Proof.
  induction 1 as [|y l Hy _ IH]; [done|].
  rewrite fmap_cons. cbn [List.filter]. rewrite <- Hy.
  destruct (eqb y.2 k); rewrite ?fmap_cons, IH; done.
Qed.

(** X15.  [orderMoves] returns the moves it was given, arranged by
    non-increasing heuristic score, moves of equal score in the order they
    came in. *)
Theorem orderMoves_sorts_stably st rules moves :
  orderMoves st rules moves ≡ₚ moves
  ∧ StronglySorted (λ a b, orderScore st rules b ≤ orderScore st rules a)
      (orderMoves st rules moves)
  ∧ ∀ k, List.filter (λ mv, orderScore st rules mv =? k) (orderMoves st rules moves)
         = List.filter (λ mv, orderScore st rules mv =? k) moves.
Proof.
  split; [apply orderMoves_perm|].
  set (scored := (λ mv, (mv, orderScore st rules mv)) <$> moves).
  assert (Forall (λ y, y.2 = orderScore st rules y.1) (sortDesc scored)) as Hsc.
  { rewrite sortDesc_perm. subst scored. apply Forall_fmap, Forall_forall. done. }
  assert (fst <$> scored = moves) as Hfst.
  { subst scored. rewrite <- list_fmap_compose. apply list_fmap_id. }
  unfold orderMoves. fold scored. split.
  - apply StronglySorted_fmap.
    pose proof (sortDesc_sorted scored) as Hs.
    revert Hsc. induction Hs as [|y l Hl IH Hy]; intros Hsc; constructor.
    + apply IH. by apply Forall_cons in Hsc as [_ ?].
    + apply Forall_cons in Hsc as [Ey Hsc].
      rewrite Forall_forall in Hy, Hsc. apply Forall_forall. intros z Hz.
      rewrite <- Ey, <- (Hsc z Hz). by apply Hy.
  - intros k.
    rewrite <- (filter_fmap_fst (orderScore st rules) Z.eqb k _ Hsc).
    rewrite sortDesc_stable.
    rewrite (filter_fmap_fst (orderScore st rules) Z.eqb k scored), Hfst; [done|].
    subst scored. apply Forall_fmap, Forall_forall. done.
Qed.

(** ** scoreMoves *)

Lemma insertDescScore_sorted x l :
  StronglySorted (λ a b, sle b.2 a.2) l →
  StronglySorted (λ a b, sle b.2 a.2) (insertDescScore x l).
Proof.
  induction 1 as [|y l Hl IH Hy]; simpl.
  - repeat constructor.
  - destruct (Score_leb y.2 x.2) eqn:E; simpl.
    + constructor; [by constructor|].
      constructor; [done|].
      apply (Forall_impl _ _ _ Hy). intros z Hz. simpl in *.
      by eapply sle_trans.
    + constructor; [done|].
      rewrite (insertDescScore_perm x l). constructor; [|done].
      by apply slt_sle.
Qed.

Lemma Score_eqb_eq a b : Score_eqb a b = true ↔ a = b.
Proof.
  unfold Score_eqb. rewrite andb_true_iff. split.
  - intros [? ?]. by apply Score_leb_antisym.
  - intros ->. by rewrite Score_leb_refl.
Qed.

Lemma insertDescScore_stable k x l :
  List.filter (λ y, Score_eqb y.2 k) (insertDescScore x l)
  = List.filter (λ y : Z * Score, Score_eqb y.2 k) (x :: l).
Proof.
  induction l as [|y l IH]; [done|]. cbn [insertDescScore].
  destruct (Score_leb y.2 x.2) eqn:E; cbn [negb]; [done|].
  cbn [List.filter] in *. rewrite IH.
  destruct (Score_eqb y.2 k) eqn:Ey, (Score_eqb x.2 k) eqn:Ex; try done.
  apply Score_eqb_eq in Ey, Ex. rewrite Ey, Ex, Score_leb_refl in E. done.
Qed.

Lemma rootScore_accepted st rules depth mv :
  accepted rules st mv → is_Some (rootScore st rules depth mv).
Proof.
  intros [res Hres]%playMove_accepted. unfold rootScore. by rewrite Hres.
Qed.

(** X16.  [scoreMoves] scores every legal move once, each with a finite
    full-window score, and lists them best first; moves of equal score are
    in the order of [getValidMoves], that is by increasing pit index. *)
Theorem scoreMoves_lists_legal_moves_best_first st rules depth :
  fst <$> scoreMoves st rules depth ≡ₚ getValidMoves st rules
  ∧ StronglySorted (λ a b, sle b.2 a.2) (scoreMoves st rules depth)
  ∧ (∀ mv sc, (mv, sc) ∈ scoreMoves st rules depth →
       finite sc ∧ rootScore st rules depth mv = Some sc)
  ∧ ∀ k, fst <$> List.filter (λ y, Score_eqb y.2 k) (scoreMoves st rules depth)
         = List.filter
             (λ mv, match rootScore st rules depth mv with
                    | Some sc => Score_eqb sc k
                    | None => false
                    end) (getValidMoves st rules).
Proof.
  unfold scoreMoves.
  set (out := omap (λ mv, (λ score, (mv, score)) <$> rootScore st rules depth mv)
                (getValidMoves st rules)).
  assert (foldr insertDescScore [] out ≡ₚ out) as Hperm.
  { induction out as [|x l IH]; simpl; [done|]. by rewrite insertDescScore_perm, IH. }
  assert (∀ l, Forall (accepted rules st) l →
            fst <$> omap (λ mv, (λ score, (mv, score)) <$> rootScore st rules depth mv) l
            = l) as Hfst.
  { induction 1 as [|mv l Hmv _ IH]; [done|].
    destruct (rootScore_accepted st rules depth mv Hmv) as [sc Esc].
    simpl. rewrite Esc. simpl. f_equal. exact IH. }
  assert (∀ k l, Forall (accepted rules st) l →
            fst <$> List.filter (λ y, Score_eqb y.2 k)
              (omap (λ mv, (λ score, (mv, score)) <$> rootScore st rules depth mv) l)
            = List.filter
                (λ mv, match rootScore st rules depth mv with
                       | Some sc => Score_eqb sc k
                       | None => false
                       end) l) as Hfilter.
  { intros k. induction 1 as [|mv l Hmv _ IH]; [done|].
    destruct (rootScore_accepted st rules depth mv Hmv) as [sc Esc].
    simpl. rewrite Esc. simpl.
    destruct (Score_eqb sc k); rewrite ?fmap_cons; simpl; f_equal; exact IH. }
  split; [|split; [|split]].
  - rewrite Hperm. subst out. by rewrite Hfst by apply getValidMoves_accepted.
  - clear. induction out as [|x l IH]; simpl; [constructor|].
    by apply insertDescScore_sorted.
  - intros mv sc Hin. fold (scoreMoves st rules depth) in Hin.
    apply scoreMoves_elem in Hin as [_ Hsc]. split; [|done].
    unfold rootScore in Hsc. destruct (playMove st rules mv); [done|].
    injection Hsc as <-. apply alphabeta_finite.
  - intros k.
    assert (List.filter (λ y : Z * Score, Score_eqb y.2 k) (foldr insertDescScore [] out)
            = List.filter (λ y, Score_eqb y.2 k) out) as ->.
    { clear. induction out as [|x l IH]; [done|]. cbn [foldr].
      rewrite insertDescScore_stable. cbn [List.filter]. by rewrite IH. }
    subst out. apply Hfilter, getValidMoves_accepted.
Qed.

(** X14.  [alphabeta] always returns a number, never an infinity, whatever
    window it is called with; so does [bestMove] when it has a move. *)
Theorem advisor_scores_are_finite st rules depth alpha beta rootP sP sO rep :
  finite (alphabeta st rules depth alpha beta rootP sP sO rep)
  ∧ (hasMove (bestMove st rules depth) = true →
     finite (score (bestMove st rules depth))).
Proof.
  split; [apply alphabeta_finite|].
  unfold bestMove, bestMoveRun.
  destruct (getValidMoves st rules) as [|mv0 moves] eqn:Hm; [done|].
  intros _.
  pose proof (orderMoves_accepted st rules) as Hall. rewrite Hm in Hall.
  set (d := if depth <=? 0 then 1 else depth).
  destruct (rootLoop_spec st rules d (store st (toMove st))
              (store st (other (toMove st))) PosInf _ Hall mv0 NegInf)
    as (mvF & scoreF & calls & -> & Hmoves & Hcalls & Hbest).
  simpl.
  destruct Hbest as [(_ & _ & Hle)|(k & c & Hfirst & _ & -> & _)].
  - destruct calls as [|c0 calls].
    + pose proof (orderMoves_perm st rules (mv0 :: moves)) as Hp.
      rewrite <- Hmoves in Hp. by apply Permutation_nil_cons in Hp.
    + specialize (Hle O c0 eq_refl).
      destruct (calls_finite st rules d _ _ _ Hcalls O c0 eq_refl) as [z Hz].
      by rewrite Hz in Hle.
  - destruct Hfirst as (Hk & _). by eapply calls_finite.
Qed.

(** X17.  [bestMove] has a move exactly when some move is playable; the
    move it returns is a legal one that [playMove] accepts; without a move
    it returns the sentinel; and a depth of 0 or less is searched as
    depth 1. *)
Theorem bestMove_returns_a_playable_move st rules depth :
  sized rules st →
  let best := bestMove st rules depth in
  (hasMove best = true ↔ ∃ p res, playMove st rules p = PlayOk res)
  ∧ (hasMove best = true →
     move best ∈ getValidMoves st rules
     ∧ ∃ res, playMove st rules (move best) = PlayOk res)
  ∧ (hasMove best = false → move best = -1 ∧ score best = NegInf)
  ∧ (depth ≤ 0 → best = bestMove st rules 1).
Proof.
  intros _ best. subst best.
  assert (hasMove (bestMove st rules depth) = true →
          move (bestMove st rules depth) ∈ getValidMoves st rules) as Hin.
  { unfold bestMove, bestMoveRun.
    destruct (getValidMoves st rules) as [|mv0 moves] eqn:Hm; [done|].
    intros _.
    pose proof (orderMoves_accepted st rules) as Hall. rewrite Hm in Hall.
    set (d := if depth <=? 0 then 1 else depth).
    destruct (rootLoop_spec st rules d (store st (toMove st))
                (store st (other (toMove st))) PosInf _ Hall mv0 NegInf)
      as (mvF & scoreF & calls & -> & Hmoves & Hcalls & Hbest).
    simpl.
    destruct Hbest as [(-> & _)|(k & c & (Hk & _) & -> & _)]; [by left|].
    rewrite <- (orderMoves_perm st rules (mv0 :: moves)), <- Hmoves.
    apply list_elem_of_fmap. exists c. split; [done|]. by eapply list_elem_of_lookup_2. }
  assert (∀ p, p ∈ getValidMoves st rules → ∃ res, playMove st rules p = PlayOk res)
    as Hplay.
  { intros p Hp. apply playMove_accepted.
    pose proof (getValidMoves_accepted st rules) as Hall.
    rewrite Forall_forall in Hall. by apply Hall. }
  split; [|split; [|split]].
  - split.
    + intros H. exists (move (bestMove st rules depth)). by apply Hplay, Hin.
    + intros (p & res & Hres).
      apply playMove_ok_inv in Hres as [Hacc _].
      apply accepted_getValidMoves in Hacc.
      unfold bestMove, bestMoveRun.
      destruct (getValidMoves st rules) as [|mv0 moves]; [by apply elem_of_nil in Hacc|].
      by destruct (rootLoop _ _ _ _ _ _ _ _ _ _ _) as [[? ?] ?].
  - intros H. split; [by apply Hin|by apply Hplay, Hin].
  - unfold bestMove, bestMoveRun.
    destruct (getValidMoves st rules) as [|mv0 moves]; [done|].
    by destruct (rootLoop _ _ _ _ _ _ _ _ _ _ _) as [[? ?] ?].
  - intros Hd. unfold bestMove, bestMoveRun.
    destruct (Z.leb_spec depth 0); [done|lia].
Qed.

Lemma bestMove_returns_a_playable_move_witness :
  let rules := mkRules 6 4 true true KALAH false in
  let st := initStandard rules 0 in
  sized rules st
  ∧ bestMove st rules 3 = mkBest true 2 (Fin 16)
  ∧ ∃ res, playMove st rules 2 = PlayOk res.
Proof.
  intros rules st.
  assert (sized rules st) as Hsz by (intros []; reflexivity).
  split; [exact Hsz|].
  assert (bestMove st rules 3 = mkBest true 2 (Fin 16)) as Hb by (vm_compute; reflexivity).
  split; [exact Hb|].
  pose proof (bestMove_returns_a_playable_move st rules 3 Hsz) as (_ & Hmove & _).
  rewrite Hb in Hmove. exact (proj2 (Hmove eq_refl)).
Defined.

(** * The page controller *)

(** ** ui.js: move strings *)

Ltac zbool :=
  repeat match goal with
  | H : context [andb _ _ = true] |- _ => rewrite andb_true_iff in H
  | H : context [orb _ _ = true] |- _ => rewrite orb_true_iff in H
  | H : context [andb _ _ = false] |- _ => rewrite andb_false_iff in H
  | H : context [orb _ _ = false] |- _ => rewrite orb_false_iff in H
  | H : context [(_ <=? _) = true] |- _ => rewrite Z.leb_le in H
  | H : context [(_ <=? _) = false] |- _ => rewrite Z.leb_gt in H
  | H : context [(_ <? _) = true] |- _ => rewrite Z.ltb_lt in H
  | H : context [(_ <? _) = false] |- _ => rewrite Z.ltb_ge in H
  | H : context [(_ =? _) = true] |- _ => rewrite Z.eqb_eq in H
  | H : context [(_ =? _) = false] |- _ => rewrite Z.eqb_neq in H
  | |- context [andb _ _ = true] => rewrite andb_true_iff
  | |- context [orb _ _ = true] => rewrite orb_true_iff
  | |- context [andb _ _ = false] => rewrite andb_false_iff
  | |- context [orb _ _ = false] => rewrite orb_false_iff
  | |- context [(_ <=? _) = true] => rewrite Z.leb_le
  | |- context [(_ <=? _) = false] => rewrite Z.leb_gt
  | |- context [(_ <? _) = true] => rewrite Z.ltb_lt
  | |- context [(_ <? _) = false] => rewrite Z.ltb_ge
  | |- context [(_ =? _) = true] => rewrite Z.eqb_eq
  | |- context [(_ =? _) = false] => rewrite Z.eqb_neq
  end.

Lemma isLetter_not_space u : isLetter u = true → Ui.isSpace u = false.
Proof. unfold isLetter, Ui.isSpace. intros H. zbool. lia. Qed.

Lemma isLetter_not_high u : isLetter u = true → Ui.isHighSurrogate u = false.
Proof. unfold isLetter, Ui.isHighSurrogate. intros H. zbool. lia. Qed.

Lemma isSpace_not_high u : Ui.isSpace u = true → Ui.isHighSurrogate u = false.
Proof. unfold Ui.isSpace, Ui.isHighSurrogate. intros H. zbool. lia. Qed.

Lemma isLow_not_space u : Ui.isLowSurrogate u = true → Ui.isSpace u = false.
Proof. unfold Ui.isSpace, Ui.isLowSurrogate. intros H. zbool. lia. Qed.

Lemma isHigh_not_space u : Ui.isHighSurrogate u = true → Ui.isSpace u = false.
Proof. unfold Ui.isSpace, Ui.isHighSurrogate. intros H. zbool. lia. Qed.

Lemma parseOk_not_high u : parseOk u = true → Ui.isHighSurrogate u = false.
Proof.
  unfold parseOk. intros [H|H]%orb_true_iff;
    [by apply isLetter_not_high|by apply isSpace_not_high].
Qed.

Lemma codePoints_single u s :
  Ui.isHighSurrogate u = false → Ui.codePoints (u :: s) = [u] :: Ui.codePoints s.
Proof. intros H. destruct s as [|l s]; simpl; [done|]. by rewrite H. Qed.

Lemma codePoints_head u s :
  ∃ ch rest, Ui.codePoints (u :: s) = ch :: rest
    ∧ (ch = [u] ∨ ∃ l, ch = [u; l] ∧ Ui.isHighSurrogate u = true
                       ∧ Ui.isLowSurrogate l = true).
Proof.
  destruct s as [|l s]; simpl; [by eexists _, _; split; [|left]|].
  destruct (Ui.isHighSurrogate u) eqn:Eh, (Ui.isLowSurrogate l) eqn:El; simpl;
    eexists _, _; (split; [done|]); eauto.
Qed.

Lemma lit_a : Ui.lit "a" = [97].  Proof. reflexivity. Qed.
Lemma lit_z : Ui.lit "z" = [122]. Proof. reflexivity. Qed.
Lemma lit_A : Ui.lit "A" = [65].  Proof. reflexivity. Qed.
Lemma lit_Z : Ui.lit "Z" = [90].  Proof. reflexivity. Qed.

(** The two range tests of the loop, on the string of one code point. *)
Lemma lower_test u t :
  Ui.str_geb (u :: t) (Ui.lit "a") && Ui.str_leb (u :: t) (Ui.lit "z")
  = (97 <=? u) && ((u <? 122) || ((u =? 122) && bool_decide (t = []))).
Proof.
  rewrite lit_a, lit_z. unfold Ui.str_geb, Ui.str_leb. simpl.
  destruct (Z.ltb_spec u 97), (Z.ltb_spec 97 u), (Z.ltb_spec 122 u),
    (Z.ltb_spec u 122), (Z.leb_spec 97 u), (Z.eqb_spec u 122);
    try lia; simpl; try done; by destruct t.
Qed.

Lemma upper_test u t :
  Ui.str_geb (u :: t) (Ui.lit "A") && Ui.str_leb (u :: t) (Ui.lit "Z")
  = (65 <=? u) && ((u <? 90) || ((u =? 90) && bool_decide (t = []))).
Proof.
  rewrite lit_A, lit_Z. unfold Ui.str_geb, Ui.str_leb. simpl.
  destruct (Z.ltb_spec u 65), (Z.ltb_spec 65 u), (Z.ltb_spec 90 u),
    (Z.ltb_spec u 90), (Z.leb_spec 65 u), (Z.eqb_spec u 90);
    try lia; simpl; try done; by destruct t.
Qed.

Lemma parseLoop_letter u chars out :
  isLetter u = true →
  Ui.parseLoop ([u] :: chars) out = Ui.parseLoop chars (out ++ [stepOfLetter u]).
Proof.
  intros H. cbn [Ui.parseLoop]. rewrite lower_test, upper_test.
  unfold isLetter in H. unfold stepOfLetter, Ui.charCodeAt0. simpl.
  destruct (Z.leb_spec 97 u), (Z.ltb_spec u 122), (Z.eqb_spec u 122),
    (Z.leb_spec 65 u), (Z.ltb_spec u 90), (Z.eqb_spec u 90); simpl; try done;
    zbool; lia.
Qed.

Lemma parseLoop_space u chars out :
  Ui.isSpace u = true →
  Ui.parseLoop ([u] :: chars) out = Ui.parseLoop chars out.
Proof.
  intros H. cbn [Ui.parseLoop]. rewrite lower_test, upper_test.
  cbn [existsb]. rewrite H. simpl.
  assert (isLetter u = false) as Hl.
  { destruct (isLetter u) eqn:E; [|done]. apply isLetter_not_space in E. congruence. }
  unfold isLetter in Hl.
  destruct (Z.leb_spec 97 u), (Z.ltb_spec u 122), (Z.eqb_spec u 122),
    (Z.leb_spec 65 u), (Z.ltb_spec u 90), (Z.eqb_spec u 90); simpl; try done;
    zbool; lia.
Qed.

Lemma parseLoop_invalid u t chars out :
  parseOk u = false →
  t = [] ∨ (∃ l, t = [l] ∧ Ui.isLowSurrogate l = true) →
  Ui.parseLoop ((u :: t) :: chars) out
  = inl (Ui.lit "Invalid character: '" ++ (u :: t) ++ Ui.lit "'").
Proof.
  intros H Ht. cbn [Ui.parseLoop]. rewrite lower_test, upper_test.
  apply orb_false_iff in H as [Hl Hs].
  assert (existsb Ui.isSpace (u :: t) = false) as ->.
  { cbn [existsb]. rewrite Hs. simpl.
    destruct Ht as [->|(l & -> & Hlow)]; [done|].
    simpl. by rewrite (isLow_not_space l Hlow). }
  unfold isLetter in Hl.
  destruct (Z.leb_spec 97 u), (Z.ltb_spec u 122), (Z.eqb_spec u 122),
    (Z.leb_spec 65 u), (Z.ltb_spec u 90), (Z.eqb_spec u 90); simpl; try done;
    zbool; lia.
Qed.

Lemma parseLoop_ok s : ∀ out,
  Forall (λ u, parseOk u = true) s →
  Ui.parseLoop (Ui.codePoints s) out
  = inr (out ++ (stepOfLetter <$> List.filter isLetter s)).
Proof.
  induction s as [|u s IH]; intros out Hs.
  - simpl. by rewrite app_nil_r.
  - apply Forall_cons in Hs as [Hu Hs].
    rewrite codePoints_single by (by apply parseOk_not_high).
    cbn [List.filter].
    destruct (isLetter u) eqn:El.
    + rewrite parseLoop_letter, IH by done. by rewrite fmap_cons, <- app_assoc.
    + unfold parseOk in Hu. rewrite El in Hu. simpl in Hu.
      rewrite parseLoop_space, IH by done. done.
Qed.

Lemma parseLoop_bad pre u post : ∀ out,
  Forall (λ u, parseOk u = true) pre → parseOk u = false →
  ∃ ch, Ui.parseLoop (Ui.codePoints (pre ++ u :: post)) out
        = inl (Ui.lit "Invalid character: '" ++ ch ++ Ui.lit "'")
    ∧ (ch = [u] ∨ ∃ l, ch = [u; l] ∧ Ui.isHighSurrogate u = true
                       ∧ Ui.isLowSurrogate l = true).
Proof.
  induction pre as [|v pre IH]; intros out Hpre Hu.
  - simpl app.
    destruct (codePoints_head u post) as (ch & rest & -> & [->|(l & -> & Hh & Hlow)]).
    + exists [u]. split; [|by left]. apply parseLoop_invalid; [done|by left].
    + exists [u; l]. split; [|right; eauto]. apply parseLoop_invalid; [done|].
      right. eauto.
  - apply Forall_cons in Hpre as [Hv Hpre]. simpl app.
    rewrite codePoints_single by (by apply parseOk_not_high).
    unfold parseOk in Hv. apply orb_true_iff in Hv as [Hv|Hv].
    + rewrite parseLoop_letter by done. by apply IH.
    + rewrite parseLoop_space by done. by apply IH.
Qed.

(** [trim] *)

Lemma trimStart_suffix s : ∃ sp, s = sp ++ Ui.trimStart s
  ∧ Forall (λ u, Ui.isSpace u = true) sp.
Proof.
  induction s as [|u s (sp & E & Hsp)]; simpl; [by exists []|].
  destruct (Ui.isSpace u) eqn:Eu.
  - exists (u :: sp). split; [by rewrite <- app_comm_cons, <- E|by constructor].
  - by exists [].
Qed.

Lemma trim_middle s : ∃ sp1 sp2, s = sp1 ++ Ui.trim s ++ sp2
  ∧ Forall (λ u, Ui.isSpace u = true) sp1 ∧ Forall (λ u, Ui.isSpace u = true) sp2.
Proof.
  unfold Ui.trim.
  destruct (trimStart_suffix s) as (sp1 & E1 & H1).
  destruct (trimStart_suffix (rev (Ui.trimStart s))) as (sp2 & E2 & H2).
  exists sp1, (rev sp2). split; [|split; [done|]].
  - rewrite E1 at 1. f_equal.
    rewrite <- rev_app_distr, <- E2. by rewrite rev_involutive.
  - apply Forall_forall. intros u Hu. rewrite Forall_forall in H2. apply H2.
    by apply list_elem_of_In, in_rev, list_elem_of_In.
Qed.

Lemma trimStart_not_space a u b :
  Ui.isSpace u = false → Ui.trimStart (a ++ u :: b) = Ui.trimStart a ++ u :: b.
Proof.
  intros Hu. induction a as [|v a IH]; simpl; [by rewrite Hu|].
  by destruct (Ui.isSpace v).
Qed.

Lemma trim_not_space a u b :
  Ui.isSpace u = false →
  Ui.trim (a ++ u :: b) = Ui.trimStart a ++ u :: rev (Ui.trimStart (rev b)).
Proof.
  intros Hu. unfold Ui.trim. rewrite trimStart_not_space by done.
  rewrite rev_app_distr. simpl. rewrite <- app_assoc. simpl.
  rewrite trimStart_not_space by done.
  rewrite rev_app_distr. simpl. by rewrite rev_involutive, <- app_assoc.
Qed.

Lemma filter_isLetter_spaces sp :
  Forall (λ u, Ui.isSpace u = true) sp → List.filter isLetter sp = [].
Proof.
  induction 1 as [|u sp Hu _ IH]; simpl; [done|].
  destruct (isLetter u) eqn:E; [|done]. apply isLetter_not_space in E. congruence.
Qed.

(** X18.  What [parseMoveString] accepts.  A missing argument is the empty
    list of steps.  A string of letters and white space gives the steps of
    its letters in order, lower case for side 0 and upper case for side 1,
    white space being skipped wherever it stands.  The first code unit that
    is neither makes it fail, and the message quotes the character that
    starts there: that code unit, or the surrogate pair it opens. *)
Theorem parseMoveString_spec (s : Ui.JsString) :
  Ui.parseMoveString None = inr []
  ∧ (Forall (λ u, isLetter u = true ∨ Ui.isSpace u = true) s →
     Ui.parseMoveString (Some s) = inr (stepOfLetter <$> List.filter isLetter s))
  ∧ (∀ pre u post,
       s = pre ++ u :: post →
       Forall (λ u, isLetter u = true ∨ Ui.isSpace u = true) pre →
       isLetter u = false → Ui.isSpace u = false →
       ∃ ch, Ui.parseMoveString (Some s)
             = inl (Ui.lit "Invalid character: '" ++ ch ++ Ui.lit "'")
         ∧ (ch = [u] ∨ ∃ l, ch = [u; l] ∧ Ui.isHighSurrogate u = true
                            ∧ Ui.isLowSurrogate l = true)).
Proof.
  assert (∀ l, Forall (λ u, isLetter u = true ∨ Ui.isSpace u = true) l →
               Forall (λ u, parseOk u = true) l) as Hok.
  { intros l Hl. apply (Forall_impl _ _ _ Hl). intros u. unfold parseOk.
    by rewrite orb_true_iff. }
  split; [done|split].
  - intros Hs%Hok. unfold Ui.parseMoveString. simpl.
    destruct (trim_middle s) as (sp1 & sp2 & E & H1 & H2).
    rewrite E in Hs. apply Forall_app in Hs as [_ [Hs _]%Forall_app].
    rewrite parseLoop_ok by done. simpl. f_equal. f_equal.
    rewrite E at 2. rewrite !List.filter_app.
    by rewrite (filter_isLetter_spaces sp1), (filter_isLetter_spaces sp2), app_nil_r.
  - intros pre u post -> Hpre%Hok Hl Hsp. unfold Ui.parseMoveString. simpl.
    rewrite trim_not_space by done.
    destruct (trimStart_suffix pre) as (sp & E & _).
    rewrite E in Hpre. apply Forall_app in Hpre as [_ Hpre].
    assert (parseOk u = false) as Hu by (unfold parseOk; by rewrite Hl, Hsp).
    apply parseLoop_bad; done.
Qed.

Lemma parseMoveString_spec_witness :
  let s := Ui.lit " c f  B?A" in
  ∃ ch, Ui.parseMoveString (Some s)
        = inl (Ui.lit "Invalid character: '" ++ ch ++ Ui.lit "'")
    ∧ ch = Ui.lit "?".
Proof.
  intros s.
  assert (s = Ui.lit " c f  B" ++ 63 :: Ui.lit "A") as Hs by reflexivity.
  assert (Forall (λ u, isLetter u = true ∨ Ui.isSpace u = true) (Ui.lit " c f  B"))
    as Hpre.
  { repeat constructor; (by left) || (by right). }
  destruct (proj2 (proj2 (parseMoveString_spec s)) _ 63 _ Hs Hpre eq_refl eq_refl)
    as (ch & Hch & Hshape).
  exists ch. split; [exact Hch|].
  destruct Hshape as [->|(l & _ & Hhigh & _)]; [reflexivity|discriminate Hhigh].
Defined.

Lemma movesToString_letters ms :
  Forall (λ m, 0 ≤ Ui.mv_pitIndex m < 26) ms →
  Forall (λ u, isLetter u = true) (Ui.movesToString ms)
  ∧ stepOfLetter <$> Ui.movesToString ms = stepOfMove <$> ms
  ∧ length (Ui.movesToString ms) = length ms.
Proof.
  unfold Ui.movesToString.
  induction 1 as [|m ms Hm _ (IH1 & IH2 & IH3)]; [done|].
  rewrite fmap_cons. cbn [concat]. unfold Ui.letterForMove at 1 3 5.
  cbn [app length fmap list_fmap].
  assert (isLetter (((match Ui.mv_mover m with Side0 => 97 | Side1 => 65 end)
                     + Ui.mv_pitIndex m) mod 65536) = true
          ∧ stepOfLetter (((match Ui.mv_mover m with Side0 => 97 | Side1 => 65 end)
                           + Ui.mv_pitIndex m) mod 65536) = stepOfMove m) as [Hl Hs].
  { unfold isLetter, stepOfLetter, stepOfMove.
    destruct m as [[] p]; simpl in *; rewrite Z.mod_small by lia.
    - split; [zbool; lia|]. destruct (Z.leb_spec 97 (97 + p)); [|lia]. f_equal. lia.
    - split; [zbool; lia|]. destruct (Z.leb_spec 97 (65 + p)); [lia|]. f_equal. lia. }
  split; [by constructor|]. split; [|by rewrite IH3].
  change (list_fmap Z Ui.Step stepOfLetter) with (fmap (M:=list) stepOfLetter).
  by rewrite Hs, IH2.
Qed.

Lemma filter_all {A} (f : A → bool) l :
  Forall (λ x, f x = true) l → List.filter f l = l.
Proof. induction 1 as [|x l Hx _ IH]; simpl; [done|]. by rewrite Hx, IH. Qed.

Lemma parse_movesToString (ms : list Ui.Move) :
  Forall (λ m, 0 ≤ Ui.mv_pitIndex m < 26) ms →
  Ui.parseMoveString (Some (Ui.movesToString ms)) = inr (stepOfMove <$> ms)
  ∧ length (Ui.movesToString ms) = length ms.
Proof.
  intros Hms. destruct (movesToString_letters ms Hms) as (Hl & Hs & Hlen).
  split; [|done]. unfold Ui.parseMoveString. simpl.
  destruct (trim_middle (Ui.movesToString ms)) as (sp1 & sp2 & E & H1 & H2).
  assert (Forall (λ u, parseOk u = true) (Ui.trim (Ui.movesToString ms))) as Hok.
  { rewrite E in Hl. apply Forall_app in Hl as [_ [Hl _]%Forall_app].
    apply (Forall_impl _ _ _ Hl). intros u Hu. unfold parseOk. by rewrite Hu. }
  rewrite parseLoop_ok by done. simpl. f_equal. rewrite <- Hs.
  rewrite <- (filter_all isLetter (Ui.movesToString ms) Hl) at 2.
  rewrite E at 2. rewrite !List.filter_app.
  by rewrite (filter_isLetter_spaces sp1), (filter_isLetter_spaces sp2), app_nil_r.
Qed.

(** X19.  Writing a history with [movesToString] and reading it back with
    [parseMoveString] gives the same moves, one letter per move, as long as
    every pit index is below 26 (on the page it is below 6). *)
Theorem move_string_round_trip (ms : list Ui.Move) :
  Forall (λ m, 0 ≤ Ui.mv_pitIndex m < 26) ms →
  Ui.parseMoveString (Some (Ui.movesToString ms)) = inr (stepOfMove <$> ms)
  ∧ length (Ui.movesToString ms) = length ms.
Proof. apply parse_movesToString. Qed.

Lemma move_string_round_trip_witness :
  let ms := [Ui.mkMove Side0 2; Ui.mkMove Side0 5; Ui.mkMove Side1 1] in
  Ui.movesToString ms = Ui.lit "cfB"
  ∧ Ui.parseMoveString (Some (Ui.lit "cfB"))
    = inr [Ui.mkStep Side0 2; Ui.mkStep Side0 5; Ui.mkStep Side1 1].
Proof.
  intros ms. split; [reflexivity|].
  assert (Forall (λ m, 0 ≤ Ui.mv_pitIndex m < 26) ms) as Hms
    by (repeat constructor; simpl; lia).
  exact (proj1 (move_string_round_trip ms Hms)).
Defined.

(** ** States that differ in the [terminal] property only *)

Lemma sameState_clone a b : sameState a b ↔ cloneState a = cloneState b.
Proof.
  unfold sameState, cloneState. split.
  - intros (-> & -> & -> & -> & ->). done.
  - intros [= -> -> -> -> ->]. done.
Qed.

Lemma sameState_refl a : sameState a a.
Proof. by unfold sameState. Qed.

Lemma sameState_sym a b : sameState a b → sameState b a.
Proof. rewrite !sameState_clone. congruence. Qed.

Lemma sameState_trans a b c : sameState a b → sameState b c → sameState a c.
Proof. rewrite !sameState_clone. congruence. Qed.

Lemma sameState_pits a b s : sameState a b → pits a s = pits b s.
Proof. intros (? & ? & _). by destruct s. Qed.

Lemma sameState_store a b s : sameState a b → store a s = store b s.
Proof. intros (_ & _ & ? & ? & _). by destruct s. Qed.

Lemma sameState_toMove a b : sameState a b → toMove a = toMove b.
Proof. by intros (_ & _ & _ & _ & ?). Qed.

Lemma sameState_pit a b s i : sameState a b → pit a s i = pit b s i.
Proof. intros H. apply pit_ext. by apply sameState_pits. Qed.

Lemma sameState_set_pit a b s i v :
  sameState a b → sameState (set_pit s i v a) (set_pit s i v b).
Proof.
  intros H. unfold set_pit. rewrite (sameState_pits a b s H).
  destruct H as (? & ? & ? & ? & ?). destruct s; simpl; unfold sameState; simpl; done.
Qed.

Lemma sameState_dropSeed a b loc :
  sameState a b → sameState (dropSeed a loc) (dropSeed b loc).
Proof.
  intros H. destruct loc as [s i|s]; simpl.
  - rewrite (sameState_pit a b s i H). by apply sameState_set_pit.
  - rewrite (sameState_store a b s H).
    destruct H as (? & ? & ? & ? & ?). destruct s; unfold sameState; simpl; done.
Qed.

Lemma sameState_sow path : ∀ a b, sameState a b → sameState (sow a path) (sow b path).
Proof.
  induction path as [|loc path IH]; intros a b H; [done|].
  apply IH. by apply sameState_dropSeed.
Qed.

Lemma sameState_isTerminal a b rules :
  sameState a b → isTerminal a rules = isTerminal b rules.
Proof. intros H. apply isTerminal_pits. intros s. by apply sameState_pits. Qed.

Lemma sameState_getValidMoves a b rules :
  sameState a b → getValidMoves a rules = getValidMoves b rules.
Proof.
  intros H. unfold getValidMoves. rewrite (sameState_toMove a b H).
  induction (range (pitsPerSide rules)) as [|i l IH]; simpl; [done|].
  by rewrite (sameState_pit a b _ i H), IH.
Qed.

Lemma sowPath_sameState a b rules mover p :
  sameState a b → sowPath a rules mover p = sowPath b rules mover p.
Proof. intros H. unfold sowPath. by rewrite (sameState_pit a b mover p H). Qed.

Lemma captureStep_sameState a b rules mover ns last :
  sameState a b → captureStep a rules mover ns last = captureStep b rules mover ns last.
Proof.
  intros H. unfold captureStep.
  assert (wasEmptyBefore a (pitsPerSide rules) mover
          = wasEmptyBefore b (pitsPerSide rules) mover) as ->; [|done].
  unfold wasEmptyBefore. apply list_fmap_ext. intros _ i _.
  by rewrite (sameState_pit a b mover i H).
Qed.

Lemma playMove_sameState a b rules p :
  sameState a b → playMove a rules p = playMove b rules p.
Proof.
  intros H. unfold playMove.
  rewrite (sameState_toMove a b H), (sameState_pit a b _ p H),
    (sowPath_sameState a b rules _ p H).
  assert (emptied a (toMove b) p = emptied b (toMove b) p) as ->.
  { unfold emptied. by rewrite (proj1 (sameState_clone a b) H). }
  by rewrite (captureStep_sameState a b rules _ _ _ H).
Qed.

Lemma sameState_wf rules a b : sameState a b → wf rules a → wf rules b.
Proof.
  intros H [Hsz Hnn]. split; intros s.
  - rewrite <- (sameState_pits a b s H). apply Hsz.
  - rewrite <- (sameState_pits a b s H). apply Hnn.
Qed.

Lemma sameState_total a b : sameState a b → total a = total b.
Proof. intros (E0 & E1 & E2 & E3 & _). unfold total. by rewrite E0, E1, E2, E3. Qed.

Lemma sameState_settled rules a b : sameState a b → settled rules a → settled rules b.
Proof.
  intros H Hs Ht s i Hi. rewrite <- (sameState_pit a b s i H).
  apply Hs; [|done]. by rewrite (sameState_isTerminal a b rules H).
Qed.

Lemma sameState_inPlay a b : sameState a b → inPlay a → inPlay b.
Proof.
  intros H (Hwf & Ht & Hs). split; [by eapply sameState_wf|].
  split; [by rewrite <- (sameState_total a b H)|by eapply sameState_settled].
Qed.

(** ** Positions of a game on the page *)

Lemma settled_playMove rules st p res :
  wf rules st → sweepOnGameEnd rules = true →
  playMove st rules p = PlayOk res → settled rules (state res).
Proof.
  intros Hwf Hsw Hplay Hterm s.
  pose proof (playMove_ok_inv rules st p res Hplay) as ([Hp _] & Hst & _).
  pose proof (wf_beforeSweep rules st p Hwf Hp) as Hwfb.
  rewrite Hst in Hterm |- *.
  rewrite finalizeIfTerminal_spec in Hterm |- * by apply Hwfb.
  rewrite Hsw, andb_true_r in Hterm |- *.
  destruct (isTerminal (beforeSweep rules st p) rules) eqn:E; [|congruence].
  apply sideEmpty_replicate; [apply wf_swept; lia|]. by destruct s.
Qed.

Lemma page_rules : makeRules 6 4 true true KALAH false = inr Ui.rules.
Proof. reflexivity. Qed.

Lemma opening_inPlay : inPlay opening.
Proof.
  split; [|split].
  - apply wf_initStandard. split; simpl; lia.
  - reflexivity.
  - intros H. discriminate H.
Qed.

Lemma inPlay_playMove st p res :
  inPlay st → playMove st Ui.rules p = PlayOk res → inPlay (state res).
Proof.
  intros (Hwf & Ht & _) Hplay. split; [by eapply wf_playMove|]. split.
  - by rewrite (total_playMove Ui.rules st p res Hwf Hplay).
  - by eapply settled_playMove.
Qed.

Lemma recordEnd_inPlay ms : ∀ st st',
  inPlay st → recordEnd st ms = Some st' → inPlay st'.
Proof.
  induction ms as [|m ms IH]; intros st st' Hst; simpl.
  - by intros [= <-].
  - destruct (Side_eqb _ _); [|done].
    destruct (playMove st Ui.rules (Ui.mv_pitIndex m)) as [|res] eqn:E; [done|].
    apply IH. by eapply inPlay_playMove.
Qed.

Lemma recordEnd_app ms1 ms2 : ∀ st,
  recordEnd st (ms1 ++ ms2)
  = match recordEnd st ms1 with
    | Some st1 => recordEnd st1 ms2
    | None => None
    end.
Proof.
  induction ms1 as [|m ms1 IH]; intros st; simpl; [done|].
  destruct (Side_eqb _ _); [|done].
  destruct (playMove st Ui.rules (Ui.mv_pitIndex m)); [done|]. apply IH.
Qed.

Lemma recordEnd_sameState ms : ∀ a b,
  sameState a b → recordEnd a (ms) = recordEnd b ms ∨ ms = [].
Proof.
  destruct ms as [|m ms]; intros a b H; [by right|left]. simpl.
  by rewrite (sameState_toMove a b H), (playMove_sameState a b _ _ H).
Qed.

Lemma replayLoop_recordEnd ms : ∀ st st',
  recordEnd st ms = Some st' → Ui.replayLoop st ms = st'.
Proof.
  induction ms as [|m ms IH]; intros st st'; simpl.
  - by intros [= <-].
  - destruct (Side_eqb _ _); [|done].
    destruct (playMove st Ui.rules (Ui.mv_pitIndex m)); [done|]. apply IH.
Qed.

(** With the rules of the page, a position of a game is terminal exactly
    when the side to move has no legal move. *)
Lemma inPlay_no_moves st :
  inPlay st →
  (getValidMoves st Ui.rules = [] ↔ isTerminal st Ui.rules = true).
Proof.
  intros (Hwf & _ & Hs). split.
  - intros Hm. apply isTerminal_spec.
    assert (sideEmpty Ui.rules st (toMove st)) as He.
    { intros i Hi. destruct (Z.eq_dec (pit st (toMove st) i) 0) as [|Hne]; [done|].
      assert (i ∈ getValidMoves st Ui.rules) as Hin.
      { apply accepted_getValidMoves. split; [done|by right]. }
      rewrite Hm in Hin. by apply elem_of_nil in Hin. }
    destruct (toMove st); [by left|by right].
  - intros Ht. apply getValidMoves_empty; [done|]. by apply Hs.
Qed.

Ltac ui_simpl :=
  cbn [Ui.ui_mode Ui.ui_state Ui.ui_vis Ui.ui_anim Ui.ui_moves Ui.ui_nextAutoTime
       Ui.ui_gameLogged Ui.ui_hoverPit Ui.ui_sent
       Ui.set_mode Ui.set_state Ui.set_vis Ui.set_anim Ui.set_moves
       Ui.set_nextAutoTime Ui.set_gameLogged Ui.set_hoverPit Ui.send
       Ui.popMove] in *.

Section PageInvariant.
Context {clock : Ui.Clock}.

Lemma coherent_ext ui ui' :
  Ui.ui_state ui' = Ui.ui_state ui → Ui.ui_vis ui' = Ui.ui_vis ui →
  Ui.ui_anim ui' = Ui.ui_anim ui → Ui.ui_moves ui' = Ui.ui_moves ui →
  Ui.ui_sent ui' = Ui.ui_sent ui →
  coherent ui → coherent ui'.
Proof. unfold coherent. by intros -> -> -> -> ->. Qed.

Lemma sameState_set_terminal b st : sameState (Ui.set_terminal b st) st.
Proof. by unfold sameState. Qed.

Lemma emptied_sameState a b mover p :
  sameState a b → emptied a mover p = emptied b mover p.
Proof. intros H. unfold emptied. by rewrite (proj1 (sameState_clone a b) H). Qed.

Lemma showing_sameState st st' vis vis' a :
  sameState st' st → sameState vis' vis → showing st vis a → showing st' vis' a.
Proof.
  intros Hst Hvis (Hm & Hstart & Hidx & Hv & res & Hplay & Hend & Hpath).
  unfold showing.
  rewrite (sameState_toMove st' st Hst), (emptied_sameState st' st _ _ Hst),
    (playMove_sameState st' st _ _ Hst).
  split; [done|]. split; [eapply sameState_trans; [done|by apply sameState_sym]|].
  split; [done|]. split; [by eapply sameState_trans|]. by exists res.
Qed.

Lemma coherent_inPlay ui : coherent ui → inPlay (Ui.ui_state ui).
Proof.
  intros ((st0 & Hst & Hrec) & _).
  apply (sameState_inPlay st0); [by apply sameState_sym|].
  destruct (Ui.ui_anim ui) as [a|].
  - destruct Hrec as (_ & Hrec & _). by eapply recordEnd_inPlay, Hrec; apply opening_inPlay.
  - destruct Hrec as (Hrec & _). by eapply recordEnd_inPlay, Hrec; apply opening_inPlay.
Qed.

Lemma length_pos_nil {A} (l : list A) : (0 <? length l)%nat = false ↔ l = [].
Proof. destruct l; simpl; split; done. Qed.

(** [state.terminal] after [updateTerminalFlag] *)
Lemma updateTerminalFlag_state ui :
  Ui.ui_state (Ui.updateTerminalFlag ui)
  = Ui.set_terminal (negb (0 <? length (getValidMoves (Ui.ui_state ui) Ui.rules))%nat)
      (Ui.ui_state ui).
Proof. done. Qed.

Lemma flag_right st :
  inPlay st →
  negb (0 <? length (getValidMoves st Ui.rules))%nat = isTerminal st Ui.rules.
Proof.
  intros Hin. pose proof (inPlay_no_moves st Hin) as Hiff.
  destruct (getValidMoves st Ui.rules) as [|i l] eqn:E; simpl.
  - symmetry. by apply Hiff.
  - destruct (isTerminal st Ui.rules); [|done].
    discriminate (proj2 Hiff eq_refl).
Qed.

Lemma coherent_updateTerminalFlag ui :
  coherent ui → coherent (Ui.updateTerminalFlag ui).
Proof.
  intros Hc. pose proof (coherent_inPlay ui Hc) as Hin.
  destruct Hc as ((st0 & Hst & Hrec) & Hflag & Hsent).
  unfold coherent, Ui.updateTerminalFlag. ui_simpl.
  split; [|split; [|done]].
  - exists st0. split.
    { eapply sameState_trans; [apply sameState_set_terminal|done]. }
    destruct (Ui.ui_anim ui) as [a|].
    + destruct Hrec as (Hm & Hrec & Hshow). split; [done|]. split; [done|].
      eapply showing_sameState; [apply sameState_set_terminal| |done].
      apply sameState_set_terminal.
    + destruct Hrec as (Hrec & Hvis). split; [done|].
      eapply sameState_trans; [apply sameState_set_terminal|].
      eapply sameState_trans; [done|]. apply sameState_sym, sameState_set_terminal.
  - intros b [= <-].
    rewrite (sameState_isTerminal _ _ Ui.rules (sameState_set_terminal _ _)).
    by apply flag_right.
Qed.

Lemma movesToString_nil ms : Ui.movesToString ms = [] → ms = [].
Proof. destruct ms; [done|]. unfold Ui.movesToString. simpl. done. Qed.

Lemma coherent_logCompletedGameOnce env ui :
  coherent ui → coherent (Ui.logCompletedGameOnce env ui).
Proof.
  intros Hc. unfold Ui.logCompletedGameOnce.
  destruct (Ui.ui_gameLogged ui); [done|].
  destruct (terminal_truthy (Ui.ui_state ui)) eqn:Et; [|done]. simpl.
  destruct (Ui.currentGamePayload env ui) as [p|] eqn:Ep; [|done].
  pose proof (coherent_inPlay ui Hc) as Hin.
  destruct Hc as ((st0 & Hst & Hrec) & Hflag & Hsent).
  unfold coherent. ui_simpl.
  split; [by exists st0|]. split; [done|].
  apply Forall_app. split; [done|]. constructor; [|done].
  unfold terminal_truthy in Et.
  destruct (terminal_prop (Ui.ui_state ui)) as [b|] eqn:Eb; [|done].
  simpl in Et. subst b. specialize (Hflag true eq_refl). symmetry in Hflag.
  unfold Ui.currentGamePayload in Ep.
  destruct (Ui.Mode_eqb (Ui.ui_mode ui) Ui.AIvAI) eqn:Em; [done|].
  destruct (length (Ui.movesToString (Ui.ui_moves ui)) =? 0)%nat eqn:El; [done|].
  injection Ep as <-.
  destruct (Ui.ui_anim ui) as [a|].
  { exfalso. destruct Hrec as (_ & _ & _ & _ & _ & _ & res & Hplay & _).
    apply playMove_ok_inv in Hplay as [Hacc _].
    apply accepted_getValidMoves in Hacc.
    rewrite (proj2 (inPlay_no_moves _ Hin) Hflag) in Hacc. by apply elem_of_nil in Hacc. }
  destruct Hrec as (Hrec & _).
  exists (Ui.ui_moves ui), st0. simpl.
  split; [done|]. split.
  { intros E. rewrite E in El. done. }
  split; [done|]. split; [by rewrite <- (sameState_isTerminal _ _ _ Hst)|].
  split; [done|].
  split; [by apply (sameState_store _ _ Side0)|].
  split; [by apply (sameState_store _ _ Side1)|].
  intros E. by rewrite E in Em.
Qed.

Lemma coherent_renderAll env ui : coherent ui → coherent (Ui.renderAll env ui).
Proof.
  intros Hc. by apply coherent_logCompletedGameOnce, coherent_updateTerminalFlag.
Qed.

Lemma terminal_prop_recordEnd ms : ∀ st st',
  terminal_prop st = None → recordEnd st ms = Some st' → terminal_prop st' = None.
Proof.
  induction ms as [|m ms IH]; intros st st' Hst; simpl.
  - by intros [= <-].
  - destruct (Side_eqb _ _); [|done].
    destruct (playMove st Ui.rules (Ui.mv_pitIndex m)) as [|res] eqn:E; [done|].
    apply IH. by eapply terminal_prop_playMove.
Qed.

(** A position and a record that fit, with nothing being shown. *)
Lemma coherent_at ui st0 :
  Ui.ui_anim ui = None → Ui.ui_state ui = st0 → Ui.ui_vis ui = st0 →
  recordEnd opening (Ui.ui_moves ui) = Some st0 →
  Forall payload_ok (Ui.ui_sent ui) →
  coherent ui.
Proof.
  intros Ha Hs Hv Hrec Hsent. unfold coherent. rewrite Ha, Hs, Hv.
  split; [exists st0; split; [apply sameState_refl|split; [done|apply sameState_refl]]|].
  split; [|done]. intros b Hb.
  assert (terminal_prop opening = None) as Ho by reflexivity.
  by rewrite (terminal_prop_recordEnd _ _ _ Ho Hrec) in Hb.
Qed.

Lemma coherent_sent ui : coherent ui → Forall payload_ok (Ui.ui_sent ui).
Proof. by intros (_ & _ & ?). Qed.

Lemma coherent_resetGame env ui :
  Forall payload_ok (Ui.ui_sent ui) → coherent (Ui.resetGame env ui).
Proof.
  intros Hsent. unfold Ui.resetGame. apply coherent_renderAll.
  by apply (coherent_at _ opening).
Qed.

(** The record without its last entry. *)
Lemma recordEnd_removelast ms st :
  recordEnd opening ms = Some st → ∃ st', recordEnd opening (removelast ms) = Some st'.
Proof.
  destruct (decide (ms = [])) as [->|Hne]; [by exists st|].
  rewrite (app_removelast_last (Ui.mkMove Side0 0) Hne) at 1.
  rewrite recordEnd_app.
  destruct (recordEnd opening (removelast ms)) as [st'|]; [by exists st'|done].
Qed.

Lemma coherent_record ui :
  coherent ui → ∃ st', recordEnd opening (removelast (Ui.ui_moves ui)) = Some st'.
Proof.
  intros ((st0 & _ & Hrec) & _). destruct (Ui.ui_anim ui) as [a|].
  - destruct Hrec as (_ & Hrec & _). by exists st0.
  - destruct Hrec as (Hrec & _). by eapply recordEnd_removelast.
Qed.

Lemma coherent_replay_pop ui :
  coherent ui → coherent (Ui.replayFromStart (Ui.popMove ui)).
Proof.
  intros Hc. destruct (coherent_record ui Hc) as (st' & Hrec).
  apply coherent_sent in Hc.
  apply (coherent_at _ st'); unfold Ui.replayFromStart; ui_simpl;
    try done; by apply replayLoop_recordEnd.
Qed.

Lemma coherent_set_gameLogged b ui : coherent ui → coherent (Ui.set_gameLogged b ui).
Proof. by apply coherent_ext. Qed.

Lemma coherent_set_hoverPit h ui : coherent ui → coherent (Ui.set_hoverPit h ui).
Proof. by apply coherent_ext. Qed.

Lemma coherent_set_nextAutoTime t ui : coherent ui → coherent (Ui.set_nextAutoTime t ui).
Proof. by apply coherent_ext. Qed.

Lemma coherent_undoOne env ui : coherent ui → coherent (Ui.undoOne env ui).
Proof.
  intros Hc. unfold Ui.undoOne.
  destruct (Ui.animating ui); [done|].
  destruct (length (Ui.ui_moves ui) =? 0)%nat; [done|].
  apply coherent_renderAll.
  destruct (negb _); [apply coherent_set_gameLogged|]; by apply coherent_replay_pop.
Qed.

Lemma coherent_undoWhileAi rounds : ∀ ui,
  coherent ui → coherent (Ui.undoWhileAi rounds ui).
Proof.
  induction rounds as [|rounds IH]; intros ui Hc; simpl; [done|].
  destruct (_ && _); [|done]. by apply IH, coherent_replay_pop.
Qed.

Lemma coherent_undoToHumanTurn env ui :
  coherent ui → coherent (Ui.undoToHumanTurn env ui).
Proof.
  intros Hc. unfold Ui.undoToHumanTurn.
  destruct (Ui.animating ui); [done|].
  destruct (negb (Ui.isAiGame ui)); [by apply coherent_undoOne|].
  destruct (length (Ui.ui_moves ui) =? 0)%nat; [done|].
  by apply coherent_renderAll, coherent_undoWhileAi, coherent_replay_pop.
Qed.
End PageInvariant.

Section PageHandlers.
Context {clock : Ui.Clock}.

Lemma animating_None ui : Ui.animating ui = false → Ui.ui_anim ui = None.
Proof. unfold Ui.animating. by destruct (Ui.ui_anim ui). Qed.

Lemma removelast_snoc {A} (l : list A) x : removelast (l ++ [x]) = l.
Proof. apply removelast_last. Qed.

Lemma recordEnd_snoc ms st p res :
  recordEnd opening ms = Some st → playMove st Ui.rules p = PlayOk res →
  recordEnd opening (ms ++ [Ui.mkMove (toMove st) p]) = Some (state res).
Proof.
  intros Hrec Hplay. rewrite recordEnd_app, Hrec. simpl.
  by rewrite Side_eqb_refl, Hplay.
Qed.

Lemma coherent_startAnimationForMove env p ui :
  Ui.ui_anim ui = None → coherent ui →
  coherent (Ui.startAnimationForMove env p ui).2.
Proof.
  intros Ha Hc. unfold Ui.startAnimationForMove.
  destruct (playMove (Ui.ui_state ui) Ui.rules p) as [e|res] eqn:Hplay; [done|].
  destruct Hc as ((st0 & Hst & Hrec) & Hflag & Hsent). rewrite Ha in Hrec.
  destruct Hrec as (Hrec & Hvis).
  unfold coherent. ui_simpl. simpl. split; [|done].
  exists st0. split; [done|]. rewrite removelast_snoc.
  split; [done|]. split; [done|].
  unfold showing. simpl.
  split; [done|]. split; [apply sameState_refl|]. split; [lia|].
  split.
  { unfold emptied. apply sameState_set_pit, sameState_clone.
    by destruct (Ui.ui_state ui). }
  by exists res.
Qed.

Lemma sow_snoc ns path loc : sow ns (path ++ [loc]) = dropSeed (sow ns path) loc.
Proof. unfold sow. by rewrite foldl_app. Qed.

Lemma coherent_tickAnimation env now ui :
  coherent ui → coherent (Ui.tickAnimation env now ui).
Proof.
  intros Hc. unfold Ui.tickAnimation.
  destruct (Ui.ui_anim ui) as [a|] eqn:Ha; [|done].
  destruct (Ui.time_ltb now (Ui.nextTime a)); [done|].
  pose proof Hc as ((st0 & Hst & Hrec) & Hflag & Hsent). rewrite Ha in Hrec.
  destruct Hrec as (Hms & Hrec & Hm & Hstart & Hidx & Hv & res & Hplay & Hend & Hpath).
  destruct (Ui.anim_path a !! Ui.idx a) as [loc|] eqn:Hloc.
  - apply coherent_renderAll. unfold coherent. ui_simpl.
    split; [|done]. exists st0. split; [done|]. split; [done|]. split; [done|].
    unfold showing. simpl.
    split; [done|]. split; [done|].
    split; [by apply lookup_lt_Some in Hloc|].
    split; [|by exists res].
    rewrite (take_S_r _ _ _ Hloc), sow_snoc. by apply sameState_dropSeed.
  - apply coherent_renderAll.
    apply (coherent_at _ (Ui.endState a)); ui_simpl; try done.
    rewrite Hms, Hm, Hend.
    pose proof (playMove_sameState _ _ Ui.rules (Ui.anim_pitIndex a) Hst) as E.
    rewrite Hplay in E. symmetry in E.
    rewrite (sameState_toMove _ _ Hst). by apply recordEnd_snoc.
Qed.

Lemma coherent_doAiMove env ui : coherent ui → coherent (Ui.doAiMove env ui).
Proof.
  intros Hc. unfold Ui.doAiMove.
  destruct (Ui.animating ui) eqn:Ha; [done|].
  destruct (terminal_truthy (Ui.ui_state ui)); [done|].
  destruct (negb _); [done|].
  apply coherent_renderAll, coherent_startAnimationForMove; [|done].
  by apply animating_None.
Qed.

Lemma coherent_loadLoop env steps : ∀ ui,
  Ui.ui_anim ui = None → coherent ui → coherent (Ui.loadLoop env steps ui).2.
Proof.
  induction steps as [|step steps IH]; intros ui Ha Hc; simpl.
  - by apply coherent_renderAll.
  - destruct (Side_eqb (toMove (Ui.ui_state ui)) (Ui.step_side step)) eqn:Eside;
      simpl; [|done].
    destruct (_ || _); [done|].
    destruct (playMove (Ui.ui_state ui) Ui.rules (Ui.step_pitIndex step))
      as [e|res] eqn:Hplay; [done|].
    apply Side_eqb_eq in Eside.
    pose proof Hc as ((st0 & Hst & Hrec) & Hflag & Hsent). rewrite Ha in Hrec.
    destruct Hrec as (Hrec & Hvis).
    assert (coherent
      (Ui.set_vis (state res) (Ui.set_state (state res)
         (Ui.set_moves (Ui.ui_moves ui ++ [Ui.mkMove (Ui.step_side step)
                                             (Ui.step_pitIndex step)]) ui)))) as Hc'.
    { apply (coherent_at _ (state res)); ui_simpl; try done.
      rewrite <- Eside, (sameState_toMove _ _ Hst).
      apply recordEnd_snoc; [done|].
      by rewrite <- (playMove_sameState _ _ Ui.rules _ Hst). }
    ui_simpl.
    destruct (terminal_truthy (state res)); [by apply coherent_renderAll|].
    by apply IH.
Qed.

Lemma coherent_loadMovesFromString env s ui :
  coherent ui → coherent (Ui.loadMovesFromString env s ui).2.
Proof.
  intros Hc. unfold Ui.loadMovesFromString.
  destruct (Ui.animating ui); [done|].
  destruct (Ui.parseMoveString (Some s)) as [e|steps]; simpl.
  { by apply coherent_set_gameLogged. }
  apply coherent_loadLoop; [done|].
  apply (coherent_at _ opening); ui_simpl; try done. by apply coherent_sent.
Qed.

Lemma coherent_clearHover env ui : coherent ui → coherent (Ui.clearHover env ui).
Proof.
  intros Hc. unfold Ui.clearHover. destruct (Ui.ui_hoverPit ui); [|done].
  by apply coherent_renderAll, coherent_set_hoverPit.
Qed.

Lemma coherent_handle env e ui : coherent ui → coherent (Ui.handle env e ui).
Proof.
  intros Hc. destruct e as [hit|hit| | | | | | | |answer| |now]; simpl.
  - unfold Ui.onCanvasClick.
    destruct (Ui.animating ui) eqn:Ha; [done|].
    destruct (negb (Ui.isHumansTurn ui)); [done|].
    destruct (terminal_truthy (Ui.ui_state ui)); [done|].
    destruct (Ui.pickPitFromClick hit ui) as [p|]; [|done].
    destruct (_ =? 0); [done|].
    apply coherent_renderAll, coherent_startAnimationForMove; [|done].
    by apply animating_None.
  - unfold Ui.onMouseMove.
    destruct (_ || _); [by apply coherent_clearHover|].
    destruct hit as [[side i]|]; [|by apply coherent_clearHover].
    destruct (_ || _); [by apply coherent_clearHover|].
    match goal with |- coherent (if ?c then _ else _) => destruct c end;
      [apply coherent_renderAll|]; by apply coherent_set_hoverPit.
  - by apply coherent_renderAll, coherent_set_hoverPit.
  - unfold Ui.onNewGame. destruct (Ui.animating ui); [done|].
    by apply coherent_resetGame, coherent_sent.
  - unfold Ui.onMode. destruct (Ui.animating ui); [done|].
    by apply coherent_resetGame, coherent_sent.
  - by apply coherent_undoOne.
  - by apply coherent_undoToHumanTurn.
  - unfold Ui.onAiMove.
    repeat match goal with |- coherent (if ?c then _ else _) => destruct c; [done|] end.
    by apply coherent_renderAll, coherent_doAiMove.
  - unfold Ui.onStepAi.
    repeat match goal with |- coherent (if ?c then _ else _) => destruct c; [done|] end.
    by apply coherent_renderAll, coherent_doAiMove.
  - unfold Ui.onLoadMoves. destruct (Ui.animating ui); [done|].
    destruct answer as [s|]; [|done]. by apply coherent_loadMovesFromString.
  - by apply coherent_renderAll.
  - unfold Ui.loop.
    pose proof (coherent_tickAnimation env now ui Hc) as Hc1.
    set (ui1 := Ui.tickAnimation env now ui) in *. clearbody ui1.
    destruct (negb (Ui.animating ui1) && negb (terminal_truthy (Ui.ui_state ui1)));
      [|done].
    set (ui2 := if Ui.isAiGame ui1 && (sideNumber (toMove (Ui.ui_state ui1)) =? Ui.aiSide ui1)
                then Ui.doAiMove env ui1 else ui1).
    assert (coherent ui2) as Hc2.
    { subst ui2. destruct (_ && _); [by apply coherent_doAiMove|done]. }
    clearbody ui2.
    destruct (Ui.Mode_eqb (Ui.ui_mode ui2) Ui.AIvAI && Ui.autoAiChecked env); [|done].
    destruct (Ui.time_geb now (Ui.ui_nextAutoTime ui2)); [|done].
    by apply coherent_set_nextAutoTime, coherent_doAiMove.
Qed.

Lemma coherent_init env : coherent (Ui.init env).
Proof. unfold Ui.init. by apply coherent_resetGame. Qed.

Lemma coherent_run env0 events : coherent (Ui.run env0 events).
Proof.
  unfold Ui.run. induction events as [|[env e] events IH] using rev_ind; simpl.
  - apply coherent_init.
  - rewrite foldl_app. simpl. by apply coherent_handle.
Qed.

End PageHandlers.

Section PageLaws.
Context {clock : Ui.Clock}.

(** What [renderAll] leaves alone and what it sets. *)
Lemma renderAll_fields env ui :
  Ui.ui_moves (Ui.renderAll env ui) = Ui.ui_moves ui
  ∧ Ui.ui_anim (Ui.renderAll env ui) = Ui.ui_anim ui
  ∧ Ui.ui_mode (Ui.renderAll env ui) = Ui.ui_mode ui
  ∧ Ui.ui_state (Ui.renderAll env ui)
    = Ui.set_terminal
        (negb (0 <? length (getValidMoves (Ui.ui_state ui) Ui.rules))%nat)
        (Ui.ui_state ui).
Proof.
  unfold Ui.renderAll, Ui.logCompletedGameOnce.
  destruct (Ui.ui_gameLogged _); [done|].
  destruct (negb _); [done|].
  by destruct (Ui.currentGamePayload _ _).
Qed.

Lemma renderAll_sameState env ui :
  sameState (Ui.ui_state (Ui.renderAll env ui)) (Ui.ui_state ui).
Proof.
  destruct (renderAll_fields env ui) as (_ & _ & _ & ->). apply sameState_set_terminal.
Qed.

Lemma renderAll_flag env ui :
  inPlay (Ui.ui_state ui) →
  terminal_prop (Ui.ui_state (Ui.renderAll env ui))
  = Some (isTerminal (Ui.ui_state ui) Ui.rules).
Proof.
  intros Hin. destruct (renderAll_fields env ui) as (_ & _ & _ & ->). simpl.
  by rewrite flag_right.
Qed.

(** X20.  Whatever events the page has handled, [moves] is the record of a
    legal game from the opening position with its 48 seeds, and [state] has
    the shape and the seeds of a position of that game.  With no animation
    running, [state] is the position the record leads to and [vis] shows
    it; while a move is shown, the record already ends with that move,
    [state] is still the position before it and [anim.endState] the
    position after it. *)
Theorem page_history_is_a_game_record env0 (events : list (Ui.Env * Ui.Event)) :
  let ui := Ui.run env0 events in
  wf Ui.rules (Ui.ui_state ui) ∧ total (Ui.ui_state ui) = 48
  ∧ (Ui.ui_anim ui = None →
     ∃ st, recordEnd opening (Ui.ui_moves ui) = Some st
       ∧ sameState (Ui.ui_state ui) st
       ∧ sameState (Ui.ui_vis ui) (Ui.ui_state ui))
  ∧ (∀ a, Ui.ui_anim ui = Some a →
     ∃ ms st,
       Ui.ui_moves ui = ms ++ [Ui.mkMove (toMove (Ui.ui_state ui)) (Ui.anim_pitIndex a)]
       ∧ recordEnd opening ms = Some st
       ∧ sameState (Ui.ui_state ui) st
       ∧ recordEnd opening (Ui.ui_moves ui) = Some (Ui.endState a)).
Proof.
  intros ui. pose proof (coherent_run env0 events) as Hc. fold ui in Hc.
  destruct (coherent_inPlay ui Hc) as (Hwf & Htot & _).
  split; [done|]. split; [done|].
  destruct Hc as ((st0 & Hst & Hrec) & _). split.
  - intros Ha. rewrite Ha in Hrec. destruct Hrec as (Hrec & Hvis). by exists st0.
  - intros a Ha. rewrite Ha in Hrec.
    destruct Hrec as (Hms & Hrec & Hm & _ & _ & _ & res & Hplay & Hend & _).
    exists (removelast (Ui.ui_moves ui)), st0.
    rewrite <- Hm. split; [done|]. split; [done|]. split; [done|].
    rewrite Hms, Hm, Hend, (sameState_toMove _ _ Hst).
    apply recordEnd_snoc; [done|].
    by rewrite <- (playMove_sameState _ _ Ui.rules _ Hst).
Qed.

(** X21.  While a move is shown, [anim] holds the result of [playMove] for
    that move, and [vis] is the position with the source pit emptied and
    the first [anim.idx] seeds of the path dropped: the same steps as the
    sowing loop of the engine.  After the last drop [vis] is the board
    before capture and sweep. *)
Theorem animation_shows_the_sowing env0 (events : list (Ui.Env * Ui.Event)) a :
  let ui := Ui.run env0 events in
  Ui.ui_anim ui = Some a →
  let st := Ui.ui_state ui in
  let board k := sow (emptied st (toMove st) (Ui.anim_pitIndex a))
                   (take k (Ui.anim_path a)) in
  ∃ res, playMove st Ui.rules (Ui.anim_pitIndex a) = PlayOk res
    ∧ Ui.anim_path a = path res ∧ Ui.endState a = state res
    ∧ Ui.anim_mover a = mover res
    ∧ sameState (Ui.startState a) st
    ∧ (Ui.idx a ≤ length (path res))%nat
    ∧ sameState (Ui.ui_vis ui) (board (Ui.idx a))
    ∧ (Ui.idx a = length (path res) →
       sameState (Ui.ui_vis ui) (sown Ui.rules st (Ui.anim_pitIndex a))).
Proof.
  intros ui Ha st board. pose proof (coherent_run env0 events) as Hc. fold ui in Hc.
  subst st. destruct Hc as ((st0 & Hst & Hrec) & _). rewrite Ha in Hrec.
  destruct Hrec as (_ & _ & Hm & Hstart & Hidx & Hv & res & Hplay & Hend & Hpath).
  exists res. split; [done|]. split; [done|]. split; [done|].
  pose proof (playMove_ok_inv _ _ _ _ Hplay) as (_ & _ & Hp & Hmv & _).
  split; [by rewrite Hmv|]. split; [done|]. split; [by rewrite <- Hpath|].
  split; [done|].
  intros Hlen. subst board. unfold sown. rewrite <- Hp, <- Hpath.
  rewrite Hlen, <- Hpath, firstn_all in Hv. done.
Qed.

(** X22.  The [terminal] property that [updateTerminalFlag] attaches to
    [state] is [isTerminal] of the position: with the rules of the page a
    position a game can reach has no legal move exactly when it is
    terminal.  The property is never wrong when it is set, and [renderAll]
    sets it, on [state] and on [vis]. *)
Theorem page_terminal_flag env0 (events : list (Ui.Env * Ui.Event)) :
  let ui := Ui.run env0 events in
  (∀ b, terminal_prop (Ui.ui_state ui) = Some b →
        b = isTerminal (Ui.ui_state ui) Ui.rules)
  ∧ (getValidMoves (Ui.ui_state ui) Ui.rules = []
     ↔ isTerminal (Ui.ui_state ui) Ui.rules = true)
  ∧ (∀ env, terminal_prop (Ui.ui_state (Ui.renderAll env ui))
            = Some (isTerminal (Ui.ui_state ui) Ui.rules)
          ∧ terminal_prop (Ui.ui_vis (Ui.renderAll env ui))
            = Some (isTerminal (Ui.ui_state ui) Ui.rules)).
Proof.
  intros ui. pose proof (coherent_run env0 events) as Hc. fold ui in Hc.
  pose proof (coherent_inPlay ui Hc) as Hin.
  split; [by destruct Hc as (_ & ? & _)|]. split; [by apply inPlay_no_moves|].
  intros env. split; [by apply renderAll_flag|].
  unfold Ui.renderAll, Ui.logCompletedGameOnce.
  assert (terminal_prop (Ui.ui_vis (Ui.updateTerminalFlag ui))
          = Some (isTerminal (Ui.ui_state ui) Ui.rules)) as Hv.
  { unfold Ui.updateTerminalFlag. ui_simpl. simpl. by rewrite flag_right. }
  destruct (Ui.ui_gameLogged _); [done|].
  destruct (negb _); [done|].
  by destruct (Ui.currentGamePayload _ _).
Qed.

Lemma recordEnd_pits ms : ∀ st st',
  recordEnd st ms = Some st' →
  Forall (λ m, 0 ≤ Ui.mv_pitIndex m < 26) ms.
Proof.
  induction ms as [|m ms IH]; intros st st'; simpl; [done|].
  destruct (Side_eqb _ _); [|done].
  destruct (playMove st Ui.rules (Ui.mv_pitIndex m)) as [|res] eqn:E; [done|].
  intros Hrec. constructor; [|by eapply IH].
  apply playMove_ok_inv in E as [[Hp _] _]. simpl in Hp. lia.
Qed.

Lemma terminal_stores st :
  inPlay st → isTerminal st Ui.rules = true → store st Side0 + store st Side1 = 48.
Proof.
  intros (Hwf & Htot & Hset) Ht. specialize (Hset Ht).
  rewrite total_eq in Htot.
  rewrite (proj1 (sideEmpty_sum _ _ Side0 Hwf) (Hset Side0)) in Htot.
  rewrite (proj1 (sideEmpty_sum _ _ Side1 Hwf) (Hset Side1)) in Htot. lia.
Qed.

(** X23.  Every request [logCompletedGameOnce] sends describes a finished
    game: its move string is the record of a legal game from the opening
    that ends in a terminal position, [parseMoveString] reads it back,
    [plies] is its length, the two final stores are those of that position
    and add up to 48, and the mode is never [AIvAI]. *)
Theorem logged_games_are_finished_games env0 (events : list (Ui.Env * Ui.Event)) p :
  p ∈ Ui.ui_sent (Ui.run env0 events) →
  ∃ ms st,
    Ui.pl_moves p = Ui.movesToString ms ∧ ms ≠ []
    ∧ Ui.parseMoveString (Some (Ui.pl_moves p)) = inr (stepOfMove <$> ms)
    ∧ recordEnd opening ms = Some st ∧ isTerminal st Ui.rules = true
    ∧ Ui.pl_plies p = Z.of_nat (length ms)
    ∧ Ui.pl_plies p = Z.of_nat (length (Ui.pl_moves p))
    ∧ Ui.pl_finalStore0 p = store st Side0
    ∧ Ui.pl_finalStore1 p = store st Side1
    ∧ Ui.pl_finalStore0 p + Ui.pl_finalStore1 p = 48
    ∧ Ui.pl_mode p ≠ Ui.AIvAI.
Proof.
  intros Hp. pose proof (coherent_run env0 events) as (_ & _ & Hsent).
  rewrite Forall_forall in Hsent.
  destruct (Hsent p Hp) as (ms & st & Hm & Hne & Hrec & Ht & Hpl & H0 & H1 & Hmode).
  pose proof (recordEnd_pits _ _ _ Hrec) as Hpits.
  destruct (parse_movesToString ms Hpits) as [Hparse Hlen].
  exists ms, st. rewrite Hm, Hparse, Hlen, H0, H1.
  repeat (split; [done|]). split; [|done].
  apply terminal_stores; [|done].
  by eapply recordEnd_inPlay, Hrec; apply opening_inPlay.
Qed.


(** ** Loading a move string *)

Lemma loadLoop_record env ms : ∀ ui st',
  inPlay (Ui.ui_state ui) → terminal_prop (Ui.ui_state ui) = None →
  recordEnd (Ui.ui_state ui) ms = Some st' →
  ∃ ui', Ui.loadLoop env (stepOfMove <$> ms) ui = (inr tt, ui')
    ∧ Ui.ui_moves ui' = Ui.ui_moves ui ++ ms
    ∧ Ui.ui_anim ui' = Ui.ui_anim ui
    ∧ Ui.ui_mode ui' = Ui.ui_mode ui
    ∧ sameState (Ui.ui_state ui') st'
    ∧ terminal_prop (Ui.ui_state ui') = Some (isTerminal st' Ui.rules).
Proof.
  induction ms as [|m ms IH]; intros ui st' Hin Hflag Hrec.
  - injection Hrec as <-. simpl. eexists. split; [done|].
    destruct (renderAll_fields env ui) as (-> & -> & -> & _).
    rewrite app_nil_r. repeat (split; [done|]).
    split; [apply renderAll_sameState|by apply renderAll_flag].
  - simpl in Hrec.
    destruct (Side_eqb (Ui.mv_mover m) (toMove (Ui.ui_state ui))) eqn:Eside; [|done].
    destruct (playMove (Ui.ui_state ui) Ui.rules (Ui.mv_pitIndex m)) as [|res] eqn:Hplay;
      [done|].
    apply Side_eqb_eq in Eside.
    rewrite fmap_cons. cbn [Ui.loadLoop stepOfMove Ui.step_side Ui.step_pitIndex].
    rewrite Eside, Side_eqb_refl. cbn [negb].
    pose proof (playMove_ok_inv _ _ _ _ Hplay) as ([Hp _] & _).
    destruct (Z.ltb_spec (Ui.mv_pitIndex m) 0); [lia|].
    destruct (Z.geb_spec (Ui.mv_pitIndex m) (pitsPerSide Ui.rules)); [lia|].
    cbn [orb]. rewrite Hplay. ui_simpl.
    pose proof (terminal_prop_playMove _ _ _ _ Hplay) as Hnone.
    unfold terminal_truthy at 1. rewrite Hnone. cbn [default].
    edestruct (IH (Ui.set_vis (state res) (Ui.set_state (state res)
                 (Ui.set_moves (Ui.ui_moves ui ++ [Ui.mkMove (toMove (Ui.ui_state ui))
                                                     (Ui.mv_pitIndex m)]) ui))) st')
      as (ui' & Hload & Hmoves & Hanim & Hmode & Hsame & Hterm); ui_simpl.
    + by eapply inPlay_playMove.
    + done.
    + done.
    + exists ui'. split; [done|]. rewrite Hmoves, <- app_assoc. simpl.
      rewrite <- Eside. by destruct m.
Qed.

Lemma opening_flag : terminal_prop opening = None.
Proof. reflexivity. Qed.

(** X24.  [loadMovesFromString] on the string of a legal game record
    succeeds: afterwards [moves] is that record, [state] the position it
    leads to, with the [terminal] property set, and no animation runs. *)
Theorem load_replays_a_record env ui ms st :
  Ui.ui_anim ui = None → recordEnd opening ms = Some st →
  ∃ ui', Ui.loadMovesFromString env (Ui.movesToString ms) ui = (inr tt, ui')
    ∧ Ui.ui_moves ui' = ms ∧ Ui.ui_anim ui' = None
    ∧ Ui.ui_mode ui' = Ui.ui_mode ui
    ∧ sameState (Ui.ui_state ui') st
    ∧ terminal_prop (Ui.ui_state ui') = Some (isTerminal st Ui.rules).
Proof.
  intros Ha Hrec. unfold Ui.loadMovesFromString, Ui.animating. rewrite Ha.
  rewrite (proj1 (parse_movesToString ms (recordEnd_pits _ _ _ Hrec))).
  edestruct (loadLoop_record env ms
    (Ui.set_moves [] (Ui.set_anim None (Ui.set_vis (initStandard Ui.rules 0)
       (Ui.set_state (initStandard Ui.rules 0) (Ui.set_gameLogged false ui))))) st)
    as (ui' & Hload & Hmoves & Hanim & Hmode & Hsame & Hterm); ui_simpl.
  - apply opening_inPlay.
  - done.
  - done.
  - by exists ui'.
Qed.

End PageLaws.

Lemma load_replays_a_record_witness :
  let ms := [Ui.mkMove Side0 5; Ui.mkMove Side1 1; Ui.mkMove Side1 2;
             Ui.mkMove Side0 0; Ui.mkMove Side1 3; Ui.mkMove Side0 0;
             Ui.mkMove Side1 4; Ui.mkMove Side0 0; Ui.mkMove Side1 5] in
  let ui := @Ui.loaded Ui.msClock in
  let env := @Ui.mkEnv Ui.msClock 0 0 6 6 6 120 false 3000 in
  Ui.movesToString ms = Ui.lit "fBCaDaEaF"
  ∧ ∃ ui', Ui.loadMovesFromString env (Ui.lit "fBCaDaEaF") ui = (inr tt, ui')
      ∧ Ui.ui_moves ui' = ms
      ∧ terminal_prop (Ui.ui_state ui') = Some true
      ∧ store (Ui.ui_state ui') Side0 = 41.
Proof.
  intros ms ui env. split; [reflexivity|].
  assert (recordEnd opening ms
          = Some (mkState [0; 0; 0; 0; 0; 0] [0; 0; 0; 0; 0; 0] 41 7 Side0 None)) as Hrec
    by (vm_compute; reflexivity).
  destruct (load_replays_a_record env ui ms _ eq_refl Hrec)
    as (ui' & Hload & Hmoves & _ & _ & Hsame & Hterm).
  exists ui'. split; [exact Hload|]. split; [exact Hmoves|].
  split; [exact Hterm|]. exact (sameState_store _ _ Side0 Hsame).
Defined.

Section PageLoading.
Context {clock : Ui.Clock}.

Lemma loadLoop_prefix env steps : ∀ ui,
  inPlay (Ui.ui_state ui) → terminal_prop (Ui.ui_state ui) = None →
  ∃ k st,
    (k ≤ length steps)%nat
    ∧ recordEnd (Ui.ui_state ui) (moveOfStep <$> take k steps) = Some st
    ∧ Ui.ui_moves (Ui.loadLoop env steps ui).2
      = Ui.ui_moves ui ++ (moveOfStep <$> take k steps)
    ∧ sameState (Ui.ui_state (Ui.loadLoop env steps ui).2) st
    ∧ match steps !! k with
      | None => (Ui.loadLoop env steps ui).1 = inr tt
      | Some step =>
          recordEnd st [moveOfStep step] = None
          ∧ (Ui.loadLoop env steps ui).1 = inl (loadError st step)
      end.
Proof.
  induction steps as [|step steps IH]; intros ui Hin Hflag.
  - exists O, (Ui.ui_state ui). simpl. split; [lia|]. split; [done|].
    destruct (renderAll_fields env ui) as (-> & _). rewrite app_nil_r.
    split; [done|]. split; [apply sameState_refl || apply renderAll_sameState|done].
  - assert (∀ r, r = inl (loadError (Ui.ui_state ui) step) →
              recordEnd (Ui.ui_state ui) [moveOfStep step] = None →
              ∃ k st,
                (k ≤ length (step :: steps))%nat
                ∧ recordEnd (Ui.ui_state ui) (moveOfStep <$> take k (step :: steps))
                  = Some st
                ∧ Ui.ui_moves (r, ui).2
                  = Ui.ui_moves ui ++ (moveOfStep <$> take k (step :: steps))
                ∧ sameState (Ui.ui_state (r, ui).2) st
                ∧ match (step :: steps) !! k with
                  | None => (r, ui).1 = inr tt
                  | Some step' =>
                      recordEnd st [moveOfStep step'] = None
                      ∧ (r, ui).1 = inl (loadError st step')
                  end) as Hstop.
    { intros r -> Hbad. exists O, (Ui.ui_state ui).
      split; [simpl; lia|]. split; [done|]. split; [by rewrite app_nil_r|].
      split; [apply sameState_refl|]. done. }
    cbn [Ui.loadLoop].
    change (pitsPerSide Ui.rules) with 6.
    destruct (Side_eqb (toMove (Ui.ui_state ui)) (Ui.step_side step)) eqn:Eside;
      cbn [negb].
    2:{ apply Hstop.
        - unfold loadError. by rewrite Eside.
        - cbn [recordEnd moveOfStep Ui.mv_mover].
          assert (Side_eqb (Ui.step_side step) (toMove (Ui.ui_state ui)) = false) as ->;
            [|done].
          destruct (Ui.step_side step), (toMove (Ui.ui_state ui)); done. }
    destruct ((Ui.step_pitIndex step <? 0) || (Ui.step_pitIndex step >=? 6)) eqn:Erange.
    { apply Hstop.
      - unfold loadError. by rewrite Eside, Erange.
      - cbn [recordEnd moveOfStep Ui.mv_mover Ui.mv_pitIndex].
        destruct (Side_eqb (Ui.step_side step) (toMove (Ui.ui_state ui))); [|done].
        destruct (playMove (Ui.ui_state ui) Ui.rules (Ui.step_pitIndex step))
          as [|res] eqn:Hplay; [done|].
        apply playMove_ok_inv in Hplay as ([Hp _] & _).
        change (pitsPerSide Ui.rules) with 6 in Hp.
        apply orb_true_iff in Erange as [E|E];
          [apply Z.ltb_lt in E|apply Z.geb_le in E]; lia. }
    destruct (playMove (Ui.ui_state ui) Ui.rules (Ui.step_pitIndex step))
      as [e|res] eqn:Hplay.
    { apply Hstop.
      - unfold loadError. by rewrite Eside, Erange.
      - cbn [recordEnd moveOfStep Ui.mv_mover Ui.mv_pitIndex].
        rewrite Hplay.
        by destruct (Side_eqb (Ui.step_side step) (toMove (Ui.ui_state ui))). }
    apply Side_eqb_eq in Eside.
    ui_simpl.
    pose proof (terminal_prop_playMove _ _ _ _ Hplay) as Hnone.
    assert (terminal_truthy (state res) = false) as Htt
      by (unfold terminal_truthy; by rewrite Hnone).
    rewrite Htt.
    set (ui1 := Ui.set_vis (state res) (Ui.set_state (state res)
                  (Ui.set_moves (Ui.ui_moves ui ++ [Ui.mkMove (Ui.step_side step)
                                                      (Ui.step_pitIndex step)]) ui))).
    destruct (IH ui1) as (k & st & Hk & Hrec & Hmoves & Hsame & Hres).
    { subst ui1. ui_simpl. by eapply inPlay_playMove. }
    { done. }
    exists (S k), st. split; [simpl; lia|].
    cbn [take fmap list_fmap recordEnd moveOfStep Ui.mv_mover Ui.mv_pitIndex
         lookup list_lookup].
    change (list_fmap Ui.Step Ui.Move moveOfStep) with (fmap (M:=list) moveOfStep).
    rewrite <- Eside, Side_eqb_refl, Hplay.
    split; [done|]. split; [|done].
    rewrite Hmoves. subst ui1. ui_simpl. rewrite <- app_assoc.
    unfold moveOfStep at 2. by destruct step.
Qed.

(** X25.  [loadMovesFromString] on a string that parses: the steps are
    played from the opening until one cannot be played.  It succeeds
    exactly when every step was played; the test of [state.terminal] in
    the loop never ends it early.  Otherwise the game on the page has been
    replaced by the steps before the first bad one, and the message names
    that step: wrong side, pit out of range, or illegal move. *)
Theorem load_stops_at_the_first_bad_step env s steps ui :
  Ui.ui_anim ui = None → Ui.parseMoveString (Some s) = inr steps →
  let result := Ui.loadMovesFromString env s ui in
  ∃ k st,
    (k ≤ length steps)%nat
    ∧ recordEnd opening (moveOfStep <$> take k steps) = Some st
    ∧ Ui.ui_moves result.2 = moveOfStep <$> take k steps
    ∧ sameState (Ui.ui_state result.2) st
    ∧ match steps !! k with
      | None => result.1 = inr tt
      | Some step =>
          recordEnd st [moveOfStep step] = None
          ∧ result.1 = inl (loadError st step)
      end.
Proof.
  intros Ha Hparse result. subst result.
  unfold Ui.loadMovesFromString, Ui.animating. rewrite Ha, Hparse.
  set (ui0 := Ui.set_moves [] _).
  destruct (loadLoop_prefix env steps ui0) as (k & st & Hk & Hrec & Hmoves & Hsame & Hres).
  { apply opening_inPlay. }
  { done. }
  exists k, st. by rewrite Hmoves.
Qed.

End PageLoading.

Lemma load_stops_at_the_first_bad_step_witness :
  let ui := @Ui.loaded Ui.msClock in
  let env := @Ui.mkEnv Ui.msClock 0 0 6 6 6 120 false 3000 in
  let result := Ui.loadMovesFromString env (Ui.lit "cfc") ui in
  result.1 = inl (Ui.lit "Turn mismatch at 'c' (expected P1)")
  ∧ Ui.ui_moves result.2 = [Ui.mkMove Side0 2; Ui.mkMove Side0 5].
Proof.
  intros ui env result.
  assert (Ui.parseMoveString (Some (Ui.lit "cfc"))
          = inr [Ui.mkStep Side0 2; Ui.mkStep Side0 5; Ui.mkStep Side0 2]) as Hparse
    by reflexivity.
  destruct (load_stops_at_the_first_bad_step env _ _ ui eq_refl Hparse)
    as (k & st & Hk & Hrec & Hmoves & Hsame & Hres).
  fold result in Hmoves, Hsame, Hres.
  assert (k = 2%nat) as ->.
  { simpl in Hk.
    destruct k as [|[|[|[|k]]]]; [| |done| |lia].
    - simpl in Hrec. injection Hrec as <-. destruct Hres as [Hbad _].
      vm_compute in Hbad. discriminate Hbad.
    - vm_compute in Hrec. injection Hrec as <-. destruct Hres as [Hbad _].
      vm_compute in Hbad. discriminate Hbad.
    - vm_compute in Hrec. discriminate Hrec. }
  split; [|exact Hmoves].
  destruct Hres as [_ Hres]. rewrite Hres.
  vm_compute in Hrec. injection Hrec as <-. reflexivity.
Defined.

Section PageUndo.
Context {clock : Ui.Clock}.

(** ** Undo *)

Lemma recordEnd_take ms st j :
  recordEnd opening ms = Some st →
  ∃ stj, recordEnd opening (take j ms) = Some stj.
Proof.
  intros Hrec. rewrite <- (take_drop j ms), recordEnd_app in Hrec.
  destruct (recordEnd opening (take j ms)) as [stj|]; [by exists stj|done].
Qed.

Lemma removelast_take {A} (l : list A) : removelast l = take (length l - 1) l.
Proof.
  induction l as [|x l IH] using rev_ind; [done|].
  rewrite removelast_last, length_app. simpl.
  replace (length l + 1 - 1)%nat with (length l) by lia.
  by rewrite take_app_length.
Qed.

(** The position before the last move of a record has a legal move. *)
Lemma before_last_not_terminal ms st :
  ms ≠ [] → recordEnd opening ms = Some st →
  ∃ st', recordEnd opening (removelast ms) = Some st'
    ∧ getValidMoves st' Ui.rules ≠ [].
Proof.
  intros Hne Hrec.
  rewrite (app_removelast_last (Ui.mkMove Side0 0) Hne), recordEnd_app in Hrec.
  destruct (recordEnd opening (removelast ms)) as [st'|]; [|done].
  exists st'. split; [done|]. simpl in Hrec.
  destruct (Side_eqb _ _); [|done].
  destruct (playMove st' Ui.rules _) as [|res] eqn:Hplay; [done|].
  apply playMove_ok_inv in Hplay as [Hacc _]. apply accepted_getValidMoves in Hacc.
  intros E. rewrite E in Hacc. by apply elem_of_nil in Hacc.
Qed.

Lemma replay_pop_fields ui st' :
  recordEnd opening (removelast (Ui.ui_moves ui)) = Some st' →
  Ui.ui_state (Ui.replayFromStart (Ui.popMove ui)) = st'
  ∧ Ui.ui_moves (Ui.replayFromStart (Ui.popMove ui)) = removelast (Ui.ui_moves ui)
  ∧ Ui.ui_anim (Ui.replayFromStart (Ui.popMove ui)) = None
  ∧ Ui.ui_mode (Ui.replayFromStart (Ui.popMove ui)) = Ui.ui_mode ui.
Proof.
  intros Hrec. unfold Ui.replayFromStart. ui_simpl. fold opening.
  by rewrite (replayLoop_recordEnd _ _ _ Hrec).
Qed.

Lemma aiSide_mode (ui ui' : Ui.UiState) :
  Ui.ui_mode ui' = Ui.ui_mode ui → Ui.aiSide ui' = Ui.aiSide ui.
Proof. unfold Ui.aiSide. by intros ->. Qed.

(** The loop of [undoToHumanTurn]: it stops at the longest prefix of the
    record at which the machine is not to move, or at the empty record. *)
Lemma undoWhileAi_spec ms st : recordEnd opening ms = Some st →
  ∀ rounds m ui stm,
    (m ≤ rounds)%nat → (m ≤ length ms)%nat →
    Ui.ui_moves ui = take m ms → Ui.ui_state ui = stm →
    recordEnd opening (take m ms) = Some stm →
    ∃ k stk,
      (k ≤ m)%nat
      ∧ Ui.ui_moves (Ui.undoWhileAi rounds ui) = take k ms
      ∧ recordEnd opening (take k ms) = Some stk
      ∧ Ui.ui_state (Ui.undoWhileAi rounds ui) = stk
      ∧ Ui.ui_mode (Ui.undoWhileAi rounds ui) = Ui.ui_mode ui
      ∧ (k = O ∨ sideNumber (toMove stk) ≠ Ui.aiSide ui)
      ∧ ∀ j stj, (k < j ≤ m)%nat → recordEnd opening (take j ms) = Some stj →
          sideNumber (toMove stj) = Ui.aiSide ui.
Proof.
  intros Hrec. induction rounds as [|rounds IH]; intros m ui stm Hm Hlen Hmoves Hstate Hstm.
  - assert (m = O) as -> by lia. exists O, stm. simpl.
    split; [done|]. split; [done|]. split; [done|]. split; [done|]. split; [done|].
    split; [by left|]. intros j stj Hj. lia.
  - cbn [Ui.undoWhileAi].
    destruct ((0 <? length (Ui.ui_moves ui))%nat
              && (sideNumber (toMove (Ui.ui_state ui)) =? Ui.aiSide ui)) eqn:Econd.
    + apply andb_true_iff in Econd as [Epos Eai].
      apply Nat.ltb_lt in Epos. apply Z.eqb_eq in Eai.
      rewrite Hmoves, length_take in Epos.
      destruct m as [|m]; [simpl in Epos; lia|].
      destruct (recordEnd_take ms st m Hrec) as (stm' & Hstm').
      assert (removelast (Ui.ui_moves ui) = take m ms) as Hpop.
      { rewrite Hmoves, removelast_take, length_take, take_take.
        f_equal. lia. }
      destruct (replay_pop_fields ui stm') as (Es & Em & Ea & Emode);
        [by rewrite Hpop|].
      destruct (IH m (Ui.replayFromStart (Ui.popMove ui)) stm')
        as (k & stk & Hk & Hkm & Hkrec & Hks & Hkmode & Hstop & Hall);
        [lia|lia|by rewrite Em|done|done|].
      rewrite (aiSide_mode _ _ Emode) in Hstop, Hall.
      exists k, stk. split; [lia|]. split; [done|]. split; [done|]. split; [done|].
      split; [by rewrite Hkmode|]. split; [done|].
      intros j stj Hj Hjrec.
      destruct (decide (j = S m)) as [->|Hne].
      * rewrite Hstm in Hjrec. injection Hjrec as <-. by rewrite <- Hstate.
      * apply (Hall j stj); [lia|done].
    + exists m, stm. split; [done|]. split; [done|]. split; [done|]. split; [done|].
      split; [done|]. split; [|intros j stj Hj; lia].
      apply andb_false_iff in Econd as [Epos|Eai].
      * left. apply Nat.ltb_ge in Epos. rewrite Hmoves, length_take in Epos. lia.
      * right. apply Z.eqb_neq in Eai. by rewrite <- Hstate.
Qed.

Lemma undoWhileAi_anim rounds : ∀ ui,
  Ui.ui_anim ui = None → Ui.ui_anim (Ui.undoWhileAi rounds ui) = None.
Proof.
  induction rounds as [|rounds IH]; intros ui Ha; [done|]. simpl.
  destruct (_ && _); [|done]. by apply IH.
Qed.

Lemma renderAll_not_terminal env ui :
  getValidMoves (Ui.ui_state ui) Ui.rules ≠ [] →
  terminal_prop (Ui.ui_state (Ui.renderAll env ui)) = Some false
  ∧ Ui.ui_gameLogged (Ui.renderAll env ui) = Ui.ui_gameLogged ui.
Proof.
  intros Hne.
  assert (Ui.ui_state (Ui.updateTerminalFlag ui) = Ui.set_terminal false (Ui.ui_state ui)
          ∧ Ui.ui_gameLogged (Ui.updateTerminalFlag ui) = Ui.ui_gameLogged ui)
    as [Es Eg].
  { unfold Ui.updateTerminalFlag. ui_simpl.
    by destruct (getValidMoves (Ui.ui_state ui) Ui.rules). }
  unfold Ui.renderAll, Ui.logCompletedGameOnce. rewrite Eg.
  destruct (Ui.ui_gameLogged ui) eqn:Elog; [by rewrite Es, Eg|].
  assert (terminal_truthy (Ui.ui_state (Ui.updateTerminalFlag ui)) = false) as ->
    by (by rewrite Es).
  cbn [negb]. by rewrite Es, Eg.
Qed.

Lemma recordEnd_flag ms st : recordEnd opening ms = Some st → terminal_prop st = None.
Proof. apply terminal_prop_recordEnd. reflexivity. Qed.

(** X26.  Undo on a page that shows no animation and has a history.
    [undoOne] removes the last move; [state] is the position the rest of
    the record leads to, it is not terminal, and the game may be logged
    again.  In a game against the machine, [undoToHumanTurn] goes back to
    the longest shorter record at which the machine is not to move, or to
    the empty record. *)
Theorem undo_goes_back_in_the_record env0 (events : list (Ui.Env * Ui.Event)) env :
  let ui := Ui.run env0 events in
  let ms := Ui.ui_moves ui in
  Ui.ui_anim ui = None → ms ≠ [] →
  (let ui1 := Ui.undoOne env ui in
   Ui.ui_moves ui1 = removelast ms ∧ Ui.ui_anim ui1 = None
   ∧ (∃ st, recordEnd opening (removelast ms) = Some st
        ∧ sameState (Ui.ui_state ui1) st)
   ∧ terminal_prop (Ui.ui_state ui1) = Some false
   ∧ Ui.ui_gameLogged ui1 = false)
  ∧ (Ui.isAiGame ui = true →
     let ui2 := Ui.undoToHumanTurn env ui in
     ∃ k stk,
       (k < length ms)%nat ∧ Ui.ui_moves ui2 = take k ms ∧ Ui.ui_anim ui2 = None
       ∧ recordEnd opening (take k ms) = Some stk
       ∧ sameState (Ui.ui_state ui2) stk
       ∧ (k = O ∨ Ui.isHumansTurn ui2 = true)
       ∧ ∀ j stj, (k < j < length ms)%nat →
           recordEnd opening (take j ms) = Some stj →
           sideNumber (toMove stj) = Ui.aiSide ui).
Proof.
  intros ui ms Ha Hne. pose proof (coherent_run env0 events) as Hc. fold ui in Hc.
  destruct Hc as ((st0 & Hst & Hrec) & _). rewrite Ha in Hrec.
  destruct Hrec as (Hrec & _). fold ms in Hrec.
  destruct (before_last_not_terminal ms st0 Hne Hrec) as (st' & Hrec' & Hmoves').
  destruct (replay_pop_fields ui st' Hrec') as (Es & Em & Eanim & Emode).
  assert (Ui.animating ui = false) as Hanim by (unfold Ui.animating; by rewrite Ha).
  assert ((length (Ui.ui_moves ui) =? 0)%nat = false) as Hlen.
  { apply Nat.eqb_neq. fold ms. intros E. apply Hne. by apply nil_length_inv. }
  pose proof (recordEnd_flag _ _ Hrec') as Hflag'.
  split.
  - intros ui1. subst ui1. unfold Ui.undoOne. rewrite Hanim, Hlen.
    assert (terminal_truthy (Ui.ui_state (Ui.replayFromStart (Ui.popMove ui))) = false)
      as -> by (rewrite Es; unfold terminal_truthy; by rewrite Hflag').
    cbn [negb].
    set (ui_b := Ui.set_gameLogged false _).
    destruct (renderAll_fields env ui_b) as (-> & -> & _ & Estate).
    destruct (renderAll_not_terminal env ui_b) as (-> & ->).
    { subst ui_b. ui_simpl. by rewrite Es. }
    subst ui_b. ui_simpl. split; [done|]. split; [done|].
    split; [|done]. exists st'. split; [done|].
    rewrite Estate, Es. apply sameState_set_terminal.
  - intros Hai ui2. subst ui2. unfold Ui.undoToHumanTurn. rewrite Hanim, Hai, Hlen.
    cbn [negb].
    set (ui_a := Ui.replayFromStart (Ui.popMove ui)) in *.
    assert (Ui.ui_moves ui_a = take (length ms - 1) ms) as Hms_a
      by (rewrite Em; apply removelast_take).
    assert (length (Ui.ui_moves ui_a) = (length ms - 1)%nat) as Hlen_a.
    { rewrite Hms_a, length_take. lia. }
    destruct (undoWhileAi_spec ms st0 Hrec (length (Ui.ui_moves ui_a))
                (length ms - 1)%nat ui_a st')
      as (k & stk & Hk & Hkm & Hkrec & Hks & Hkmode & Hstop & Hall);
      [lia|lia|done|done|by rewrite <- removelast_take|].
    set (ui_w := Ui.undoWhileAi _ ui_a) in *.
    destruct (renderAll_fields env ui_w) as (Em2 & Ea2 & Emode2 & Estate2).
    assert (Ui.ui_anim ui_w = None) as Hanim_w
      by (by apply undoWhileAi_anim).
    assert (0 < length ms)%nat as Hpos.
    { apply Nat.eqb_neq in Hlen. fold ms in Hlen. lia. }
    exists k, stk. split; [lia|]. split; [by rewrite Em2|].
    split; [by rewrite Ea2|]. split; [done|].
    split; [rewrite Estate2, Hks; apply sameState_set_terminal|].
    rewrite (aiSide_mode ui ui_a Emode) in Hstop, Hall.
    split.
    + destruct Hstop as [->|Hstop]; [by left|]. right.
      unfold Ui.isHumansTurn, Ui.aiSide.
      rewrite Emode2, Hkmode, Emode, Estate2, Hks.
      unfold Ui.isAiGame in Hai. unfold Ui.aiSide in Hstop.
      destruct (Ui.ui_mode ui); simpl in *; try done;
        by destruct (toMove stk).
    + intros j stj Hj. apply Hall. lia.
Qed.

End PageUndo.

(** ** The length of a game on the page *)

Lemma recordEnd_line ms : ∀ st st',
  recordEnd st ms = Some st' →
  ∃ l, play_line Ui.rules (st :: l) ∧ length l = length ms.
Proof.
  induction ms as [|m ms IH]; intros st st'; simpl.
  - intros _. exists []. split; [constructor|done].
  - destruct (Side_eqb _ _); [|done].
    destruct (playMove st Ui.rules (Ui.mv_pitIndex m)) as [|res] eqn:Hplay; [done|].
    intros Hrec. destruct (IH _ _ Hrec) as (l & Hline & Hlen).
    exists (state res :: l). split; [|by rewrite <- Hlen].
    constructor; [|done]. by exists (Ui.mv_pitIndex m), res.
Qed.

Lemma record_length ms st :
  recordEnd opening ms = Some st → Z.of_nat (length ms) ≤ 11448.
Proof.
  intros Hrec. destruct (recordEnd_line ms opening st Hrec) as (l & Hline & <-).
  assert (0 < pitsPerSide Ui.rules) as Hn by reflexivity.
  pose proof (game_length_bound_general Ui.rules opening l Hn eq_refl
                (proj1 opening_inPlay) Hline) as Hb.
  assert (pitSeeds opening * ((pitsPerSide Ui.rules - 1) * pitSeeds opening + 1)
          - advance opening = 11448) as E by reflexivity.
  by rewrite E in Hb.
Qed.

Section PageLength.
Context {clock : Ui.Clock}.

(** X27.  A game on the page is short: the history never holds more than
    11448 completed moves, so the move string of a logged game has between
    1 and 11448 characters, one per ply. *)
Theorem page_games_are_short env0 (events : list (Ui.Env * Ui.Event)) :
  let ui := Ui.run env0 events in
  Z.of_nat (length (Ui.ui_moves ui)) ≤ 11449
  ∧ (Ui.ui_anim ui = None → Z.of_nat (length (Ui.ui_moves ui)) ≤ 11448)
  ∧ ∀ p, p ∈ Ui.ui_sent ui →
      1 ≤ Ui.pl_plies p ≤ 11448
      ∧ Z.of_nat (length (Ui.pl_moves p)) = Ui.pl_plies p.
Proof.
  intros ui. pose proof (coherent_run env0 events) as Hc. fold ui in Hc.
  destruct Hc as ((st0 & Hst & Hrec) & _ & Hsent).
  assert (Ui.ui_anim ui = None → Z.of_nat (length (Ui.ui_moves ui)) ≤ 11448) as Hnone.
  { intros Ha. rewrite Ha in Hrec. destruct Hrec as (Hrec & _).
    by eapply record_length. }
  split; [|split; [done|]].
  - destruct (Ui.ui_anim ui) as [a|] eqn:Ha.
    + destruct Hrec as (Hms & Hrec & _). rewrite Hms, length_app. simpl.
      pose proof (record_length _ _ Hrec). lia.
    + specialize (Hnone eq_refl). lia.
  - intros p Hp. rewrite Forall_forall in Hsent.
    destruct (Hsent p Hp) as (ms & st & Hm & Hne & Hrec' & _ & Hpl & _).
    pose proof (record_length _ _ Hrec') as Hlen.
    rewrite Hm, Hpl.
    rewrite (proj2 (parse_movesToString ms (recordEnd_pits _ _ _ Hrec'))).
    split; [|done]. destruct ms; [done|]. simpl length in *. lia.
Qed.

End PageLength.

(** ** Examples on a page with a clock of milliseconds *)

Lemma animation_shows_the_sowing_witness :
  let env := @Ui.mkEnv Ui.msClock 0 0 6 6 6 120 false 3000 in
  let events := [(env, Ui.CanvasClick (Some (Side0, 2)));
                 (env, @Ui.Frame Ui.msClock 0); (env, @Ui.Frame Ui.msClock 200)] in
  let ui := Ui.run env events in
  ∃ a, Ui.ui_anim ui = Some a ∧ Ui.idx a = 2%nat
    ∧ sameState (Ui.ui_vis ui)
        (mkState [4; 4; 0; 5; 5; 4] [4; 4; 4; 4; 4; 4] 0 0 Side0 None).
Proof.
  intros env events ui.
  destruct (Ui.ui_anim ui) as [a|] eqn:Ha; [|vm_compute in Ha; discriminate Ha].
  exists a. split; [reflexivity|].
  destruct (animation_shows_the_sowing env events a Ha)
    as (res & Hplay & Hpath & Hend & Hmv & Hstart & Hidx & Hvis & _).
  fold ui in Hvis.
  vm_compute in Ha. injection Ha as <-.
  split; [reflexivity|]. exact Hvis.
Defined.

Lemma logged_games_are_finished_games_witness :
  let env := @Ui.mkEnv Ui.msClock 0 1700000000000 6 6 6 120 false 3000 in
  let events := [(env, Ui.LoadMovesClick (Some (Ui.lit "fBCaDaEaF")))] in
  let ui := Ui.run env events in
  ∃ p, p ∈ Ui.ui_sent ui
    ∧ Ui.pl_moves p = Ui.lit "fBCaDaEaF" ∧ Ui.pl_plies p = 9
    ∧ Ui.pl_finalStore0 p = 41
    ∧ Ui.pl_finalStore0 p + Ui.pl_finalStore1 p = 48.
Proof.
  intros env events ui.
  destruct (Ui.ui_sent ui) as [|p sent] eqn:Hsent; [vm_compute in Hsent; discriminate Hsent|].
  assert (p ∈ Ui.ui_sent ui) as Hp by (rewrite Hsent; left).
  exists p. split; [by rewrite <- Hsent|].
  destruct (logged_games_are_finished_games env events p Hp)
    as (ms & st & _ & _ & _ & _ & _ & _ & _ & _ & _ & Hsum & _).
  vm_compute in Hsent. injection Hsent as <- <-.
  split; [reflexivity|]. split; [reflexivity|]. split; [reflexivity|]. exact Hsum.
Defined.

Lemma undo_goes_back_in_the_record_witness :
  let env := @Ui.mkEnv Ui.msClock 0 0 6 6 6 120 false 3000 in
  let events := [(env, Ui.LoadMovesClick (Some (Ui.lit "cfB")))] in
  let ui := Ui.run env events in
  let ms := [Ui.mkMove Side0 2; Ui.mkMove Side0 5; Ui.mkMove Side1 1] in
  Ui.ui_anim ui = None ∧ Ui.ui_moves ui = ms
  ∧ Ui.ui_moves (Ui.undoOne env ui) = [Ui.mkMove Side0 2; Ui.mkMove Side0 5]
  ∧ Ui.ui_moves (Ui.undoToHumanTurn env ui) = [Ui.mkMove Side0 2]
  ∧ ∃ k, (k < 3)%nat ∧ Ui.ui_moves (Ui.undoToHumanTurn env ui) = take k ms.
Proof.
  intros env events ui ms.
  assert (Ui.ui_anim ui = None) as Ha by (vm_compute; reflexivity).
  assert (Ui.ui_moves ui = ms) as Hms by (vm_compute; reflexivity).
  assert (Ui.isAiGame ui = true) as Hai by (vm_compute; reflexivity).
  assert (Ui.ui_moves ui ≠ []) as Hne by (rewrite Hms; discriminate).
  destruct (undo_goes_back_in_the_record env events env Ha Hne) as [Hone Hturn].
  fold ui in Hone, Hturn.
  split; [exact Ha|]. split; [exact Hms|]. split; [|split].
  - destruct Hone as (Hmoves & _). rewrite Hmoves, Hms. reflexivity.
  - vm_compute. reflexivity.
  - destruct (Hturn Hai) as (k & stk & Hk & Hmoves & _).
    rewrite Hms in Hk, Hmoves. exists k. split; [exact Hk|exact Hmoves].
Defined.
